(** * mavalloc: an arena allocator over an index-linked ledger

    Shallow embedding of [mavalloc.c].  The allocator keeps a fixed table
    [ledger] of [MAX_ALLOCS] block records threaded into a doubly linked
    list by the integer fields [next] and [previous]; [-1] is the list
    boundary.  The C globals and the two function-local [static] variables
    are gathered in one record that every operation threads explicitly.

    Data model of the target (LP64): [size_t] and pointers are 64-bit
    unsigned, [long] is 64-bit signed, [int] is 32-bit signed.  All wrap
    arounds and conversions are written out.

    Subscripting the ledger outside [0, MAX_ALLOCS) is undefined in C; the
    embedding stops there with [OutOfBounds i], so every result [Done _]
    describes a run of the C code that stayed inside the array.  Loops carry
    fuel; a chain of in-range subscripts that is longer than the table must
    revisit a record, so the default fuel is only exhausted by a walk that
    never ends. *)

From Stdlib Require Import ZArith Bool Lia.
From stdpp Require Import prelude.

Local Open Scope Z_scope.

(** ** Machine integers *)

Definition to_size_t (z : Z) : Z := z mod 2 ^ 64.
Definition to_long (z : Z) : Z := (z + 2 ^ 63) mod 2 ^ 64 - 2 ^ 63.
Definition to_int (z : Z) : Z := (z + 2 ^ 31) mod 2 ^ 32 - 2 ^ 31.
Definition INT_MAX : Z := 2 ^ 31 - 1.
Definition NULL : Z := 0.

(** Modelled from the spec: the macro [ALIGN4] of [mavalloc.h], which is not
    among the sources.  Sizes are "rounded up to a 4-byte boundary"; the
    result is a [size_t], hence the wrap. *)
Definition ALIGN4 (s : Z) : Z := to_size_t ((s + 3) / 4 * 4).

(** Modelled from the spec: the enumeration [ALGORITHM] of [mavalloc.h],
    with the four strategies the [switch] of [mavalloc_alloc] names. *)
Inductive ALGORITHM : Set := FIRST_FIT | NEXT_FIT | BEST_FIT | WORST_FIT.

#[global] Instance ALGORITHM_eq_dec : EqDecision ALGORITHM.
Proof. solve_decision. Defined.

(** ** The ledger *)

Definition MAX_ALLOCS : Z := 10000.

Inductive TYPE : Set :=
| P  (* Process Allocation *)
| H. (* Hole *)

#[global] Instance TYPE_eq_dec : EqDecision TYPE.
Proof. solve_decision. Defined.

Record Node : Set := mkNode {
  size : Z;
  type : TYPE;
  arena : Z;
  next : Z;
  previous : Z
}.

#[global] Instance Node_eq_dec : EqDecision Node.
Proof. solve_decision. Defined.

Definition set_size (v : Z) (n : Node) : Node :=
  mkNode v (type n) (arena n) (next n) (previous n).
Definition set_type (v : TYPE) (n : Node) : Node :=
  mkNode (size n) v (arena n) (next n) (previous n).
Definition set_arena (v : Z) (n : Node) : Node :=
  mkNode (size n) (type n) v (next n) (previous n).
Definition set_next (v : Z) (n : Node) : Node :=
  mkNode (size n) (type n) (arena n) v (previous n).
Definition set_previous (v : Z) (n : Node) : Node :=
  mkNode (size n) (type n) (arena n) (next n) v.

(** The globals of the translation unit.  [traverse_back_ptr] is the
    [static int ptr] of [traverse_back], [next_fit_last_ptr] the
    [static int last_ptr] of [next_fit].  [heap] is the part of the C
    library's state that [mavalloc_init] and [mavalloc_destroy] act on: the
    addresses [malloc] has returned and [free] has not been given since. *)
Record allocator : Set := mkAllocator {
  pool : Z;
  pool_size : Z;
  alloc_algorithm : ALGORITHM;
  ledger_top : Z;
  ledger : list Node;
  traverse_back_ptr : Z;
  next_fit_last_ptr : Z;
  heap : list Z
}.

#[global] Instance allocator_eq_dec : EqDecision allocator.
Proof. solve_decision. Defined.

Definition with_pool (v : Z) (a : allocator) : allocator :=
  mkAllocator v (pool_size a) (alloc_algorithm a) (ledger_top a) (ledger a)
    (traverse_back_ptr a) (next_fit_last_ptr a) (heap a).
Definition with_pool_size (v : Z) (a : allocator) : allocator :=
  mkAllocator (pool a) v (alloc_algorithm a) (ledger_top a) (ledger a)
    (traverse_back_ptr a) (next_fit_last_ptr a) (heap a).
Definition with_alloc_algorithm (v : ALGORITHM) (a : allocator) : allocator :=
  mkAllocator (pool a) (pool_size a) v (ledger_top a) (ledger a)
    (traverse_back_ptr a) (next_fit_last_ptr a) (heap a).
Definition with_ledger_top (v : Z) (a : allocator) : allocator :=
  mkAllocator (pool a) (pool_size a) (alloc_algorithm a) v (ledger a)
    (traverse_back_ptr a) (next_fit_last_ptr a) (heap a).
Definition with_ledger (v : list Node) (a : allocator) : allocator :=
  mkAllocator (pool a) (pool_size a) (alloc_algorithm a) (ledger_top a) v
    (traverse_back_ptr a) (next_fit_last_ptr a) (heap a).
Definition with_traverse_back_ptr (v : Z) (a : allocator) : allocator :=
  mkAllocator (pool a) (pool_size a) (alloc_algorithm a) (ledger_top a)
    (ledger a) v (next_fit_last_ptr a) (heap a).
Definition with_next_fit_last_ptr (v : Z) (a : allocator) : allocator :=
  mkAllocator (pool a) (pool_size a) (alloc_algorithm a) (ledger_top a)
    (ledger a) (traverse_back_ptr a) v (heap a).
Definition with_heap (v : list Z) (a : allocator) : allocator :=
  mkAllocator (pool a) (pool_size a) (alloc_algorithm a) (ledger_top a)
    (ledger a) (traverse_back_ptr a) (next_fit_last_ptr a) v.

(** ** Results of a run *)

(** [Done]: the call returned.  [OutOfBounds i]: [ledger] was subscripted
    with [i], outside the array.  [Diverges]: a loop did not end within its
    fuel.  [InvalidFree p]: [free] was given [p], which is neither null nor
    a reserved region. *)
Inductive outcome (A : Type) : Type :=
| Done (a : A)
| OutOfBounds (subscript : Z)
| Diverges
| InvalidFree (ptr : Z).

Arguments Done {A} a.
Arguments OutOfBounds {A} subscript.
Arguments Diverges {A}.
Arguments InvalidFree {A} ptr.

Definition obind {A B : Type} (c : outcome A) (k : A -> outcome B) : outcome B :=
  match c with
  | Done a => k a
  | OutOfBounds i => OutOfBounds i
  | Diverges => Diverges
  | InvalidFree p => InvalidFree p
  end.

(** Computations over the allocator globals. *)
Definition M (A : Type) : Type := allocator -> outcome (A * allocator).

Definition ret {A : Type} (x : A) : M A := fun a => Done (x, a).
Definition bind {A B : Type} (c : M A) (k : A -> M B) : M B :=
  fun a => obind (c a) (fun r => k (fst r) (snd r)).
Definition lift {A : Type} (c : list Node -> outcome A) : M A :=
  fun a => obind (c (ledger a)) (fun x => Done (x, a)).
Definition gets {A : Type} (f : allocator -> A) : M A := fun a => Done (f a, a).
Definition modify (f : allocator -> allocator) : M unit := fun a => Done (tt, f a).

Declare Scope alloc_scope.
Delimit Scope alloc_scope with alloc.
Notation "x <- c ;; k" := (bind c (fun x => k))
  (at level 100, c at next level, right associativity) : alloc_scope.
Notation "c ;; k" := (bind c (fun _ => k))
  (at level 100, right associativity) : alloc_scope.
Notation "x <~ c ;; k" := (obind c (fun x => k))
  (at level 100, c at next level, right associativity) : alloc_scope.
Local Open Scope alloc_scope.

(** ** Subscripting [ledger] *)

Definition valid_subscript (i : Z) : bool := (0 <=? i) && (i <? MAX_ALLOCS).

(** [ledger[i]] as an rvalue. *)
Definition ledger_at (i : Z) (l : list Node) : outcome Node :=
  if valid_subscript i then
    match l !! Z.to_nat i with
    | Some n => Done n
    | None => OutOfBounds i
    end
  else OutOfBounds i.

(** [ledger[i].field = v]. *)
Definition ledger_set (i : Z) (f : Node -> Node) (l : list Node) : outcome (list Node) :=
  n <~ ledger_at i l ;; Done (<[Z.to_nat i := f n]> l).

Definition rd (i : Z) : M Node := lift (ledger_at i).
Definition wr (i : Z) (f : Node -> Node) : M unit :=
  fun a => l <~ ledger_set i f (ledger a) ;; Done (tt, with_ledger l a).

(** Default fuel of every loop: one more than the number of records. *)
Definition fuel : nat := S (Z.to_nat MAX_ALLOCS).
Arguments fuel : simpl never.

(** ** [traverse_back] *)

Fixpoint traverse_back_loop (k : nat) (ptr : Z) (l : list Node) : outcome Z :=
  match k with
  | O => Diverges
  | S k' =>
      n <~ ledger_at ptr l ;;
      if previous n =? -1 then Done ptr
      else traverse_back_loop k' (previous n) l
  end.

Definition traverse_back_with (k : nat) : M Z :=
  ptr <- gets traverse_back_ptr ;;
  n <- rd ptr ;;
  r <- lift (traverse_back_loop k (if next n =? -1 then 0 else ptr)) ;;
  modify (with_traverse_back_ptr r) ;;
  ret r.

Definition traverse_back : M Z := traverse_back_with fuel.

(** ** [malloc] and [free]

    [malloc_result] is what the C library's [malloc (pool_size)] answers:
    [NULL] or the address of the region it has reserved. *)
Definition libc_malloc (malloc_result : Z) (a : allocator) : allocator :=
  if malloc_result =? NULL then a else with_heap (malloc_result :: heap a) a.

(** [free (p)]: nothing for a null pointer; a region [malloc] returned and
    that was not released since is released; any other argument (a region
    released before, an address [malloc] never returned) is undefined
    behaviour, reported as [InvalidFree p]. *)
Definition libc_free (p : Z) : M unit :=
  fun a =>
    if p =? NULL then Done (tt, a)
    else if bool_decide (p ∈ heap a)
         then Done (tt, with_heap (filter (fun q => q <> p) (heap a)) a)
         else InvalidFree p.

(** ** [mavalloc_init] and [mavalloc_destroy] *)

(** The loops of both functions assign [arena], [size], [previous] and
    [next] of a record, not its [type]. *)
Definition reset_node (n : Node) : Node := mkNode 0 (type n) NULL (-1) (-1).

Definition mavalloc_init (malloc_result : Z) (size : Z) (algorithm : ALGORITHM) : M Z :=
  let size := to_size_t size in
  modify (with_alloc_algorithm algorithm) ;;
  if size <? 0 then ret (-1)
  else
    modify (with_pool_size (ALIGN4 size)) ;;
    modify (fun a => with_pool malloc_result (libc_malloc malloc_result a)) ;;
    pool' <- gets pool ;;
    if pool' =? NULL then ret (-1)
    else
      modify (with_ledger_top 0) ;;
      pool_size' <- gets pool_size ;;
      wr 0 (set_arena pool') ;;
      wr 0 (set_size pool_size') ;;
      wr 0 (set_previous (-1)) ;;
      wr 0 (set_next (-1)) ;;
      wr 0 (set_type H) ;;
      modify (fun a => with_ledger (take 1 (ledger a) ++ map reset_node (drop 1 (ledger a))) a) ;;
      ret 0.

Definition mavalloc_destroy : M unit :=
  pool' <- gets pool ;;
  libc_free pool' ;;
  modify (fun a => with_ledger (map reset_node (ledger a)) a) ;;
  modify (with_pool_size 0) ;;
  modify (with_ledger_top (-1)).

(** ** Placement strategies *)

Definition is_P (t : TYPE) : bool := if t is P then true else false.
Definition is_H (t : TYPE) : bool := if t is H then true else false.

(** The [while] loop shared by [first_fit] and [next_fit]. *)
Fixpoint first_fit_loop (k : nat) (sz : Z) (ptr : Z) (l : list Node) : outcome Z :=
  match k with
  | O => Diverges
  | S k' =>
      if ptr =? -1 then Done ptr
      else
        n <~ ledger_at ptr l ;;
        if (size n <? sz) || is_P (type n)
        then first_fit_loop k' sz (next n) l
        else Done ptr
  end.

Definition first_fit_with (k : nat) (sz : Z) : M Z :=
  ptr <- traverse_back_with k ;;
  lift (first_fit_loop k sz ptr).

Definition next_fit_with (k : nat) (sz : Z) : M Z :=
  last_ptr <- gets next_fit_last_ptr ;;
  ptr <- lift (first_fit_loop k sz last_ptr) ;;
  ptr <- (if ptr =? -1 then first_fit_with k sz else ret ptr) ;;
  modify (with_next_fit_last_ptr ptr) ;;
  ret ptr.

Fixpoint worst_fit_loop (k : nat) (sz : Z) (ptr : Z) (max_hole_idx max_hole_size : Z)
    (l : list Node) : outcome Z :=
  match k with
  | O => Diverges
  | S k' =>
      if ptr =? -1 then Done max_hole_idx
      else
        n <~ ledger_at ptr l ;;
        if is_H (type n) && (sz <=? size n) && (max_hole_size <? to_long (size n))
        then worst_fit_loop k' sz (next n) ptr (to_int (size n)) l
        else worst_fit_loop k' sz (next n) max_hole_idx max_hole_size l
  end.

Definition worst_fit_with (k : nat) (sz : Z) : M Z :=
  ptr <- traverse_back_with k ;;
  lift (worst_fit_loop k sz ptr (-1) (-1)).

Fixpoint best_fit_loop (k : nat) (sz : Z) (ptr : Z) (min_hole_idx min_hole_size : Z)
    (l : list Node) : outcome Z :=
  match k with
  | O => Diverges
  | S k' =>
      if ptr =? -1 then Done min_hole_idx
      else
        n <~ ledger_at ptr l ;;
        if is_H (type n) && (sz <=? size n) && (to_long (size n) <? min_hole_size)
        then best_fit_loop k' sz (next n) ptr (to_int (size n)) l
        else best_fit_loop k' sz (next n) min_hole_idx min_hole_size l
  end.

Definition best_fit_with (k : nat) (sz : Z) : M Z :=
  ptr <- traverse_back_with k ;;
  lift (best_fit_loop k sz ptr (-1) INT_MAX).

Definition first_fit : Z -> M Z := first_fit_with fuel.
Definition next_fit : Z -> M Z := next_fit_with fuel.
Definition worst_fit : Z -> M Z := worst_fit_with fuel.
Definition best_fit : Z -> M Z := best_fit_with fuel.

(** The [switch] of [mavalloc_alloc]. *)
Definition select_hole (sz : Z) : M Z :=
  algorithm <- gets alloc_algorithm ;;
  match algorithm with
  | FIRST_FIT => first_fit sz
  | NEXT_FIT => next_fit sz
  | WORST_FIT => worst_fit sz
  | BEST_FIT => best_fit sz
  end.

(** ** [mavalloc_alloc] *)

Definition mavalloc_alloc (size0 : Z) : M Z :=
  let sz := ALIGN4 (to_size_t size0) in
  idx <- select_hole sz ;;
  if idx =? -1 then ret NULL
  else
    h <- rd idx ;;
    if size h =? sz then
      wr idx (set_type P) ;;
      h <- rd idx ;;
      ret (arena h)
    else
      top <- gets ledger_top ;;
      let top := top + 1 in
      modify (with_ledger_top top) ;;
      wr top (set_size sz) ;;
      wr top (set_type P) ;;
      h <- rd idx ;;
      wr top (set_previous (previous h)) ;;
      h <- rd idx ;;
      (if negb (previous h =? -1) then wr (previous h) (set_next top) else ret tt) ;;
      wr top (set_next idx) ;;
      wr idx (set_previous top) ;;
      h <- rd idx ;;
      wr idx (set_size (to_size_t (size h - sz))) ;;
      h <- rd idx ;;
      wr top (set_arena (arena h)) ;;
      h <- rd idx ;;
      wr idx (set_arena (to_size_t (arena h + sz))) ;;
      t <- rd top ;;
      ret (arena t).

(** ** [mavalloc_free] *)

Fixpoint free_search (k : nat) (ptr : Z) (i : Z) (l : list Node) : outcome Z :=
  match k with
  | O => Diverges
  | S k' =>
      if i =? -1 then Done i
      else
        n <~ ledger_at i l ;;
        if arena n =? ptr then Done i else free_search k' ptr (next n) l
  end.

(** [ledger[i].previous != -1 && ledger[ledger[i].previous].type == H] *)
Definition previous_is_hole (i : Z) : M bool :=
  n <- rd i ;;
  if previous n =? -1 then ret false
  else p <- rd (previous n) ;; ret (is_H (type p)).

(** [ledger[i].next != -1 && ledger[ledger[i].next].type == H] *)
Definition next_is_hole (i : Z) : M bool :=
  n <- rd i ;;
  if next n =? -1 then ret false
  else x <- rd (next n) ;; ret (is_H (type x)).

Definition coalesce_backwards (i : Z) : M Z :=
  b <- previous_is_hole i ;;
  if b then
    n <- rd i ;;
    p <- rd (previous n) ;;
    wr (previous n) (set_size (to_size_t (size p + size n))) ;;
    top <- gets ledger_top ;;
    (if i =? top then modify (with_ledger_top (top - 1)) else ret tt) ;;
    n <- rd i ;;
    let i := previous n in
    n <- rd i ;;
    x <- rd (next n) ;;
    wr i (set_next (next x)) ;;
    n <- rd i ;;
    wr (next n) (set_previous i) ;;
    ret i
  else ret i.

Definition coalesce_forward (i : Z) : M unit :=
  b <- next_is_hole i ;;
  if b then
    n <- rd i ;;
    x <- rd (next n) ;;
    wr i (set_size (to_size_t (size n + size x))) ;;
    n <- rd i ;;
    x <- rd (next n) ;;
    wr i (set_next (next x)) ;;
    n <- rd i ;;
    wr (next n) (set_previous i)
  else ret tt.

Definition mavalloc_free_with (k : nat) (ptr : Z) : M unit :=
  if ptr =? NULL then ret tt
  else
    i <- traverse_back_with k ;;
    i <- lift (free_search k ptr i) ;;
    if negb (i =? -1) then
      wr i (set_type H) ;;
      i <- coalesce_backwards i ;;
      coalesce_forward i
    else ret tt.

Definition mavalloc_free : Z -> M unit := mavalloc_free_with fuel.

(** ** [mavalloc_size] *)

(** The [for] loop of [mavalloc_size]; it runs while [i >= 0]. *)
Fixpoint size_loop (k : nat) (i : Z) (number_of_nodes : Z) (l : list Node) : outcome Z :=
  match k with
  | O => Diverges
  | S k' =>
      if 0 <=? i then
        n <~ ledger_at i l ;;
        size_loop k' (next n) (number_of_nodes + 1) l
      else Done number_of_nodes
  end.

Definition mavalloc_size_with (k : nat) : M Z :=
  hd <- traverse_back_with k ;;
  n <- rd hd ;;
  if arena n =? NULL then ret 0
  else
    i <- traverse_back_with k ;;
    lift (size_loop k i 0).

Definition mavalloc_size : M Z := mavalloc_size_with fuel.

(** ** Introspection: the live list *)

(** The indices met by [for (i = ...; i != -1; i = ledger[i].next)]. *)
Fixpoint live_from (k : nat) (i : Z) (l : list Node) : outcome (list Z) :=
  match k with
  | O => Diverges
  | S k' =>
      if i =? -1 then Done []
      else
        n <~ ledger_at i l ;;
        rest <~ live_from k' (next n) l ;;
        Done (i :: rest)
  end.

(** The records of the live list, from the head [traverse_back] reports. *)
Definition live_list (a : allocator) : outcome (list Z) :=
  r <~ traverse_back a ;; live_from fuel (fst r) (ledger (snd r)).

(** A block as the caller sees it: kind, start offset in the pool, length. *)
Record block : Set := mkBlock { kind : TYPE; offset : Z; extent : Z }.

#[global] Instance block_eq_dec : EqDecision block.
Proof. solve_decision. Defined.

Definition block_of (a : allocator) (n : Node) : block :=
  mkBlock (type n) (arena n - pool a) (size n).

Fixpoint nodes_at (idxs : list Z) (l : list Node) : outcome (list Node) :=
  match idxs with
  | [] => Done []
  | i :: idxs' => n <~ ledger_at i l ;; ns <~ nodes_at idxs' l ;; Done (n :: ns)
  end.

Definition blocks (a : allocator) : outcome (list block) :=
  idxs <~ live_list a ;; ns <~ nodes_at idxs (ledger a) ;; Done (map (block_of a) ns).

(** ** Call sequences *)

Inductive call : Set :=
| Init (malloc_result size : Z) (algorithm : ALGORITHM)
| Alloc (size : Z)
| Free (ptr : Z)
| Destroy.

Definition perform (c : call) : M Z :=
  match c with
  | Init m sz alg => mavalloc_init m sz alg
  | Alloc sz => mavalloc_alloc sz
  | Free p => mavalloc_free p ;; ret 0
  | Destroy => mavalloc_destroy ;; ret 0
  end.

Fixpoint run (cs : list call) : M (list Z) :=
  match cs with
  | [] => ret []
  | c :: cs' => r <- perform c ;; rs <- run cs' ;; ret (r :: rs)
  end.

(** The globals when the program starts: zero-initialised storage, except
    [ledger_top], which has the initialiser [-1]. *)
Definition zero_node : Node := mkNode 0 P NULL 0 0.
Definition boot : allocator :=
  mkAllocator NULL 0 FIRST_FIT (-1) (replicate (Z.to_nat MAX_ALLOCS) zero_node) 0 0 [].

Definition after (cs : list call) : outcome allocator :=
  r <~ run cs boot ;; Done (snd r).
Definition results (cs : list call) : outcome (list Z) :=
  r <~ run cs boot ;; Done (fst r).

(** * Specification-level definitions *)

(** A concrete allocator state, for examples: the globals after a call
    sequence that ran to completion. *)
Definition state_after (cs : list call) : allocator :=
  match after cs with
  | Done a => a
  | _ => boot
  end.

(** ** The invariants, on the caller's view *)

(** Two blocks share a byte. *)
Definition overlap (b b' : block) : Prop :=
  exists x, offset b <= x < offset b + extent b /\ offset b' <= x < offset b' + extent b'.

(** No two blocks of the list share a byte. *)
Definition pairwise_disjoint (bs : list block) : Prop :=
  forall (i j : nat) (b b' : block),
    i <> j -> bs !! i = Some b -> bs !! j = Some b' -> ~ overlap b b'.

(** The union of the extents is [[0, cap)]. *)
Definition covers (cap : Z) (bs : list block) : Prop :=
  forall x, 0 <= x < cap <-> exists b, b ∈ bs /\ offset b <= x < offset b + extent b.

(** Invariant 1: the live blocks, in list order, partition the pool. *)
Definition partition_invariant (a : allocator) : Prop :=
  exists bs, blocks a = Done bs /\ pairwise_disjoint bs /\ covers (pool_size a) bs.

(** Invariant 2: no two neighbours of the live list are both Holes. *)
Definition no_adjacent_holes (bs : list block) : Prop :=
  forall (i : nat) (b b' : block),
    bs !! i = Some b -> bs !! S i = Some b' -> ~ (kind b = H /\ kind b' = H).

(** Invariant 2 on the live list of a state. *)
Definition coalesced_invariant (a : allocator) : Prop :=
  exists bs, blocks a = Done bs /\ no_adjacent_holes bs.

(** Blocks laid end to end from offset [from] to offset [to]. *)
Fixpoint laid (from : Z) (bs : list block) (to : Z) : Prop :=
  match bs with
  | [] => from = to
  | b :: bs' => offset b = from /\ 0 <= extent b /\ laid (from + extent b) bs' to
  end.

(** ** The ledger as a doubly linked list

    The predicates below describe a ledger whose live records form one
    list in address order.  They are what first-, best- and worst-fit
    maintain, in every run that stays inside the table. *)

(** The ledger is an array of [MAX_ALLOCS] records. *)
Definition table (l : list Node) : Prop := length l = Z.to_nat MAX_ALLOCS.

(** Subscripts of the table. *)
Definition valid (i : Z) : Prop := 0 <= i < MAX_ALLOCS.

(** Total reading of the table. *)
Definition node_at (l : list Node) (i : Z) : Node :=
  match ledger_at i l with
  | Done n => n
  | _ => zero_node
  end.

(** First and last element of a list of records, with a default. *)
Definition head_or (d : Z) (xs : list Z) : Z :=
  match xs with
  | [] => d
  | x :: _ => x
  end.

Fixpoint last_or (d : Z) (xs : list Z) : Z :=
  match xs with
  | [] => d
  | x :: xs' => last_or x xs'
  end.

(** [chain l prv xs nxt]: the records [xs] are linked in this order, the
    first one after [prv], the last one before [nxt]. *)
Fixpoint chain (l : list Node) (prv : Z) (xs : list Z) (nxt : Z) : Prop :=
  match xs with
  | [] => True
  | i :: rest =>
      valid i /\ previous (node_at l i) = prv /\
      next (node_at l i) = head_or nxt rest /\ chain l i rest nxt
  end.

(** [reaches l hd j]: following [previous] from record [j] arrives at
    [hd]. *)
Inductive reaches (l : list Node) (hd : Z) : Z -> Prop :=
| reaches_here : reaches l hd hd
| reaches_back (i : Z) :
    valid i -> previous (node_at l i) <> -1 ->
    reaches l hd (previous (node_at l i)) -> reaches l hd i.

(** The records a walk back from [j] visits, [j] first, the head last. *)
Fixpoint back_path (l : list Node) (j : Z) (path : list Z) : Prop :=
  match path with
  | [] => False
  | i :: rest =>
      i = j /\ valid j /\
      if previous (node_at l j) =? -1 then rest = []
      else back_path l (previous (node_at l j)) rest
  end.

(** [tiles l from xs to]: the extents of the records [xs], in this order,
    are laid end to end from address [from] to address [to]. *)
Fixpoint tiles (l : list Node) (from : Z) (xs : list Z) (to : Z) : Prop :=
  match xs with
  | [] => from = to
  | i :: rest =>
      arena (node_at l i) = from /\ 0 <= size (node_at l i) /\
      tiles l (from + size (node_at l i)) rest to
  end.

(** Record [i] is typed [H]. *)
Definition hole (l : list Node) (i : Z) : Prop := type (node_at l i) = H.

(** [separated l prv xs]: no two neighbours among [prv :: xs] are both
    Holes.  The sentinel is no record, hence no Hole. *)
Fixpoint separated (l : list Node) (prv : Z) (xs : list Z) : Prop :=
  match xs with
  | [] => True
  | i :: rest => ~ (hole l prv /\ hole l i) /\ separated l i rest
  end.

(** Record [j] and the record before it are not both Holes. *)
Definition unpaired (l : list Node) (j : Z) : Prop :=
  ~ (hole l (previous (node_at l j)) /\ hole l j).

(** Everything but the absence of adjacent Holes: [live] is the list of
    the live records in address order. *)
Record well_linked (a : allocator) (live : list Z) : Prop := mk_well_linked {
  wl_table : table (ledger a);
  wl_live : live <> [];
  wl_nodup : NoDup live;
  wl_chain : chain (ledger a) (-1) live (-1);
  wl_top : ledger_top a < MAX_ALLOCS;
  wl_below : forall j, j ∈ live -> j <= ledger_top a;
  wl_reach : forall j, valid j ->
               reaches (ledger a) (head_or 0 live) j \/
               (next (node_at (ledger a) j) = -1 /\ j ∉ live);
  wl_zero : reaches (ledger a) (head_or 0 live) 0;
  wl_cache : valid (traverse_back_ptr a);
  wl_pool : 0 < pool a /\ pool a + pool_size a <= 2 ^ 64;
  wl_tiles : tiles (ledger a) (pool a) live (pool a + pool_size a)
}.

(** Well linked, and no two neighbours are both Holes. *)
Definition well_formed (a : allocator) (live : list Z) : Prop :=
  well_linked a live /\ separated (ledger a) (-1) live.

(** [a'] differs from [a] at most in the two search caches. *)
Definition same_ledger (a a' : allocator) : Prop :=
  ledger a' = ledger a /\ ledger_top a' = ledger_top a /\
  pool a' = pool a /\ pool_size a' = pool_size a /\
  alloc_algorithm a' = alloc_algorithm a.

(** ** Reachable states *)

(** [c] leaves the pool, its size and the configured strategy alone. *)
Definition keeps_config {A : Type} (c : M A) : Prop :=
  forall (a a' : allocator) (r : A), c a = Done (r, a') ->
    pool a' = pool a /\ pool_size a' = pool_size a /\
    alloc_algorithm a' = alloc_algorithm a.

(** What [mavalloc_init] needs of the storage it starts from: the ledger
    is the table, the cached head index is within it.  It holds when the
    program starts and in every well-formed state. *)
Definition storage_ok (a : allocator) : Prop :=
  table (ledger a) /\ valid (traverse_back_ptr a).

(** States reached by successful calls, from any storage, under first-,
    best- or worst-fit.  [m] is the address [malloc] returned for the
    pool: not null, and the pool fits below 2^64. *)
Inductive reachable : allocator -> Prop :=
| reach_init (a0 a : allocator) (m size0 : Z) (alg : ALGORITHM) :
    storage_ok a0 ->
    0 < m -> m + ALIGN4 (to_size_t size0) <= 2 ^ 64 ->
    alg <> NEXT_FIT ->
    mavalloc_init m size0 alg a0 = Done (0, a) ->
    reachable a
| reach_alloc (a a' : allocator) (size0 r : Z) :
    reachable a -> mavalloc_alloc size0 a = Done (r, a') -> reachable a'
| reach_free (a a' : allocator) (ptr : Z) :
    reachable a -> mavalloc_free ptr a = Done (tt, a') -> reachable a'.

(** ** What best-fit and worst-fit are to return *)

(** Record [j] is a Hole that can hold [sz] bytes. *)
Definition qualifies (l : list Node) (sz : Z) (j : Z) : Prop :=
  type (node_at l j) = H /\ sz <= size (node_at l j).

(** [r] is the first record of [xs] that is best among the qualifying ones,
    where [better s s'] says that size [s] beats size [s'] strictly. *)
Definition first_best (better : Z -> Z -> Prop) (l : list Node) (sz : Z)
    (xs : list Z) (r : Z) : Prop :=
  qualifies l sz r /\
  exists pre post, xs = pre ++ r :: post /\
    (forall x, x ∈ pre -> qualifies l sz x -> better (size (node_at l r)) (size (node_at l x))) /\
    (forall x, x ∈ post -> qualifies l sz x -> ~ better (size (node_at l x)) (size (node_at l r))).

(** State of the scan of [best_fit] after the records [seen]. *)
Definition best_so_far (l : list Node) (sz : Z) (seen : list Z) (idx0 sz0 : Z) : Prop :=
  (idx0 = -1 /\ sz0 = INT_MAX /\ forall x, x ∈ seen -> ~ qualifies l sz x) \/
  (sz0 = size (node_at l idx0) /\ first_best Z.lt l sz seen idx0).

(** State of the scan of [worst_fit] after the records [seen]. *)
Definition worst_so_far (l : list Node) (sz : Z) (seen : list Z) (idx0 sz0 : Z) : Prop :=
  (idx0 = -1 /\ sz0 = -1 /\ forall x, x ∈ seen -> ~ qualifies l sz x) \/
  (sz0 = size (node_at l idx0) /\ first_best Z.gt l sz seen idx0).

(** ** What [first_fit] is to return *)

(** [r] is the first record of [xs] that qualifies. *)
Definition first_hole (l : list Node) (sz : Z) (xs : list Z) (r : Z) : Prop :=
  qualifies l sz r /\
  exists pre post, xs = pre ++ r :: post /\ forall x, x ∈ pre -> ~ qualifies l sz x.

(** ** After [mavalloc_destroy] *)

(** A ledger as [mavalloc_destroy] leaves it: every record is empty and
    unlinked (its [type] is not reset), and the two remembered indices are
    subscripts or, for [last_ptr], the sentinel. *)
Definition destroyed (a : allocator) : Prop :=
  table (ledger a) /\
  (forall j, valid j ->
     size (node_at (ledger a) j) = 0 /\ arena (node_at (ledger a) j) = NULL /\
     next (node_at (ledger a) j) = -1 /\ previous (node_at (ledger a) j) = -1) /\
  valid (traverse_back_ptr a) /\
  (next_fit_last_ptr a = -1 \/ valid (next_fit_last_ptr a)).

(** ** The blocks after [mavalloc_free] *)

(** The block that record [j] describes. *)
Definition block_at (a : allocator) (j : Z) : block := block_of a (node_at (ledger a) j).

(** [b], a Hole, followed by the blocks [rest]: [b] absorbs the first block
    of [rest] when that one is a Hole.  [None] stands for the case in which
    the merged Hole would be the last block of the list. *)
Definition join (b : block) (rest : list block) : option (list block) :=
  match rest with
  | [] => Some [b]
  | y :: rest' =>
      if is_H (kind y) then
        match rest' with
        | [] => None
        | _ :: _ => Some (mkBlock H (offset b) (extent b + extent y) :: rest')
        end
      else Some (b :: rest)
  end.

(** Free the first block that starts at offset [o]: it becomes a Hole, is
    absorbed by the block before it when that one is a Hole, and the result
    absorbs the block after it when that one is a Hole.  A list without
    such a block is left as it is. *)
Fixpoint release (o : Z) (bs : list block) : option (list block) :=
  match bs with
  | [] => Some []
  | b :: rest =>
      if offset b =? o then join (mkBlock H (offset b) (extent b)) rest
      else
        match rest with
        | [] => Some [b]
        | b' :: rest' =>
            if (offset b' =? o) && is_H (kind b) then
              match rest' with
              | [] => None
              | _ :: _ => join (mkBlock H (offset b) (extent b + extent b')) rest'
              end
            else option_map (cons b) (release o rest)
        end
  end.

(** ** What [mavalloc_alloc] is to select *)

(** What strategy [alg] is to select among the records [xs]. *)
Definition selected (alg : ALGORITHM) (l : list Node) (sz : Z) (xs : list Z) (r : Z) : Prop :=
  match alg with
  | FIRST_FIT => first_hole l sz xs r
  | BEST_FIT => first_best Z.lt l sz xs r
  | WORST_FIT => first_best Z.gt l sz xs r
  | NEXT_FIT => False
  end.

(** Block [b] is a Hole that can hold [sz] bytes. *)
Definition fits (sz : Z) (b : block) : Prop := kind b = H /\ sz <= extent b.

(** ** Process blocks laid back to back *)

(** [n] Process blocks of [sz] bytes each, the first at offset [from]. *)
Fixpoint packed (from sz : Z) (n : nat) : list block :=
  match n with
  | O => []
  | S n' => mkBlock P from sz :: packed (from + sz) sz n'
  end.

(** ** Call sequences that expose defects *)

(** 32-byte pool at address 4096.  Three allocations fill it; the middle
    16-byte block is freed, half of it is allocated again (next-fit now
    remembers the remaining Hole, record 2) and freed again, which merges
    record 2 away. *)
Definition stale_hole_calls : list call :=
  [Init 4096 32 NEXT_FIT; Alloc 8; Alloc 16; Alloc 8; Free 4104; Alloc 8; Free 4104].

(** 32-byte pool cut into four 8-byte blocks.  The second is freed and
    allocated again (next-fit remembers record 2), then the first, third
    and second are freed: the three merge into record 1 and records 2 and 3
    leave the list, record 3 still typed [H]. *)
Definition stale_chain_calls : list call :=
  [Init 4096 32 NEXT_FIT; Alloc 8; Alloc 8; Alloc 8; Alloc 8;
   Free 4104; Alloc 8; Free 4096; Free 4112; Free 4104].

(** A 48-byte pool under next-fit.  Every [Free] passes a handle that an
    earlier [Alloc] returned and that was not freed since. *)
Definition lost_head_calls : list call :=
  [Init 4096 48 NEXT_FIT; Alloc 8; Alloc 8; Alloc 16; Alloc 8; Free 4112;
   Alloc 16; Free 4104; Free 4112; Alloc 8; Alloc 8; Free 4096; Free 4112;
   Free 4128; Alloc 16; Free 4120].

(** 32-byte pool cut into four 8-byte blocks on records 1, 2, 3 and 0,
    [ledger_top] 3.  The third block is freed and allocated again
    (next-fit remembers its record, 3), then the second and the third are
    freed: record 3 is merged into record 2 and, being the top record, is
    given back, [ledger_top] 2. *)
Definition stale_top_calls : list call :=
  [Init 4096 32 NEXT_FIT; Alloc 8; Alloc 8; Alloc 8; Alloc 8;
   Free 4112; Alloc 8; Free 4104; Free 4112].

(** A pool of 2^31 + 24 bytes under worst-fit, left with a Hole of 2^31
    bytes (record 1) and a Hole of 8 bytes (record 3). *)
Definition two_holes_calls : list call :=
  [Init 4096 (2 ^ 31 + 24) WORST_FIT; Alloc (2 ^ 31); Alloc 8; Alloc 8; Alloc 8;
   Free 4096; Free (4096 + 2 ^ 31 + 8)].

(** * Properties *)

(** ** Running the monad *)

Lemma obind_Done {A B : Type} (c : outcome A) (k : A -> outcome B) (b : B) :
  obind c k = Done b -> exists x, c = Done x /\ k x = Done b.
Proof. destruct c as [x| | |]; simpl; intros E; try discriminate. eauto. Qed.

Lemma bind_Done {A B : Type} (c : M A) (k : A -> M B) (a a' : allocator) (b : B) :
  bind c k a = Done (b, a') ->
  exists x a1, c a = Done (x, a1) /\ k x a1 = Done (b, a').
Proof.
  unfold bind. intros E. apply obind_Done in E as ([x a1] & E1 & E2). eauto.
Qed.

Lemma lift_Done {A : Type} (c : list Node -> outcome A) (a a' : allocator) (x : A) :
  lift c a = Done (x, a') -> c (ledger a) = Done x /\ a' = a.
Proof.
  unfold lift. intros E. apply obind_Done in E as (y & E1 & E2).
  injection E2 as -> ->. auto.
Qed.

Lemma bind_run {A B : Type} (c : M A) (k : A -> M B) (a a1 : allocator) (x : A) :
  c a = Done (x, a1) -> bind c k a = k x a1.
Proof. unfold bind. intros ->. reflexivity. Qed.

Lemma rd_run (i : Z) (a : allocator) (n : Node) :
  ledger_at i (ledger a) = Done n -> rd i a = Done (n, a).
Proof. unfold rd, lift. intros ->. reflexivity. Qed.

Lemma wr_run (i : Z) (f : Node -> Node) (a : allocator) (n : Node) :
  ledger_at i (ledger a) = Done n ->
  wr i f a = Done (tt, with_ledger (<[Z.to_nat i := f n]> (ledger a)) a).
Proof. unfold wr, ledger_set. intros ->. reflexivity. Qed.

(** ** What the searches leave alone

    The strategies and [traverse_back] read the ledger and write only the
    two [static] variables. *)

Lemma same_ledger_refl (a : allocator) : same_ledger a a.
Proof. repeat split. Qed.

Lemma traverse_back_with_Done (k : nat) (a a' : allocator) (r : Z) :
  traverse_back_with k a = Done (r, a') ->
  a' = with_traverse_back_ptr r a /\
  exists n, ledger_at (traverse_back_ptr a) (ledger a) = Done n /\
    traverse_back_loop k (if next n =? -1 then 0 else traverse_back_ptr a) (ledger a) = Done r.
Proof.
  unfold traverse_back_with. intros E.
  apply bind_Done in E as (ptr & a1 & E1 & E). injection E1 as <- <-.
  apply bind_Done in E as (n & a2 & E2 & E). apply lift_Done in E2 as [E2 ->].
  apply bind_Done in E as (r' & a3 & E3 & E). apply lift_Done in E3 as [E3 ->].
  injection E as <- <-. eauto.
Qed.

Lemma traverse_back_with_same (k : nat) (a a' : allocator) (r : Z) :
  traverse_back_with k a = Done (r, a') -> same_ledger a a'.
Proof.
  intros E. apply traverse_back_with_Done in E as [-> _]. repeat split.
Qed.

Lemma first_fit_with_same (k : nat) (sz : Z) (a a' : allocator) (r : Z) :
  first_fit_with k sz a = Done (r, a') -> same_ledger a a'.
Proof.
  unfold first_fit_with. intros E.
  apply bind_Done in E as (ptr & a1 & E1 & E).
  apply lift_Done in E as [_ ->]. eapply traverse_back_with_same, E1.
Qed.

Lemma next_fit_with_same (k : nat) (sz : Z) (a a' : allocator) (r : Z) :
  next_fit_with k sz a = Done (r, a') -> same_ledger a a'.
Proof.
  unfold next_fit_with. intros E.
  apply bind_Done in E as (lp & a1 & E1 & E). injection E1 as <- <-.
  apply bind_Done in E as (ptr & a2 & E2 & E). apply lift_Done in E2 as [_ ->].
  apply bind_Done in E as (ptr' & a3 & E3 & E). injection E as <- <-.
  assert (same_ledger a a3) as (? & ? & ? & ? & ?).
  { destruct (ptr =? -1).
    - eapply first_fit_with_same, E3.
    - injection E3 as <- <-. apply same_ledger_refl. }
  repeat split; assumption.
Qed.

Lemma worst_fit_with_same (k : nat) (sz : Z) (a a' : allocator) (r : Z) :
  worst_fit_with k sz a = Done (r, a') -> same_ledger a a'.
Proof.
  unfold worst_fit_with. intros E.
  apply bind_Done in E as (ptr & a1 & E1 & E).
  apply lift_Done in E as [_ ->]. eapply traverse_back_with_same, E1.
Qed.

Lemma best_fit_with_same (k : nat) (sz : Z) (a a' : allocator) (r : Z) :
  best_fit_with k sz a = Done (r, a') -> same_ledger a a'.
Proof.
  unfold best_fit_with. intros E.
  apply bind_Done in E as (ptr & a1 & E1 & E).
  apply lift_Done in E as [_ ->]. eapply traverse_back_with_same, E1.
Qed.

Lemma select_hole_same (sz : Z) (a a' : allocator) (r : Z) :
  select_hole sz a = Done (r, a') -> same_ledger a a'.
Proof.
  unfold select_hole. intros E.
  apply bind_Done in E as (alg & a1 & E1 & E). injection E1 as <- <-.
  destruct (alloc_algorithm a).
  - eapply first_fit_with_same, E.
  - eapply next_fit_with_same, E.
  - eapply best_fit_with_same, E.
  - eapply worst_fit_with_same, E.
Qed.

(** ** Freeing what is not tracked *)

Lemma nodes_at_cons (i : Z) (idxs : list Z) (l : list Node) (ns : list Node) :
  nodes_at (i :: idxs) l = Done ns ->
  exists n ns', ledger_at i l = Done n /\ nodes_at idxs l = Done ns' /\ ns = n :: ns'.
Proof.
  simpl. intros E.
  apply obind_Done in E as (n & E1 & E).
  apply obind_Done in E as (ns' & E2 & E).
  injection E as <-. eauto.
Qed.

(** A search for an address no live record starts at runs off the end of
    the list. *)
Lemma free_search_untracked (ptr : Z) (l : list Node) (k : nat) :
  forall (i : Z) (idxs : list Z) (ns : list Node),
    live_from k i l = Done idxs ->
    nodes_at idxs l = Done ns ->
    Forall (fun n => arena n <> ptr) ns ->
    free_search k ptr i l = Done (-1).
Proof.
  induction k as [|k IH]; intros i idxs ns Hlive Hns Hall; [discriminate|].
  simpl in Hlive |- *.
  destruct (i =? -1) eqn:Ei.
  - apply Z.eqb_eq in Ei. now subst i.
  - apply obind_Done in Hlive as (n & En & Hlive).
    apply obind_Done in Hlive as (rest & Erest & Hlive).
    injection Hlive as <-.
    apply nodes_at_cons in Hns as (n' & ns' & En' & Hns' & ->).
    rewrite En in En' |- *. injection En' as <-. simpl.
    inversion Hall as [|? ? Hn Hall']; subst.
    destruct (arena n =? ptr) eqn:Ea.
    + apply Z.eqb_eq in Ea. contradiction.
    + eapply IH; eauto.
Qed.

(** ** Machine arithmetic *)

Lemma to_size_t_small (z : Z) : 0 <= z < 2 ^ 64 -> to_size_t z = z.
Proof. intros Hz. unfold to_size_t. apply Z.mod_small, Hz. Qed.

Lemma ALIGN4_range (s : Z) : 0 <= ALIGN4 s < 2 ^ 64.
Proof. unfold ALIGN4, to_size_t. apply Z.mod_pos_bound. lia. Qed.

(** ** Reading the table after a write *)

Lemma ledger_at_Done (i : Z) (l : list Node) (n : Node) :
  ledger_at i l = Done n <-> (0 <= i < MAX_ALLOCS /\ l !! Z.to_nat i = Some n).
Proof.
  unfold ledger_at, valid_subscript. split.
  - destruct (0 <=? i) eqn:E1, (i <? MAX_ALLOCS) eqn:E2; simpl; try discriminate.
    destruct (l !! Z.to_nat i); [|discriminate]. intros [= ->]. split; [lia|reflexivity].
  - intros [[H1 H2] ->].
    apply Z.leb_le in H1. apply Z.ltb_lt in H2. now rewrite H1, H2.
Qed.

Lemma ledger_at_table (i : Z) (l : list Node) :
  table l -> 0 <= i < MAX_ALLOCS -> exists n, ledger_at i l = Done n.
Proof.
  intros Hl Hi. destruct (l !! Z.to_nat i) as [n|] eqn:E.
  - exists n. apply ledger_at_Done. auto.
  - apply lookup_ge_None in E. unfold table in Hl. lia.
Qed.

Lemma ledger_at_upd_same (i : Z) (v n : Node) (l : list Node) :
  ledger_at i l = Done n -> ledger_at i (<[Z.to_nat i := v]> l) = Done v.
Proof.
  intros Hi. apply ledger_at_Done in Hi as [Hi Hn].
  apply ledger_at_Done. split; [assumption|].
  apply list_lookup_insert_eq. eapply lookup_lt_Some, Hn.
Qed.

Lemma ledger_at_upd (i j : Z) (v : Node) (l : list Node) :
  table l -> 0 <= i < MAX_ALLOCS ->
  ledger_at j (<[Z.to_nat i := v]> l) = if decide (j = i) then Done v else ledger_at j l.
Proof.
  intros Hl Hi. destruct (ledger_at_table i l Hl Hi) as (n & Hn).
  destruct (decide (j = i)) as [->|Hne].
  - eapply ledger_at_upd_same, Hn.
  - unfold ledger_at. destruct (valid_subscript j) eqn:Ej; [|reflexivity].
    rewrite list_lookup_insert_ne; [reflexivity|].
    unfold valid_subscript in Ej. apply andb_true_iff in Ej as [Ej _].
    apply Z.leb_le in Ej. lia.
Qed.

Lemma table_upd (i : Z) (v : Node) (l : list Node) :
  table l -> table (<[Z.to_nat i := v]> l).
Proof. unfold table. now rewrite length_insert. Qed.

Lemma bind_gets {A B : Type} (f : allocator -> A) (k : A -> M B) (a : allocator) :
  bind (gets f) k a = k (f a) a.
Proof. reflexivity. Qed.

Lemma bind_modify {B : Type} (f : allocator -> allocator) (k : unit -> M B) (a : allocator) :
  bind (modify f) k a = k tt (f a).
Proof. reflexivity. Qed.

Lemma bind_ret {A B : Type} (x : A) (k : A -> M B) (a : allocator) :
  bind (ret x) k a = k x a.
Proof. reflexivity. Qed.

Lemma bind_rd {B : Type} (i : Z) (k : Node -> M B) (a : allocator) (n : Node) :
  ledger_at i (ledger a) = Done n -> bind (rd i) k a = k n a.
Proof. intros E. apply bind_run, rd_run, E. Qed.

Lemma bind_wr {B : Type} (i : Z) (f : Node -> Node) (k : unit -> M B)
    (a : allocator) (n : Node) :
  ledger_at i (ledger a) = Done n ->
  bind (wr i f) k a = k tt (with_ledger (<[Z.to_nat i := f n]> (ledger a)) a).
Proof. intros E. apply bind_run, wr_run, E. Qed.

(** Projections of updated records and states. *)
Ltac fields :=
  cbn [ledger ledger_top pool pool_size alloc_algorithm traverse_back_ptr
       next_fit_last_ptr heap with_ledger with_ledger_top with_pool with_pool_size
       with_alloc_algorithm with_traverse_back_ptr with_next_fit_last_ptr with_heap
       size type arena next previous set_size set_type set_arena set_next
       set_previous fst snd] in *.

(** Resolve a read of a table that was written at known subscripts. *)
Ltac read_upd :=
  repeat (rewrite ledger_at_upd by first [lia | repeat apply table_upd; assumption];
          first [rewrite decide_True by lia | rewrite decide_False by lia]).

(** ** What a strategy returns *)

Lemma first_fit_loop_qualifies (sz : Z) (l : list Node) (k : nat) :
  forall (ptr r : Z),
    first_fit_loop k sz ptr l = Done r -> r <> -1 ->
    exists n, ledger_at r l = Done n /\ type n = H /\ sz <= size n.
Proof.
  induction k as [|k IH]; intros ptr r; [discriminate|]. simpl.
  destruct (ptr =? -1) eqn:Ep.
  - intros [= <-] Hr. apply Z.eqb_eq in Ep. contradiction.
  - intros E Hr. apply obind_Done in E as (n & En & E).
    destruct (size n <? sz) eqn:Es; simpl in E; [eapply IH; eauto|].
    destruct (type n) eqn:Et; simpl in E; [eapply IH; eauto|].
    injection E as <-. exists n. apply Z.ltb_ge in Es. auto.
Qed.

Lemma worst_fit_loop_qualifies (sz : Z) (l : list Node) (k : nat) :
  forall (ptr idx0 sz0 r : Z),
    worst_fit_loop k sz ptr idx0 sz0 l = Done r -> r <> idx0 ->
    exists n, ledger_at r l = Done n /\ type n = H /\ sz <= size n.
Proof.
  induction k as [|k IH]; intros ptr idx0 sz0 r; [discriminate|]. simpl.
  destruct (ptr =? -1) eqn:Ep.
  - intros [= <-] Hr. contradiction.
  - intros E Hr. apply obind_Done in E as (n & En & E).
    destruct (is_H (type n) && (sz <=? size n) && (sz0 <? to_long (size n))) eqn:Ec.
    + destruct (decide (r = ptr)) as [->|Hne]; [|eapply IH; eauto].
      apply andb_true_iff in Ec as [Ec _]. apply andb_true_iff in Ec as [Et Es].
      exists n. apply Z.leb_le in Es. destruct (type n); [discriminate|auto].
    + eapply IH; eauto.
Qed.

Lemma best_fit_loop_qualifies (sz : Z) (l : list Node) (k : nat) :
  forall (ptr idx0 sz0 r : Z),
    best_fit_loop k sz ptr idx0 sz0 l = Done r -> r <> idx0 ->
    exists n, ledger_at r l = Done n /\ type n = H /\ sz <= size n.
Proof.
  induction k as [|k IH]; intros ptr idx0 sz0 r; [discriminate|]. simpl.
  destruct (ptr =? -1) eqn:Ep.
  - intros [= <-] Hr. contradiction.
  - intros E Hr. apply obind_Done in E as (n & En & E).
    destruct (is_H (type n) && (sz <=? size n) && (to_long (size n) <? sz0)) eqn:Ec.
    + destruct (decide (r = ptr)) as [->|Hne]; [|eapply IH; eauto].
      apply andb_true_iff in Ec as [Ec _]. apply andb_true_iff in Ec as [Et Es].
      exists n. apply Z.leb_le in Es. destruct (type n); [discriminate|auto].
    + eapply IH; eauto.
Qed.

(** Whatever the strategy, an index other than [-1] is that of a Hole large
    enough for the request. *)
Lemma select_hole_qualifies (sz : Z) (a a1 : allocator) (idx : Z) :
  select_hole sz a = Done (idx, a1) -> idx <> -1 ->
  exists h, ledger_at idx (ledger a1) = Done h /\ type h = H /\ sz <= size h.
Proof.
  unfold select_hole. intros E Hidx.
  apply bind_Done in E as (alg & a0 & E0 & E). injection E0 as <- <-.
  destruct (alloc_algorithm a).
  - unfold first_fit, first_fit_with in E.
    apply bind_Done in E as (ptr & a2 & _ & E). apply lift_Done in E as [E ->].
    eapply first_fit_loop_qualifies; eauto.
  - unfold next_fit, next_fit_with in E.
    apply bind_Done in E as (lp & a2 & E2 & E). injection E2 as <- <-.
    apply bind_Done in E as (ptr & a3 & E3 & E). apply lift_Done in E3 as [E3 ->].
    apply bind_Done in E as (ptr' & a4 & E4 & E). injection E as <- <-. fields.
    destruct (ptr =? -1) eqn:Ep.
    + unfold first_fit_with in E4.
      apply bind_Done in E4 as (p0 & a5 & _ & E4). apply lift_Done in E4 as [E4 ->].
      eapply first_fit_loop_qualifies; eauto.
    + injection E4 as <- <-. eapply first_fit_loop_qualifies; eauto.
  - unfold best_fit, best_fit_with in E.
    apply bind_Done in E as (ptr & a2 & _ & E). apply lift_Done in E as [E ->].
    eapply best_fit_loop_qualifies; eauto.
  - unfold worst_fit, worst_fit_with in E.
    apply bind_Done in E as (ptr & a2 & _ & E). apply lift_Done in E as [E ->].
    eapply worst_fit_loop_qualifies; eauto.
Qed.

(** ** The head lookup on a ledger with a cycle of [previous] links *)

(** A set of records closed under [previous] and free of the sentinel is
    never left by the loop of [traverse_back], whatever the fuel. *)
Lemma traverse_back_loop_trapped (l : list Node) (C : Z -> Prop) :
  (forall i, C i -> exists n, ledger_at i l = Done n /\ previous n <> -1 /\ C (previous n)) ->
  forall (k : nat) (i : Z), C i -> traverse_back_loop k i l = Diverges.
Proof.
  intros Hclosed k. induction k as [|k IH]; intros i Hi; [reflexivity|].
  destruct (Hclosed i Hi) as (n & En & Hp & Hc).
  cbn [traverse_back_loop]. rewrite En. cbn [obind].
  apply Z.eqb_neq in Hp. rewrite Hp. apply IH, Hc.
Qed.

(** ** Initialisation *)

(** The parameter is a [size_t]: the test [size < 0] never holds. *)
Lemma init_guard_is_dead (size0 : Z) : (to_size_t size0 <? 0) = false.
Proof. apply Z.ltb_ge. unfold to_size_t. apply Z.mod_pos_bound. lia. Qed.

(** [mavalloc_init] fails exactly when the reservation does. *)
Lemma init_result (m size0 : Z) (alg : ALGORITHM) (a a' : allocator) (r : Z) :
  mavalloc_init m size0 alg a = Done (r, a') ->
  (m = NULL /\ r = -1) \/ (m <> NULL /\ r = 0 /\ pool a' = m /\ pool_size a' = ALIGN4 (to_size_t size0)).
Proof.
  unfold mavalloc_init. rewrite bind_modify, init_guard_is_dead.
  rewrite !bind_modify, bind_gets. unfold libc_malloc. fields.
  destruct (m =? NULL) eqn:Em.
  - intros [= <- <-]. apply Z.eqb_eq in Em. auto.
  - intros E. apply Z.eqb_neq in Em. right. split; [assumption|].
    rewrite bind_modify, bind_gets in E. fields.
    repeat (apply bind_Done in E as ([] & ? & Ew & E);
            unfold wr in Ew; apply obind_Done in Ew as (? & _ & [= <-]); fields).
    unfold modify in E. apply bind_Done in E as ([] & ? & [= <-] & [= <- <-]).
    auto.
Qed.

(** ** The ledger as a doubly linked list

    The rest of the development shows what the three strategies that search
    from the head of the list keep true.  A run is followed as long as it
    returns [Done]: it then never left the table. *)

Lemma ledger_at_node_at (l : list Node) (i : Z) :
  table l -> valid i -> ledger_at i l = Done (node_at l i).
Proof.
  intros Hl Hi. destruct (ledger_at_table i l Hl Hi) as (n & E).
  unfold node_at. now rewrite E.
Qed.

Lemma ledger_at_valid (l : list Node) (i : Z) (n : Node) :
  ledger_at i l = Done n -> valid i /\ node_at l i = n.
Proof.
  intros E. split.
  - apply ledger_at_Done in E. apply E.
  - unfold node_at. now rewrite E.
Qed.

Lemma node_at_upd (i j : Z) (v : Node) (l : list Node) :
  table l -> valid i ->
  node_at (<[Z.to_nat i := v]> l) j = if decide (j = i) then v else node_at l j.
Proof.
  intros Hl Hi. unfold node_at. rewrite (ledger_at_upd i j v l Hl Hi).
  now destruct (decide (j = i)).
Qed.

(** ** Segments *)

Lemma last_or_app (d : Z) (xs ys : list Z) :
  last_or d (xs ++ ys) = last_or (last_or d xs) ys.
Proof. revert d. induction xs as [|x xs IH]; intros d; simpl; auto. Qed.

Lemma head_or_app (d : Z) (xs ys : list Z) :
  head_or d (xs ++ ys) = head_or (head_or d ys) xs.
Proof. destruct xs; reflexivity. Qed.

Lemma chain_app (l : list Node) (xs ys : list Z) (prv nxt : Z) :
  chain l prv (xs ++ ys) nxt <->
  chain l prv xs (head_or nxt ys) /\ chain l (last_or prv xs) ys nxt.
Proof.
  revert prv. induction xs as [|x xs IH]; intros prv; simpl.
  - tauto.
  - rewrite IH, head_or_app. tauto.
Qed.

Lemma chain_valid (l : list Node) (xs : list Z) (prv nxt : Z) :
  chain l prv xs nxt -> forall j, j ∈ xs -> valid j.
Proof.
  revert prv. induction xs as [|x xs IH]; intros prv Hc j Hj.
  - inversion Hj.
  - destruct Hc as (Hv & _ & _ & Hc). apply elem_of_cons in Hj as [->|Hj]; eauto.
Qed.

(** Only the links of the records of a segment matter. *)
Lemma chain_ext (l l' : list Node) (xs : list Z) (prv nxt : Z) :
  (forall j, j ∈ xs ->
     previous (node_at l' j) = previous (node_at l j) /\
     next (node_at l' j) = next (node_at l j)) ->
  chain l prv xs nxt -> chain l' prv xs nxt.
Proof.
  revert prv. induction xs as [|x xs IH]; intros prv Hagree; simpl; [auto|].
  intros (Hv & Hp & Hn & Hc).
  destruct (Hagree x) as [Ep En]; [left|].
  rewrite Ep, En. do 3 (split; [assumption|]).
  apply IH; [|assumption]. intros j Hj. apply Hagree. now right.
Qed.

Lemma last_or_cons_elem (x : Z) (xs : list Z) : last_or x xs ∈ x :: xs.
Proof.
  revert x. induction xs as [|y ys IH]; intros x; simpl; [left|right; apply IH].
Qed.

(** Redirecting the [next] link of the last record of a segment. *)
Lemma chain_retarget (l l' : list Node) (xs : list Z) (prv nxt nxt' : Z) :
  NoDup xs ->
  (forall j, j ∈ xs -> previous (node_at l' j) = previous (node_at l j)) ->
  (forall j, j ∈ xs -> j <> last_or prv xs -> next (node_at l' j) = next (node_at l j)) ->
  (xs <> [] -> next (node_at l' (last_or prv xs)) = nxt') ->
  chain l prv xs nxt -> chain l' prv xs nxt'.
Proof.
  revert prv. induction xs as [|x xs IH]; intros prv Hnd Hp Hn Hlast; simpl; [auto|].
  intros (Hv & Ep & En & Hc).
  apply NoDup_cons in Hnd as [Hx Hnd].
  rewrite Hp by left. split; [assumption|]. split; [assumption|].
  destruct xs as [|y ys].
  - simpl in *. split; [|exact I]. now apply Hlast.
  - split.
    + rewrite Hn; [assumption|left|].
      intros E. apply Hx. rewrite E. exact (last_or_cons_elem y ys).
    + apply IH; try assumption.
      * intros j Hj. apply Hp. now right.
      * intros j Hj Hne. apply Hn; [now right|exact Hne].
      * intros _. apply Hlast. discriminate.
Qed.

Lemma last_or_elem (d : Z) (xs : list Z) : xs <> [] -> last_or d xs ∈ xs.
Proof.
  revert d. induction xs as [|x xs IH]; intros d Hne; [contradiction|].
  simpl. destruct xs as [|y ys]; [left|]. right. apply IH. discriminate.
Qed.

Lemma snoc_cases (xs : list Z) : xs = [] \/ exists ys y, xs = ys ++ [y].
Proof.
  induction xs as [|x xs IH] using rev_ind; [now left|]. right. eauto.
Qed.

(** At most [MAX_ALLOCS] distinct records. *)
Lemma distinct_records_bound (xs : list Z) :
  NoDup xs -> (forall j, j ∈ xs -> valid j) -> (length xs <= Z.to_nat MAX_ALLOCS)%nat.
Proof.
  intros Hnd Hv.
  rewrite <- (length_seqZ 0 MAX_ALLOCS).
  apply submseteq_length, NoDup_submseteq; [assumption|].
  intros j Hj. apply elem_of_seqZ. specialize (Hv j Hj). unfold valid in Hv. lia.
Qed.

(** ** Walking back to the head *)

Lemma reaches_trans (l : list Node) (a b j : Z) :
  reaches l b j -> reaches l a b -> reaches l a j.
Proof.
  induction 1 as [|i Hv Hp _ IH]; intros Hab; [assumption|].
  apply reaches_back; auto.
Qed.

Lemma chain_reaches (l : list Node) (xs : list Z) :
  forall (x prv nxt : Z),
    chain l prv (x :: xs) nxt -> forall j, j ∈ x :: xs -> reaches l x j.
Proof.
  induction xs as [|y ys IH]; intros x prv nxt Hc j Hj.
  - apply list_elem_of_singleton in Hj as ->. constructor.
  - apply elem_of_cons in Hj as [->|Hj]; [constructor|].
    destruct Hc as (Hx & _ & _ & Hc).
    apply reaches_trans with (b := y); [eapply IH; eauto|].
    destruct Hc as (Hy & Hpy & _).
    apply reaches_back; [assumption| |rewrite Hpy; constructor].
    rewrite Hpy. unfold valid in Hx. lia.
Qed.

(** A write keeps [reaches] when every record whose [previous] link it
    changes still arrives at the (new) head. *)
Lemma reaches_transfer (l l' : list Node) (hd hd' : Z) :
  (forall j, valid j -> previous (node_at l j) <> -1 ->
     previous (node_at l' j) = previous (node_at l j) \/ reaches l' hd' j) ->
  reaches l' hd' hd ->
  forall j, reaches l hd j -> reaches l' hd' j.
Proof.
  intros Hstep Hhd j Hr. induction Hr as [|i Hv Hp _ IH]; [assumption|].
  destruct (Hstep i Hv Hp) as [E|Hd]; [|assumption].
  apply reaches_back; rewrite ?E; assumption.
Qed.

(** The loop of [traverse_back], if it returns, returns the head. *)
Lemma traverse_back_loop_sound (l : list Node) (hd : Z) :
  table l -> valid hd -> previous (node_at l hd) = -1 ->
  forall j, reaches l hd j ->
  forall (k : nat) (r : Z), traverse_back_loop k j l = Done r -> r = hd.
Proof.
  intros Hl Hhd Hp j Hr. induction Hr as [|i Hv Hpi _ IH]; intros [|k] r; try discriminate.
  - cbn [traverse_back_loop]. rewrite (ledger_at_node_at l hd Hl Hhd). cbn [obind].
    rewrite Hp. cbn. congruence.
  - cbn [traverse_back_loop]. rewrite (ledger_at_node_at l i Hl Hv). cbn [obind].
    apply Z.eqb_neq in Hpi. rewrite Hpi. apply IH.
Qed.

Lemma back_path_det (l : list Node) (p1 : list Z) :
  forall (j : Z) (p2 : list Z), back_path l j p1 -> back_path l j p2 -> p1 = p2.
Proof.
  induction p1 as [|i p1 IH]; intros j [|i' p2]; simpl; try tauto.
  intros (-> & _ & H1) (-> & _ & H2).
  destruct (previous (node_at l j) =? -1).
  - congruence.
  - f_equal. eapply IH; eauto.
Qed.

Lemma back_path_suffix (l : list Node) (p1 : list Z) :
  forall (j x : Z) (p2 : list Z),
    back_path l j (p1 ++ x :: p2) -> back_path l x (x :: p2).
Proof.
  induction p1 as [|i p1 IH]; intros j x p2; simpl.
  - intros (-> & Hv & Hr). auto.
  - intros (-> & Hv & Hr).
    destruct (previous (node_at l j) =? -1).
    + destruct p1; discriminate.
    + eapply IH, Hr.
Qed.

Lemma back_path_valid (l : list Node) (path : list Z) :
  forall j, back_path l j path -> forall x, x ∈ path -> valid x.
Proof.
  induction path as [|i path IH]; intros j; simpl; [tauto|].
  intros (-> & Hv & Hr) x Hx. apply elem_of_cons in Hx as [->|Hx]; [assumption|].
  destruct (previous (node_at l j) =? -1).
  - subst path. inversion Hx.
  - eapply IH; eauto.
Qed.

Lemma back_path_NoDup (l : list Node) (path : list Z) :
  forall j, back_path l j path -> NoDup path.
Proof.
  induction path as [|i path IH]; intros j Hb; [constructor|].
  pose proof Hb as (-> & Hv & Hr). apply NoDup_cons. split.
  - intros Hin. apply list_elem_of_split in Hin as (p1 & p2 & ->).
    pose proof (back_path_suffix l (j :: p1) j j p2 Hb) as Hs.
    pose proof (back_path_det _ _ _ _ Hb Hs) as E.
    apply (f_equal length) in E. simpl in E. rewrite length_app in E. simpl in E. lia.
  - destruct (previous (node_at l j) =? -1).
    + subst path. constructor.
    + eapply IH, Hr.
Qed.

Lemma back_path_run (l : list Node) (path : list Z) :
  table l ->
  forall (j : Z) (k : nat),
    back_path l j path -> (length path <= k)%nat ->
    traverse_back_loop k j l = Done (last_or j path).
Proof.
  intros Hl. induction path as [|i path IH]; intros j k; simpl; [tauto|].
  intros (-> & Hv & Hr) Hk. destruct k as [|k]; [lia|].
  cbn [traverse_back_loop]. rewrite (ledger_at_node_at l j Hl Hv). cbn [obind].
  destruct (previous (node_at l j) =? -1).
  - subst path. reflexivity.
  - rewrite IH; [|assumption|lia].
    destruct path as [|i' path']; [contradiction|].
    destruct Hr as (-> & _). reflexivity.
Qed.

Lemma reaches_back_path (l : list Node) (hd : Z) :
  valid hd -> previous (node_at l hd) = -1 ->
  forall j, reaches l hd j -> exists path, back_path l j path /\ last_or j path = hd.
Proof.
  intros Hhd Hp j Hr. induction Hr as [|i Hv Hpi _ (path & Hb & Hlast)].
  - exists [hd]. simpl. rewrite Hp. simpl. auto.
  - exists (i :: path). simpl. apply Z.eqb_neq in Hpi. rewrite Hpi.
    split; [auto|].
    destruct path as [|i' path']; [contradiction|].
    destruct Hb as (-> & _). exact Hlast.
Qed.

(** With the default fuel the loop does return the head. *)
Lemma traverse_back_loop_total (l : list Node) (hd j : Z) :
  table l -> valid hd -> previous (node_at l hd) = -1 ->
  reaches l hd j -> traverse_back_loop fuel j l = Done hd.
Proof.
  intros Hl Hhd Hp Hr.
  destruct (reaches_back_path l hd Hhd Hp j Hr) as (path & Hb & <-).
  apply back_path_run; try assumption.
  pose proof (distinct_records_bound path (back_path_NoDup _ _ _ Hb)
                (back_path_valid _ _ _ Hb)).
  unfold fuel. lia.
Qed.

(** ** Extents and kinds along a segment *)

Lemma tiles_app (l : list Node) (xs ys : list Z) (from to : Z) :
  tiles l from (xs ++ ys) to <-> exists mid, tiles l from xs mid /\ tiles l mid ys to.
Proof.
  revert from. induction xs as [|x xs IH]; intros from; simpl.
  - split; [eauto|]. intros (mid & -> & Ht). exact Ht.
  - rewrite IH. split.
    + intros (Ha & Hs & mid & H1 & H2). eauto 6.
    + intros (mid & (Ha & Hs & H1) & H2). eauto 6.
Qed.

Lemma tiles_ext (l l' : list Node) (xs : list Z) (from to : Z) :
  (forall j, j ∈ xs ->
     arena (node_at l' j) = arena (node_at l j) /\
     size (node_at l' j) = size (node_at l j)) ->
  tiles l from xs to -> tiles l' from xs to.
Proof.
  revert from. induction xs as [|x xs IH]; intros from Hagree; simpl; [auto|].
  destruct (Hagree x) as [Ea Es]; [left|]. rewrite Ea, Es.
  intros (Ha & Hs & Ht). do 2 (split; [assumption|]).
  apply IH; [|assumption]. intros j Hj. apply Hagree. now right.
Qed.

Lemma tiles_nonneg (l : list Node) (xs : list Z) (from to : Z) :
  tiles l from xs to -> forall x, x ∈ xs -> 0 <= size (node_at l x).
Proof.
  revert from. induction xs as [|y ys IH]; intros from Ht x Hx; [inversion Hx|].
  destruct Ht as (_ & Hs & Ht). apply elem_of_cons in Hx as [->|Hx]; [assumption|].
  eapply IH; eauto.
Qed.

Lemma tiles_le (l : list Node) (xs : list Z) (from to : Z) :
  tiles l from xs to -> from <= to.
Proof.
  revert from. induction xs as [|x xs IH]; intros from; simpl; [lia|].
  intros (_ & Hs & Ht). apply IH in Ht. lia.
Qed.

Lemma hole_sentinel (l : list Node) : ~ hole l (-1).
Proof. unfold hole, node_at, ledger_at. simpl. discriminate. Qed.

Lemma separated_app (l : list Node) (xs ys : list Z) (prv : Z) :
  separated l prv (xs ++ ys) <-> separated l prv xs /\ separated l (last_or prv xs) ys.
Proof.
  revert prv. induction xs as [|x xs IH]; intros prv; simpl; [tauto|].
  rewrite IH. tauto.
Qed.

Lemma separated_mono (l l' : list Node) (xs : list Z) (prv : Z) :
  (forall j, j = prv \/ j ∈ xs -> hole l' j -> hole l j) ->
  separated l prv xs -> separated l' prv xs.
Proof.
  revert prv. induction xs as [|x xs IH]; intros prv Hm; simpl; [auto|].
  intros (Hn & Hs). split.
  - intros (H1 & H2). apply Hn. split; apply Hm; auto. right. left.
  - apply IH; [|assumption]. intros j [->|Hj]; apply Hm; right; [left|now right].
Qed.

(** ** Well-formed allocator states *)

Lemma well_linked_head (a : allocator) (live : list Z) :
  well_linked a live ->
  valid (head_or 0 live) /\ previous (node_at (ledger a) (head_or 0 live)) = -1 /\
  head_or 0 live ∈ live.
Proof.
  intros [_ Hne _ Hc _ _ _ _ _ _ _]. destruct live as [|x xs]; [contradiction|].
  destruct Hc as (Hv & Hp & _). simpl. split; [assumption|]. split; [assumption|left].
Qed.

(** ** The searches on a well-linked ledger *)

(** C3, for the strategies that search from the head.  On a well-linked
    ledger [traverse_back] returns, and returns the first record of the
    live list, whatever index it had cached; it changes nothing but its
    cache. *)
Lemma traverse_back_well_linked (a : allocator) (live : list Z) :
  well_linked a live ->
  traverse_back a =
    Done (head_or 0 live, with_traverse_back_ptr (head_or 0 live) a).
Proof.
  intros Hwl. pose proof (well_linked_head a live Hwl) as (Hhd & Hp & _).
  destruct Hwl as [Hl _ _ _ _ _ Hreach Hzero Hcache _ _].
  unfold traverse_back, traverse_back_with.
  rewrite bind_gets.
  rewrite (bind_rd _ _ _ _ (ledger_at_node_at _ _ Hl Hcache)).
  assert (Hloop : traverse_back_loop fuel
            (if next (node_at (ledger a) (traverse_back_ptr a)) =? -1
             then 0 else traverse_back_ptr a) (ledger a) = Done (head_or 0 live)).
  { apply traverse_back_loop_total; try assumption.
    destruct (next (node_at (ledger a) (traverse_back_ptr a)) =? -1) eqn:E; [assumption|].
    apply Z.eqb_neq in E. destruct (Hreach _ Hcache) as [Hr|[Hn _]]; [assumption|contradiction]. }
  unfold bind at 1, lift. rewrite Hloop. reflexivity.
Qed.

Lemma well_linked_cache (a : allocator) (live : list Z) (p : Z) :
  well_linked a live -> valid p -> well_linked (with_traverse_back_ptr p a) live.
Proof. intros [] Hp. constructor; assumption. Qed.

Lemma live_from_chain (l : list Node) (xs : list Z) :
  table l ->
  forall (prv : Z) (k : nat),
    chain l prv xs (-1) -> (length xs < k)%nat ->
    live_from k (head_or (-1) xs) l = Done xs.
Proof.
  intros Hl. induction xs as [|x xs IH]; intros prv [|k] Hc Hk; simpl in Hk; try lia.
  - reflexivity.
  - destruct Hc as (Hv & _ & Hn & Hc). cbn [live_from head_or].
    assert ((x =? -1) = false) as -> by (apply Z.eqb_neq; unfold valid in Hv; lia).
    rewrite (ledger_at_node_at l x Hl Hv). cbn [obind]. rewrite Hn.
    rewrite (IH x k Hc) by lia. reflexivity.
Qed.

Lemma nodes_at_chain (l : list Node) (xs : list Z) :
  table l -> (forall j, j ∈ xs -> valid j) ->
  nodes_at xs l = Done (map (node_at l) xs).
Proof.
  intros Hl. induction xs as [|x xs IH]; intros Hv; [reflexivity|].
  cbn [nodes_at map]. rewrite (ledger_at_node_at l x Hl) by (apply Hv; left).
  cbn [obind]. rewrite IH; [reflexivity|]. intros j Hj. apply Hv. now right.
Qed.

Lemma live_list_well_linked (a : allocator) (live : list Z) :
  well_linked a live -> live_list a = Done live.
Proof.
  intros Hwl. unfold live_list. rewrite (traverse_back_well_linked a live Hwl).
  cbn [obind fst snd]. fields.
  destruct Hwl as [Hl Hne Hnd Hc _ _ _ _ _ _ _].
  destruct live as [|x xs]; [contradiction|].
  apply (live_from_chain _ (x :: xs) Hl (-1)); [assumption|].
  pose proof (distinct_records_bound _ Hnd (chain_valid _ _ _ _ Hc)). unfold fuel. lia.
Qed.

Lemma first_fit_loop_chain (l : list Node) (sz : Z) (xs : list Z) :
  table l ->
  forall (prv : Z) (k : nat) (r : Z),
    chain l prv xs (-1) ->
    first_fit_loop k sz (head_or (-1) xs) l = Done r -> r = -1 \/ r ∈ xs.
Proof.
  intros Hl. induction xs as [|x xs IH]; intros prv [|k] r Hc; try discriminate.
  - cbn. intros [= <-]. now left.
  - destruct Hc as (Hv & _ & Hn & Hc). cbn [first_fit_loop head_or].
    assert ((x =? -1) = false) as -> by (apply Z.eqb_neq; unfold valid in Hv; lia).
    rewrite (ledger_at_node_at l x Hl Hv). cbn [obind]. rewrite Hn.
    destruct ((size (node_at l x) <? sz) || is_P (type (node_at l x))).
    + intros E. destruct (IH x k r Hc E); [now left|right; now right].
    + intros [= <-]. right. left.
Qed.

Lemma worst_fit_loop_chain (l : list Node) (sz : Z) (xs : list Z) :
  table l ->
  forall (prv : Z) (k : nat) (idx0 sz0 r : Z),
    chain l prv xs (-1) ->
    worst_fit_loop k sz (head_or (-1) xs) idx0 sz0 l = Done r -> r = idx0 \/ r ∈ xs.
Proof.
  intros Hl. induction xs as [|x xs IH]; intros prv [|k] idx0 sz0 r Hc; try discriminate.
  - cbn. intros [= <-]. now left.
  - destruct Hc as (Hv & _ & Hn & Hc). cbn [worst_fit_loop head_or].
    assert ((x =? -1) = false) as -> by (apply Z.eqb_neq; unfold valid in Hv; lia).
    rewrite (ledger_at_node_at l x Hl Hv). cbn [obind]. rewrite Hn.
    destruct (is_H (type (node_at l x)) && (sz <=? size (node_at l x)) &&
              (sz0 <? to_long (size (node_at l x)))); intros E;
      destruct (IH x k _ _ r Hc E) as [->|Hr]; auto; right; try left; now right.
Qed.

Lemma best_fit_loop_chain (l : list Node) (sz : Z) (xs : list Z) :
  table l ->
  forall (prv : Z) (k : nat) (idx0 sz0 r : Z),
    chain l prv xs (-1) ->
    best_fit_loop k sz (head_or (-1) xs) idx0 sz0 l = Done r -> r = idx0 \/ r ∈ xs.
Proof.
  intros Hl. induction xs as [|x xs IH]; intros prv [|k] idx0 sz0 r Hc; try discriminate.
  - cbn. intros [= <-]. now left.
  - destruct Hc as (Hv & _ & Hn & Hc). cbn [best_fit_loop head_or].
    assert ((x =? -1) = false) as -> by (apply Z.eqb_neq; unfold valid in Hv; lia).
    rewrite (ledger_at_node_at l x Hl Hv). cbn [obind]. rewrite Hn.
    destruct (is_H (type (node_at l x)) && (sz <=? size (node_at l x)) &&
              (to_long (size (node_at l x)) <? sz0)); intros E;
      destruct (IH x k _ _ r Hc E) as [->|Hr]; auto; right; try left; now right.
Qed.

(** First-, best- and worst-fit select a record of the live list. *)
Lemma select_hole_well_linked (sz : Z) (a a1 : allocator) (live : list Z) (idx : Z) :
  well_linked a live ->
  alloc_algorithm a <> NEXT_FIT ->
  select_hole sz a = Done (idx, a1) ->
  a1 = with_traverse_back_ptr (head_or 0 live) a /\ (idx = -1 \/ idx ∈ live).
Proof.
  intros Hwl Halg. pose proof (traverse_back_well_linked a live Hwl) as Htb.
  pose proof Hwl as [Hl Hne _ Hc _ _ _ _ _ _ _].
  assert (Hhd : head_or 0 live = head_or (-1) live) by (destruct live; [contradiction|reflexivity]).
  unfold select_hole. rewrite bind_gets.
  destruct (alloc_algorithm a); [|contradiction| |].
  - unfold first_fit, first_fit_with. fold traverse_back.
    rewrite (bind_run _ _ _ _ _ Htb). intros E. apply lift_Done in E as [E ->].
    split; [reflexivity|]. rewrite Hhd in E. eapply first_fit_loop_chain; eauto.
  - unfold best_fit, best_fit_with. fold traverse_back.
    rewrite (bind_run _ _ _ _ _ Htb). intros E. apply lift_Done in E as [E ->].
    split; [reflexivity|]. rewrite Hhd in E. eapply best_fit_loop_chain; eauto.
  - unfold worst_fit, worst_fit_with. fold traverse_back.
    rewrite (bind_run _ _ _ _ _ Htb). intros E. apply lift_Done in E as [E ->].
    split; [reflexivity|]. rewrite Hhd in E. eapply worst_fit_loop_chain; eauto.
Qed.

(** ** The ledger after a split *)

Ltac node_upd :=
  repeat (rewrite node_at_upd by first [assumption | repeat apply table_upd; assumption]).

Lemma alloc_split_run (size0 : Z) (a a1 : allocator) (idx : Z) (h : Node) :
  let sz := ALIGN4 (to_size_t size0) in
  let top := ledger_top a1 + 1 in
  select_hole sz a = Done (idx, a1) ->
  idx <> -1 ->
  ledger_at idx (ledger a1) = Done h ->
  size h <> sz ->
  table (ledger a1) ->
  valid top -> idx <> top -> previous h <> top -> previous h <> idx ->
  previous h = -1 \/ valid (previous h) ->
  exists l',
    mavalloc_alloc size0 a = Done (arena h, with_ledger l' (with_ledger_top top a1)) /\
    table l' /\
    forall j, valid j ->
      node_at l' j =
        if decide (j = top) then mkNode sz P (arena h) idx (previous h)
        else if decide (j = idx) then
          mkNode (to_size_t (size h - sz)) (type h) (to_size_t (arena h + sz)) (next h) top
        else if decide (j = previous h) then set_next top (node_at (ledger a1) j)
        else node_at (ledger a1) j.
Proof.
  intros sz top Esel Hidx Hh Hsplit Htab Htop Hit Hpt Hpi Hprev.
  assert (Hidx' : (idx =? -1) = false) by now apply Z.eqb_neq.
  destruct (ledger_at_valid _ _ _ Hh) as [Hidxv Hnode].
  pose proof (ledger_at_node_at _ _ Htab Htop) as Ht0.
  unfold valid in Htop, Hidxv.
  unfold mavalloc_alloc. fold sz.
  rewrite (bind_run _ _ _ _ _ Esel), Hidx'.
  rewrite (bind_rd _ _ _ _ Hh).
  rewrite (proj2 (Z.eqb_neq _ _) Hsplit).
  rewrite bind_gets, bind_modify. fold top.
  erewrite bind_wr by (fields; eassumption). fields.
  erewrite bind_wr by (fields; read_upd; reflexivity). fields.
  erewrite bind_rd by (fields; read_upd; eassumption).
  erewrite bind_wr by (fields; read_upd; reflexivity). fields.
  erewrite bind_rd by (fields; read_upd; eassumption).
  destruct (previous h =? -1) eqn:Eprev; cbn [negb].
  - apply Z.eqb_eq in Eprev.
    rewrite bind_ret.
    erewrite bind_wr by (fields; read_upd; reflexivity). fields.
    erewrite bind_wr by (fields; read_upd; eassumption). fields.
    erewrite bind_rd by (fields; read_upd; reflexivity).
    erewrite bind_wr by (fields; read_upd; reflexivity). fields.
    erewrite bind_rd by (fields; read_upd; reflexivity).
    erewrite bind_wr by (fields; read_upd; reflexivity). fields.
    erewrite bind_rd by (fields; read_upd; reflexivity).
    erewrite bind_wr by (fields; read_upd; reflexivity). fields.
    erewrite bind_rd by (fields; read_upd; reflexivity).
    eexists. split; [reflexivity|]. split; [repeat apply table_upd; assumption|].
    intros j Hj. unfold valid in Hj. node_upd.
    unfold set_size, set_type, set_arena, set_next, set_previous. fields.
    repeat destruct (decide _); subst; try lia; try reflexivity.
  - apply Z.eqb_neq in Eprev. destruct Hprev as [Hprev|Hprev]; [contradiction|].
    pose proof (ledger_at_node_at _ _ Htab Hprev) as Hpp. unfold valid in Hprev.
    erewrite bind_wr by (fields; read_upd; eassumption). fields.
    erewrite bind_wr by (fields; read_upd; reflexivity). fields.
    erewrite bind_wr by (fields; read_upd; eassumption). fields.
    erewrite bind_rd by (fields; read_upd; reflexivity).
    erewrite bind_wr by (fields; read_upd; reflexivity). fields.
    erewrite bind_rd by (fields; read_upd; reflexivity).
    erewrite bind_wr by (fields; read_upd; reflexivity). fields.
    erewrite bind_rd by (fields; read_upd; reflexivity).
    erewrite bind_wr by (fields; read_upd; reflexivity). fields.
    erewrite bind_rd by (fields; read_upd; reflexivity).
    eexists. split; [reflexivity|]. split; [repeat apply table_upd; assumption|].
    intros j Hj. unfold valid in Hj. node_upd.
    unfold set_size, set_type, set_arena, set_next, set_previous. fields.
    repeat destruct (decide _); subst; try lia; try reflexivity.
Qed.

Lemma ledger_at_invalid (l : list Node) (j : Z) : ~ valid j -> ledger_at j l = OutOfBounds j.
Proof.
  intros Hj. unfold ledger_at, valid_subscript.
  destruct (0 <=? j) eqn:E1, (j <? MAX_ALLOCS) eqn:E2; try reflexivity.
  exfalso. apply Hj. unfold valid. lia.
Qed.

Lemma node_at_invalid (l : list Node) (j : Z) : ~ valid j -> node_at l j = zero_node.
Proof.
  intros Hj. unfold node_at. destruct (ledger_at j l) as [n| | |] eqn:E; try reflexivity.
  apply ledger_at_valid in E as [Hv _]. contradiction.
Qed.

Lemma reaches_ext (l l' : list Node) (hd : Z) :
  (forall j, valid j -> previous (node_at l' j) = previous (node_at l j)) ->
  forall j, reaches l hd j -> reaches l' hd j.
Proof.
  intros Hp. apply reaches_transfer; [|constructor]. intros j Hj _. left. auto.
Qed.

Lemma chain_live_reaches (l : list Node) (live : list Z) (j : Z) :
  chain l (-1) live (-1) -> j ∈ live -> reaches l (head_or 0 live) j.
Proof.
  intros Hc Hj. destruct live as [|x xs]; [inversion Hj|]. eapply chain_reaches; eauto.
Qed.

(** A write that changes no link and no extent of a live record keeps the
    ledger well linked. *)
Lemma well_linked_same_links (a : allocator) (live : list Z) (l' : list Node) :
  well_linked a live ->
  table l' ->
  (forall j, valid j ->
     previous (node_at l' j) = previous (node_at (ledger a) j) /\
     next (node_at l' j) = next (node_at (ledger a) j) /\
     arena (node_at l' j) = arena (node_at (ledger a) j) /\
     size (node_at l' j) = size (node_at (ledger a) j)) ->
  well_linked (with_ledger l' a) live.
Proof.
  intros [Hl Hne Hnd Hc Htop Hbelow Hreach Hzero Hcache Hpool Htiles] Hl' Hsame.
  pose proof (chain_valid _ _ _ _ Hc) as Hv.
  constructor; fields; try assumption.
  - eapply chain_ext; [|exact Hc]. intros j Hj. split; apply Hsame; auto.
  - intros j Hj. destruct (Hreach j Hj) as [Hr|[Hn Hnot]].
    + left. eapply reaches_ext; [|exact Hr]. intros; apply Hsame; assumption.
    + right. split; [|assumption]. destruct (Hsame j Hj) as (_ & -> & _). assumption.
  - eapply reaches_ext; [|exact Hzero]. intros; apply Hsame; assumption.
  - eapply tiles_ext; [|exact Htiles]. intros j Hj. split; apply Hsame; auto.
Qed.

Lemma well_formed_retype_P (a : allocator) (live : list Z) (idx : Z) :
  well_formed a live -> valid idx ->
  well_formed (with_ledger (<[Z.to_nat idx := set_type P (node_at (ledger a) idx)]> (ledger a)) a) live.
Proof.
  intros [Hwl Hsep] Hidx. pose proof (wl_table _ _ Hwl) as Hl. split.
  - apply well_linked_same_links; [assumption|now apply table_upd|].
    intros j Hj. rewrite node_at_upd by assumption.
    destruct (decide (j = idx)) as [->|]; auto.
  - fields. eapply separated_mono; [|exact Hsep].
    intros j _. unfold hole. rewrite node_at_upd by assumption.
    destruct (decide (j = idx)) as [->|]; [discriminate|auto].
Qed.

Lemma alloc_table_full (size0 : Z) (a a1 : allocator) (idx : Z) (h : Node) :
  let sz := ALIGN4 (to_size_t size0) in
  select_hole sz a = Done (idx, a1) ->
  idx <> -1 ->
  ledger_at idx (ledger a1) = Done h ->
  size h <> sz ->
  ~ valid (ledger_top a1 + 1) ->
  mavalloc_alloc size0 a = OutOfBounds (ledger_top a1 + 1).
Proof.
  intros sz Esel Hidx Hh Hsplit Hfull.
  unfold mavalloc_alloc. fold sz.
  rewrite (bind_run _ _ _ _ _ Esel), (proj2 (Z.eqb_neq _ _) Hidx).
  rewrite (bind_rd _ _ _ _ Hh), (proj2 (Z.eqb_neq _ _) Hsplit).
  rewrite bind_gets, bind_modify.
  unfold bind at 1, wr, ledger_set. fields.
  assert (ledger_at (ledger_top a1 + 1) (ledger a1) = OutOfBounds (ledger_top a1 + 1)) as ->; [|reflexivity].
  unfold ledger_at.
  destruct (valid_subscript (ledger_top a1 + 1)) eqn:E; [|reflexivity].
  exfalso. apply Hfull. unfold valid_subscript in E. unfold valid. lia.
Qed.

Lemma last_or_pre_cases (pre : list Z) :
  (pre = [] /\ last_or (-1) pre = -1) \/ (pre <> [] /\ last_or (-1) pre ∈ pre).
Proof.
  destruct pre as [|x xs]; [left; auto|right]. split; [discriminate|].
  apply last_or_elem. discriminate.
Qed.

(** Splitting the Hole [idx] of a well-formed ledger: the new record
    [top] enters the live list just before [idx]. *)
Lemma well_formed_split (a : allocator) (pre post : list Z) (idx sz : Z) (l' : list Node) :
  let l := ledger a in
  let h := node_at l idx in
  let top := ledger_top a + 1 in
  well_formed a (pre ++ idx :: post) ->
  valid top -> type h = H -> 0 <= sz < size h ->
  table l' ->
  (forall j, valid j ->
     node_at l' j =
       if decide (j = top) then mkNode sz P (arena h) idx (previous h)
       else if decide (j = idx) then
         mkNode (to_size_t (size h - sz)) (type h) (to_size_t (arena h + sz)) (next h) top
       else if decide (j = previous h) then set_next top (node_at l j)
       else node_at l j) ->
  well_formed (with_ledger l' (with_ledger_top top a)) (pre ++ top :: idx :: post).
Proof.
  intros l h top [Hwl Hsep] Htop Hty Hsz Hl' HF.
  destruct Hwl as [Hl Hne Hnd Hc Htopb Hbelow Hreach Hzero Hcache Hpool Htiles].
  fold l in Hl, Hc, Hreach, Hzero, Htiles, Hsep.
  pose proof (chain_valid _ _ _ _ Hc) as Hv.
  apply chain_app in Hc as [Hcpre (Hidx & Hph & Hnh & Hcpost)]. fold h in Hph, Hnh.
  apply NoDup_app in Hnd as (Hndpre & Hdisj & Hndpost).
  apply NoDup_cons in Hndpost as [Hidxpost Hndpost].
  assert (Hidxpre : idx ∉ pre) by (intros Hin; apply (Hdisj idx Hin); left).
  assert (Hlive_top : forall j, j ∈ pre ++ idx :: post -> j <> top).
  { intros j Hj. specialize (Hbelow j Hj). unfold top. lia. }
  assert (Hit : idx <> top) by (apply Hlive_top, elem_of_app; right; left).
  assert (Hp : previous h = -1 \/ (valid (previous h) /\ previous h ∈ pre)).
  { rewrite Hph. destruct (last_or_pre_cases pre) as [[_ ->]|[_ Hin]]; [now left|right].
    split; [|assumption]. apply Hv, elem_of_app. now left. }
  assert (Hpt : previous h <> top).
  { destruct Hp as [->|[_ Hin]]; [unfold valid in Htop; lia|].
    apply Hlive_top, elem_of_app. now left. }
  assert (Hpi : previous h <> idx).
  { destruct Hp as [->|[_ Hin]]; [unfold valid in Hidx; lia|]. intros E. rewrite E in Hin. contradiction. }
  (* reading the new ledger *)
  assert (Ftop : node_at l' top = mkNode sz P (arena h) idx (previous h)).
  { rewrite HF by assumption. now rewrite decide_True by auto. }
  assert (Fidx : node_at l' idx =
            mkNode (to_size_t (size h - sz)) (type h) (to_size_t (arena h + sz)) (next h) top).
  { rewrite HF by assumption. rewrite decide_False, decide_True by auto. reflexivity. }
  assert (Fprev : valid (previous h) -> node_at l' (previous h) = set_next top (node_at l (previous h))).
  { intros Hvp. rewrite HF by assumption.
    rewrite decide_False, decide_False, decide_True by auto. reflexivity. }
  assert (Fother : forall j, j <> top -> j <> idx -> j <> previous h -> node_at l' j = node_at l j).
  { intros j H1 H2 H3. destruct (decide (valid j)) as [Hj|Hj].
    - rewrite HF by assumption. now rewrite !decide_False by auto.
    - now rewrite !node_at_invalid. }
  assert (Fprev_keeps : forall j, j <> top -> j <> idx ->
            previous (node_at l' j) = previous (node_at l j) /\
            arena (node_at l' j) = arena (node_at l j) /\
            size (node_at l' j) = size (node_at l j) /\
            type (node_at l' j) = type (node_at l j)).
  { intros j H1 H2. destruct (decide (j = previous h)) as [->|H3].
    - destruct (decide (valid (previous h))) as [Hj|Hj].
      + rewrite Fprev by assumption. auto.
      + now rewrite !node_at_invalid.
    - rewrite Fother by assumption. auto. }
  assert (Hpre_ne : forall j, j ∈ pre -> j <> top /\ j <> idx).
  { intros j Hj. split; [apply Hlive_top, elem_of_app; now left|]. intros ->. contradiction. }
  assert (Hpost_ne : forall j, j ∈ post -> j <> top /\ j <> idx /\ j <> previous h).
  { intros j Hj. split; [apply Hlive_top, elem_of_app; right; now right|].
    split; [intros ->; contradiction|].
    destruct Hp as [->|[_ Hin]].
    - specialize (Hv j). unfold valid in Hv. intros ->.
      assert (0 <= -1) by (apply Hv, elem_of_app; right; now right). lia.
    - intros ->. apply (Hdisj _ Hin). now right. }
  (* the new chain *)
  assert (Hc' : chain l' (-1) (pre ++ top :: idx :: post) (-1)).
  { apply chain_app. split.
    - cbn [head_or]. eapply chain_retarget; [exact Hndpre| | | |exact Hcpre].
      + intros j Hj. destruct (Hpre_ne j Hj). now apply Fprev_keeps.
      + intros j Hj Hlast. destruct (Hpre_ne j Hj). rewrite Fother; auto. now rewrite Hph.
      + intros Hpre. rewrite <- Hph. destruct Hp as [E|[Hvp Hin]].
        * exfalso. rewrite Hph in E. destruct (last_or_pre_cases pre) as [[? _]|[_ Hin]]; [contradiction|].
          rewrite E in Hin. specialize (Hv (-1)). unfold valid in Hv.
          assert (0 <= -1) by (apply Hv, elem_of_app; now left). lia.
        * rewrite Fprev by assumption. reflexivity.
    - cbn [chain head_or]. rewrite Ftop, Fidx. fields.
      do 3 (split; [auto|]). do 3 (split; [auto|]).
      eapply chain_ext; [|exact Hcpost]. intros j Hj.
      destruct (Hpost_ne j Hj) as (? & ? & ?). now rewrite Fother. }
  assert (Hhd' : reaches l' (head_or 0 (pre ++ top :: idx :: post)) (head_or 0 (pre ++ idx :: post))).
  { apply chain_live_reaches; [assumption|].
    destruct pre as [|x xs]; cbn [head_or app]; [right; left|left]. }
  assert (Htransfer : forall j, reaches l (head_or 0 (pre ++ idx :: post)) j ->
                                reaches l' (head_or 0 (pre ++ top :: idx :: post)) j).
  { apply reaches_transfer; [|assumption]. intros j Hj _.
    destruct (decide (j = top)) as [->|H1].
    { right. apply chain_live_reaches; [assumption|]. apply elem_of_app. right. left. }
    destruct (decide (j = idx)) as [->|H2].
    { right. apply chain_live_reaches; [assumption|]. apply elem_of_app. right. right. left. }
    left. now apply Fprev_keeps. }
  apply tiles_app in Htiles as (mid & Htpre & Hah & Hsh & Htpost). fold h in Hah, Hsh.
  pose proof (tiles_le _ _ _ _ Htpre) as Hle1. pose proof (tiles_le _ _ _ _ Htpost) as Hle2.
  fold h in Hle2.
  split; [constructor|]; fields.
  - assumption.
  - destruct pre; discriminate.
  - apply NoDup_app. split; [assumption|]. split.
    + intros j Hj Hin. apply elem_of_cons in Hin as [->|Hin]; [now destruct (Hpre_ne top Hj)|].
      now apply (Hdisj j Hj).
    + apply NoDup_cons. split.
      * intros Hin. apply (Hlive_top top); [|reflexivity]. apply elem_of_app. now right.
      * apply NoDup_cons. auto.
  - assumption.
  - unfold valid in Htop. lia.
  - intros j Hj. apply elem_of_app in Hj as [Hj|Hj]; [|apply elem_of_cons in Hj as [->|Hj]].
    + assert (j <= ledger_top a) by (apply Hbelow, elem_of_app; now left). lia.
    + lia.
    + assert (j <= ledger_top a) by (apply Hbelow, elem_of_app; now right). lia.
  - intros j Hj. destruct (Hreach j Hj) as [Hr|[Hn Hnot]]; [left; now apply Htransfer|].
    destruct (decide (j = top)) as [->|H1].
    { left. apply chain_live_reaches; [assumption|]. apply elem_of_app. right. left. }
    right. assert (j <> idx) by (intros ->; apply Hnot, elem_of_app; right; left).
    assert (j <> previous h).
    { destruct Hp as [->|[_ Hin]]; [unfold valid in Hj; lia|].
      intros ->. apply Hnot, elem_of_app. now left. }
    rewrite Fother by assumption. split; [assumption|].
    intros Hin. apply Hnot. apply elem_of_app in Hin as [Hin|Hin]; apply elem_of_app; [now left|right].
    apply elem_of_cons in Hin as [->|Hin]; [contradiction|assumption].
  - now apply Htransfer.
  - assumption.
  - assumption.
  - apply tiles_app. exists mid. split.
    + eapply tiles_ext; [|exact Htpre]. intros j Hj. destruct (Hpre_ne j Hj).
      split; now apply Fprev_keeps.
    + cbn [tiles]. rewrite Ftop, Fidx. fields.
      rewrite !to_size_t_small by lia.
      split; [assumption|]. split; [lia|]. split; [lia|]. split; [lia|].
      replace (mid + sz + (size h - sz)) with (mid + size h) by lia.
      eapply tiles_ext; [|exact Htpost]. intros j Hj.
      destruct (Hpost_ne j Hj) as (? & ? & ?). now rewrite Fother.
  - apply separated_app in Hsep as [Hspre (_ & Hspost)].
    apply separated_app. split.
    + eapply separated_mono; [|exact Hspre]. intros j [->|Hj] Hh.
      * now apply hole_sentinel in Hh.
      * destruct (Hpre_ne j Hj). unfold hole in *.
        destruct (Fprev_keeps j) as (_ & _ & _ & <-); assumption.
    + cbn [separated]. unfold hole. rewrite Ftop. fields.
      split; [intros [_ ?]; discriminate|]. split; [intros [? _]; discriminate|].
      eapply separated_mono; [|exact Hspost]. intros j [->|Hj]; unfold hole.
      * rewrite Fidx. fields. auto.
      * destruct (Hpost_ne j Hj) as (? & ? & ?). now rewrite Fother.
Qed.

Lemma alloc_none_run (size0 : Z) (a a1 : allocator) :
  select_hole (ALIGN4 (to_size_t size0)) a = Done (-1, a1) ->
  mavalloc_alloc size0 a = Done (NULL, a1).
Proof. intros E. unfold mavalloc_alloc. rewrite (bind_run _ _ _ _ _ E). reflexivity. Qed.

Lemma alloc_exact_run (size0 : Z) (a a1 : allocator) (idx : Z) (h : Node) :
  let sz := ALIGN4 (to_size_t size0) in
  select_hole sz a = Done (idx, a1) ->
  idx <> -1 ->
  ledger_at idx (ledger a1) = Done h ->
  size h = sz ->
  mavalloc_alloc size0 a =
    Done (arena h, with_ledger (<[Z.to_nat idx := set_type P h]> (ledger a1)) a1).
Proof.
  intros sz Esel Hidx Hh Hexact. unfold mavalloc_alloc. fold sz.
  rewrite (bind_run _ _ _ _ _ Esel), (proj2 (Z.eqb_neq _ _) Hidx).
  rewrite (bind_rd _ _ _ _ Hh).
  rewrite (proj2 (Z.eqb_eq _ _) Hexact).
  rewrite (bind_wr _ _ _ _ _ Hh).
  erewrite bind_rd by (fields; eapply ledger_at_upd_same, Hh). reflexivity.
Qed.

(** [mavalloc_alloc] under first-, best- or worst-fit keeps the ledger
    well formed. *)
Lemma alloc_well_formed (size0 : Z) (a a' : allocator) (r : Z) (live : list Z) :
  well_formed a live ->
  alloc_algorithm a <> NEXT_FIT ->
  mavalloc_alloc size0 a = Done (r, a') ->
  exists live', well_formed a' live'.
Proof.
  intros [Hwl Hsep] Halg E.
  pose proof E as E0. unfold mavalloc_alloc in E0.
  apply bind_Done in E0 as (idx & a1 & Esel & _).
  destruct (select_hole_well_linked _ _ _ _ _ Hwl Halg Esel) as [Ea1 Hidx].
  assert (Hwf1 : well_formed a1 live).
  { subst a1. split; [|exact Hsep]. apply well_linked_cache; [assumption|].
    apply (well_linked_head a live Hwl). }
  destruct Hidx as [->|Hin].
  - rewrite (alloc_none_run _ _ _ Esel) in E. injection E as _ <-. eauto.
  - pose proof Hwf1 as [Hwl1 _].
    pose proof (wl_table _ _ Hwl1) as Hl.
    pose proof (chain_valid _ _ _ _ (wl_chain _ _ Hwl1) idx Hin) as Hv.
    assert (Hidx : idx <> -1) by (unfold valid in Hv; lia).
    destruct (select_hole_qualifies _ _ _ _ Esel Hidx) as (h & Hh & Hty & Hsz).
    destruct (ledger_at_valid _ _ _ Hh) as [_ Hnode].
    destruct (decide (size h = ALIGN4 (to_size_t size0))) as [Hexact|Hsplit].
    + rewrite (alloc_exact_run _ _ _ _ _ Esel Hidx Hh Hexact) in E. injection E as _ <-.
      exists live. rewrite <- Hnode. now apply well_formed_retype_P.
    + destruct (decide (valid (ledger_top a1 + 1))) as [Htop|Hfull];
        [|rewrite (alloc_table_full _ _ _ _ _ Esel Hidx Hh Hsplit Hfull) in E; discriminate].
      apply list_elem_of_split in Hin as (pre & post & ->).
      pose proof (wl_chain _ _ Hwl1) as Hc.
      apply chain_app in Hc as [_ (_ & Hph & _)]. rewrite Hnode in Hph.
      pose proof (wl_nodup _ _ Hwl1) as Hnd.
      apply NoDup_app in Hnd as (_ & Hdisj & _).
      assert (Hbelow : forall j, j ∈ pre ++ idx :: post -> j <> ledger_top a1 + 1).
      { intros j Hj. pose proof (wl_below _ _ Hwl1 j Hj). lia. }
      assert (Hp : previous h = -1 \/ (valid (previous h) /\ previous h ∈ pre)).
      { rewrite Hph. destruct (last_or_pre_cases pre) as [[_ ->]|[_ Hp]]; [now left|right].
        split; [|assumption].
        apply (chain_valid _ _ _ _ (wl_chain _ _ Hwl1)), elem_of_app. now left. }
      destruct (alloc_split_run size0 a a1 idx h Esel Hidx Hh Hsplit Hl Htop)
        as (l' & E' & Hl' & HF).
      * apply Hbelow, elem_of_app. right. left.
      * destruct Hp as [->|[_ Hp]]; [unfold valid in Htop; lia|].
        apply Hbelow, elem_of_app. now left.
      * destruct Hp as [->|[_ Hp]]; [lia|]. intros Eq. rewrite Eq in Hp.
        apply (Hdisj idx Hp). left.
      * destruct Hp as [?|[? _]]; auto.
      * rewrite E' in E. injection E as _ <-.
        exists (pre ++ (ledger_top a1 + 1) :: idx :: post).
        apply (well_formed_split a1 pre post idx (ALIGN4 (to_size_t size0)) l');
          try assumption; rewrite ?Hnode; try assumption.
        pose proof (ALIGN4_range (to_size_t size0)). lia.
Qed.

(** ** The ledger after coalescing *)

Lemma free_search_chain (l : list Node) (ptr : Z) (xs : list Z) :
  table l ->
  forall (prv : Z) (k : nat) (r : Z),
    chain l prv xs (-1) ->
    free_search k ptr (head_or (-1) xs) l = Done r -> r = -1 \/ r ∈ xs.
Proof.
  intros Hl. induction xs as [|x xs IH]; intros prv [|k] r Hc; try discriminate.
  - cbn. intros [= <-]. now left.
  - destruct Hc as (Hv & _ & Hn & Hc). cbn [free_search head_or].
    assert ((x =? -1) = false) as -> by (apply Z.eqb_neq; unfold valid in Hv; lia).
    rewrite (ledger_at_node_at l x Hl Hv). cbn [obind]. rewrite Hn.
    destruct (arena (node_at l x) =? ptr).
    + intros [= <-]. right. left.
    + intros E. destruct (IH x k r Hc E); [now left|right; now right].
Qed.

Lemma wr_invalid (i : Z) (f : Node -> Node) (a : allocator) :
  ~ valid i -> wr i f a = OutOfBounds i.
Proof.
  intros Hi. unfold wr, ledger_set, ledger_at.
  destruct (valid_subscript i) eqn:E; [|reflexivity].
  exfalso. apply Hi. unfold valid_subscript in E. unfold valid. lia.
Qed.

Lemma wr_valid (i : Z) (f : Node -> Node) (a : allocator) :
  table (ledger a) -> valid i ->
  wr i f a = Done (tt, with_ledger (<[Z.to_nat i := f (node_at (ledger a) i)]> (ledger a)) a).
Proof. intros Hl Hi. apply wr_run, ledger_at_node_at; assumption. Qed.

(** No backward merge: the freed record is the head, or its predecessor
    is a Process. *)
Lemma coalesce_backwards_skip (i : Z) (a : allocator) :
  let n := node_at (ledger a) i in
  table (ledger a) -> valid i ->
  previous n = -1 \/ (valid (previous n) /\ type (node_at (ledger a) (previous n)) = P) ->
  coalesce_backwards i a = Done (i, a).
Proof.
  intros n Hl Hi Hcond. unfold coalesce_backwards, previous_is_hole.
  pose proof (ledger_at_node_at _ _ Hl Hi) as Hn. fold n in Hn.
  unfold bind at 1. unfold bind at 1. rewrite (rd_run _ _ _ Hn). cbn [obind fst snd].
  destruct Hcond as [->|[Hp Hty]]; [reflexivity|].
  assert ((previous n =? -1) = false) as -> by (apply Z.eqb_neq; unfold valid in Hp; lia).
  rewrite (bind_rd _ _ _ _ (ledger_at_node_at _ _ Hl Hp)).
  rewrite Hty. reflexivity.
Qed.

(** Backward merge, up to its last statement. *)
Lemma coalesce_backwards_run (i : Z) (a : allocator) :
  let l := ledger a in
  let n := node_at l i in
  let p := previous n in
  let np := node_at l p in
  table l -> valid i -> valid p -> type np = H -> p <> i -> next np = i ->
  exists l3,
    coalesce_backwards i a =
      bind (wr (next n) (set_previous p)) (fun _ => ret p)
           (with_ledger l3
              (with_ledger_top (if i =? ledger_top a then ledger_top a - 1 else ledger_top a) a)) /\
    table l3 /\
    forall j, node_at l3 j =
      if decide (j = p)
      then mkNode (to_size_t (size np + size n)) (type np) (arena np) (next n) (previous np)
      else node_at l j.
Proof.
  intros l n p np Hl Hi Hp Hty Hpi Hnext.
  pose proof (ledger_at_node_at _ _ Hl Hi) as Hn. fold l n in Hn.
  pose proof (ledger_at_node_at _ _ Hl Hp) as Hnp. fold l np in Hnp.
  assert (Hp1 : (previous n =? -1) = false) by (apply Z.eqb_neq; unfold valid in Hp; fold p; lia).
  unfold valid in Hi, Hp.
  unfold coalesce_backwards, previous_is_hole.
  unfold bind at 1. unfold bind at 1. rewrite (rd_run _ _ _ Hn). cbn [obind fst snd].
  rewrite Hp1. fold p. rewrite (bind_rd _ _ _ _ Hnp), Hty. cbn [is_H ret obind fst snd].
  rewrite (bind_rd _ _ _ _ Hn). fold p. rewrite (bind_rd _ _ _ _ Hnp).
  rewrite (bind_wr _ _ _ _ _ Hnp). rewrite bind_gets. fields.
  assert (Htopstep : forall (B : Type) (k : unit -> M B) s,
            bind (if i =? ledger_top a
                  then modify (with_ledger_top (ledger_top a - 1)) else ret tt) k s =
            k tt (if i =? ledger_top a then with_ledger_top (ledger_top a - 1) s else s)).
  { intros B k s. destruct (i =? ledger_top a); reflexivity. }
  rewrite Htopstep.
  assert (Hstate : forall (x : list Node),
            (if i =? ledger_top a
             then with_ledger_top (ledger_top a - 1) (with_ledger x a)
             else with_ledger x a) =
            with_ledger x (with_ledger_top
              (if i =? ledger_top a then ledger_top a - 1 else ledger_top a) a)).
  { intros x. destruct (i =? ledger_top a); [reflexivity|]. destruct a; reflexivity. }
  rewrite Hstate.
  erewrite bind_rd by (fields; read_upd; eassumption). fold p.
  erewrite bind_rd by (fields; read_upd; reflexivity). fields. rewrite Hnext.
  erewrite bind_rd by (fields; read_upd; eassumption).
  erewrite bind_wr by (fields; read_upd; reflexivity). fields.
  erewrite bind_rd by (fields; read_upd; reflexivity). fields.
  eexists. split; [reflexivity|]. split; [repeat apply table_upd; assumption|].
  intros j. fold l. node_upd.
  unfold set_size, set_next. fields.
  destruct (decide (j = p)); rewrite ?Hty; reflexivity.
Qed.

Lemma coalesce_forward_skip (i : Z) (a : allocator) :
  let n := node_at (ledger a) i in
  table (ledger a) -> valid i ->
  next n = -1 \/ (valid (next n) /\ type (node_at (ledger a) (next n)) = P) ->
  coalesce_forward i a = Done (tt, a).
Proof.
  intros n Hl Hi Hcond. unfold coalesce_forward, next_is_hole.
  pose proof (ledger_at_node_at _ _ Hl Hi) as Hn. fold n in Hn.
  unfold bind at 1. unfold bind at 1. rewrite (rd_run _ _ _ Hn). cbn [obind fst snd].
  destruct Hcond as [->|[Hp Hty]]; [reflexivity|].
  assert ((next n =? -1) = false) as -> by (apply Z.eqb_neq; unfold valid in Hp; lia).
  rewrite (bind_rd _ _ _ _ (ledger_at_node_at _ _ Hl Hp)).
  rewrite Hty. reflexivity.
Qed.

(** Forward merge, up to its last statement. *)
Lemma coalesce_forward_run (i : Z) (a : allocator) :
  let l := ledger a in
  let n := node_at l i in
  let x := node_at l (next n) in
  table l -> valid i -> valid (next n) -> type x = H -> next n <> i ->
  exists l2,
    coalesce_forward i a = wr (next x) (set_previous i) (with_ledger l2 a) /\
    table l2 /\
    forall j, node_at l2 j =
      if decide (j = i)
      then mkNode (to_size_t (size n + size x)) (type n) (arena n) (next x) (previous n)
      else node_at l j.
Proof.
  intros l n x Hl Hi Hx Hty Hxi.
  pose proof (ledger_at_node_at _ _ Hl Hi) as Hn. fold l n in Hn.
  pose proof (ledger_at_node_at _ _ Hl Hx) as Hnx. fold l n x in Hnx.
  assert (Hx1 : (next n =? -1) = false) by (apply Z.eqb_neq; unfold valid in Hx; lia).
  unfold valid in Hi, Hx.
  unfold coalesce_forward, next_is_hole.
  unfold bind at 1. unfold bind at 1. rewrite (rd_run _ _ _ Hn). cbn [obind fst snd].
  rewrite Hx1. rewrite (bind_rd _ _ _ _ Hnx), Hty. cbn [is_H ret obind fst snd].
  rewrite (bind_rd _ _ _ _ Hn). rewrite (bind_rd _ _ _ _ Hnx).
  rewrite (bind_wr _ _ _ _ _ Hn). fields.
  erewrite bind_rd by (fields; read_upd; reflexivity). fields.
  erewrite bind_rd by (fields; read_upd; eassumption).
  erewrite bind_wr by (fields; read_upd; reflexivity). fields.
  erewrite bind_rd by (fields; read_upd; reflexivity). fields.
  eexists. split; [reflexivity|]. split; [repeat apply table_upd; assumption|].
  intros j. fold l. node_upd.
  unfold set_size, set_next. fields.
  destruct (decide (j = i)); reflexivity.
Qed.

Lemma separated_unpaired (l : list Node) (xs : list Z) (nxt : Z) :
  forall prv, chain l prv xs nxt ->
    (separated l prv xs <-> forall j, j ∈ xs -> unpaired l j).
Proof.
  induction xs as [|x xs IH]; intros prv Hc; simpl.
  - split; [|auto]. intros _ j Hj. inversion Hj.
  - destruct Hc as (_ & Hp & _ & Hc). rewrite (IH x Hc). split.
    + intros [Hx Hrest] j Hj. apply elem_of_cons in Hj as [->|Hj]; [|auto].
      unfold unpaired. now rewrite Hp.
    + intros Hall. split.
      * rewrite <- Hp. apply Hall. left.
      * intros j Hj. apply Hall. now right.
Qed.

(** Merging the live record [y] into its predecessor [x]: [x] takes the
    bytes of [y] and is linked to [z], the successor of [y]. *)
Lemma well_linked_merge (a a' : allocator) (pre post : list Z) (x y z : Z) :
  let l := ledger a in
  well_linked a (pre ++ x :: y :: z :: post) ->
  table (ledger a') ->
  (forall j, node_at (ledger a') j =
     if decide (j = x)
     then mkNode (to_size_t (size (node_at l x) + size (node_at l y)))
                 (type (node_at l x)) (arena (node_at l x)) z (previous (node_at l x))
     else if decide (j = z) then set_previous x (node_at l z)
     else node_at l j) ->
  ledger_top a' = ledger_top a \/ (y = ledger_top a /\ ledger_top a' = ledger_top a - 1) ->
  traverse_back_ptr a' = traverse_back_ptr a ->
  pool a' = pool a -> pool_size a' = pool_size a ->
  well_linked a' (pre ++ x :: z :: post).
Proof.
  intros l [Hl Hne Hnd Hc Htopb Hbelow Hreach Hzero Hcache Hpool Htiles]
         Hl' HF Htop' Ecache Epool Epsize.
  fold l in Hl, Hc, Hreach, Hzero, Htiles.
  set (l' := ledger a') in *.
  pose proof (chain_valid _ _ _ _ Hc) as Hv.
  apply chain_app in Hc as [Hcpre (Hx & Hpx & Hnx & Hy & Hpy & Hny & Hz & Hpz & Hnz & Hcpost)].
  cbn [head_or] in Hcpre, Hnx, Hny.
  apply NoDup_app in Hnd as (Hndpre & Hdisj & Hnd).
  apply NoDup_cons in Hnd as [Hx_out Hnd].
  apply NoDup_cons in Hnd as [Hy_out Hnd].
  apply NoDup_cons in Hnd as [Hz_out Hndpost].
  assert (Hxz : x <> z) by (intros ->; apply Hx_out; right; left).
  assert (Hyz : y <> z) by (intros ->; apply Hy_out; left).
  assert (Hxy : x <> y) by (intros ->; apply Hx_out; left).
  assert (Fx : node_at l' x = mkNode (to_size_t (size (node_at l x) + size (node_at l y)))
                 (type (node_at l x)) (arena (node_at l x)) z (previous (node_at l x))).
  { rewrite HF. now rewrite decide_True. }
  assert (Fz : node_at l' z = set_previous x (node_at l z)).
  { rewrite HF. rewrite decide_False, decide_True by auto. reflexivity. }
  assert (Fother : forall j, j <> x -> j <> z -> node_at l' j = node_at l j).
  { intros j H1 H2. rewrite HF. now rewrite !decide_False. }
  assert (Hpre_ne : forall j, j ∈ pre -> j <> x /\ j <> z).
  { intros j Hj. split; intros ->; apply (Hdisj _ Hj); [left|right; right; left]. }
  assert (Hpost_ne : forall j, j ∈ post -> j <> x /\ j <> z).
  { intros j Hj. split; intros ->; [apply Hx_out; right; now right|contradiction]. }
  assert (Hc' : chain l' (-1) (pre ++ x :: z :: post) (-1)).
  { apply chain_app. split.
    - cbn [head_or]. eapply chain_ext; [|exact Hcpre]. intros j Hj.
      destruct (Hpre_ne j Hj). now rewrite Fother.
    - cbn [chain head_or]. rewrite Fx, Fz. fields.
      do 3 (split; [auto|]). do 3 (split; [auto|]).
      eapply chain_ext; [|exact Hcpost]. intros j Hj.
      destruct (Hpost_ne j Hj). now rewrite Fother. }
  assert (Ehd : head_or 0 (pre ++ x :: z :: post) = head_or 0 (pre ++ x :: y :: z :: post)).
  { destruct pre; reflexivity. }
  assert (Hsub : forall j, j ∈ pre ++ x :: z :: post -> j ∈ pre ++ x :: y :: z :: post).
  { intros j Hj. apply elem_of_app in Hj as [Hj|Hj]; apply elem_of_app; [now left|right].
    apply elem_of_cons in Hj as [->|Hj]; [left|right; now right]. }
  assert (Htransfer : forall j, reaches l (head_or 0 (pre ++ x :: y :: z :: post)) j ->
                                reaches l' (head_or 0 (pre ++ x :: z :: post)) j).
  { rewrite Ehd. apply reaches_transfer; [|constructor]. intros j Hj _.
    destruct (decide (j = z)) as [->|H1].
    { right. rewrite <- Ehd. apply chain_live_reaches; [assumption|].
      apply elem_of_app. right. right. left. }
    left. destruct (decide (j = x)) as [->|H2]; [now rewrite Fx|now rewrite Fother]. }
  apply tiles_app in Htiles as (mid & Htpre & Hax & Hsx & Hay & Hsy & Htpost).
  pose proof (tiles_le _ _ _ _ Htpre) as Hle1. pose proof (tiles_le _ _ _ _ Htpost) as Hle2.
  constructor; rewrite ?Ecache, ?Epool, ?Epsize, ?Ealg; fold l'.
  - assumption.
  - destruct pre; discriminate.
  - apply NoDup_app. split; [assumption|]. split.
    + intros j Hj Hin. apply (Hdisj j Hj).
      apply elem_of_cons in Hin as [->|Hin]; [left|right; now right].
    + apply NoDup_cons. split; [|now apply NoDup_cons].
      intros Hin. apply Hx_out. now right.
  - assumption.
  - destruct Htop' as [->|[_ ->]]; lia.
  - intros j Hj. pose proof (Hbelow j (Hsub j Hj)) as Hjt.
    destruct Htop' as [->|[Ey ->]]; [assumption|].
    assert (j <> y); [|lia].
    intros ->. apply elem_of_app in Hj as [Hj|Hj].
    + apply (Hdisj _ Hj). right. left.
    + apply elem_of_cons in Hj as [?|Hj]; [congruence|]. contradiction.
  - intros j Hj. destruct (Hreach j Hj) as [Hr|[Hn Hnot]]; [left; now apply Htransfer|].
    right. assert (j <> x) by (intros ->; apply Hnot, elem_of_app; right; left).
    assert (j <> z) by (intros ->; apply Hnot, elem_of_app; right; right; right; left).
    rewrite Fother by assumption. split; [assumption|]. intros Hin. apply Hnot, Hsub, Hin.
  - now apply Htransfer.
  - assumption.
  - assumption.
  - apply tiles_app. exists mid. split.
    + eapply tiles_ext; [|exact Htpre]. intros j Hj. destruct (Hpre_ne j Hj).
      now rewrite Fother.
    + cbn [tiles] in Htpost |- *. destruct Htpost as (Haz & Hsz & Htpost).
      pose proof (tiles_le _ _ _ _ Htpost) as Hle3.
      rewrite Fx, Fz. fields.
      rewrite to_size_t_small by lia.
      split; [assumption|]. split; [lia|]. split; [lia|]. split; [lia|].
      replace (mid + (size (node_at l x) + size (node_at l y)) + size (node_at l z))
        with (mid + size (node_at l x) + size (node_at l y) + size (node_at l z)) by lia.
      eapply tiles_ext; [|exact Htpost]. intros j Hj.
      destruct (Hpost_ne j Hj). now rewrite Fother.
Qed.

(** In a segment, the record whose [previous] is [i] is the one [i]
    points to with [next]. *)
Lemma chain_pred_succ (l : list Node) (xs : list Z) (prv nxt i j : Z) :
  chain l prv xs nxt -> j ∈ xs -> previous (node_at l j) = i -> i <> prv ->
  next (node_at l i) = j.
Proof.
  intros Hc Hj Hp Hi. apply list_elem_of_split in Hj as (pre & post & ->).
  destruct (snoc_cases pre) as [->|(pre' & i' & ->)].
  - destruct Hc as (_ & Hp' & _). congruence.
  - rewrite <- app_assoc in Hc. cbn [app] in Hc.
    apply chain_app in Hc as [_ (_ & _ & Hn & (_ & Hp' & _))]. cbn [head_or] in Hn.
    congruence.
Qed.

(** The backward step of [mavalloc_free] on a well-linked ledger in which
    only the pairs around [i] may be two Holes. *)
Lemma coalesce_backwards_well_linked (a a' : allocator) (live : list Z) (i i' : Z) :
  well_linked a live -> i ∈ live ->
  (forall j, j ∈ live -> j <> i -> j <> next (node_at (ledger a) i) -> unpaired (ledger a) j) ->
  coalesce_backwards i a = Done (i', a') ->
  exists live',
    well_linked a' live' /\ i' ∈ live' /\
    (forall j, j ∈ live' -> j <> next (node_at (ledger a') i') -> unpaired (ledger a') j).
Proof.
  intros Hwl Hi Hsep E.
  pose proof (wl_table _ _ Hwl) as Hl. pose proof (wl_chain _ _ Hwl) as Hc.
  pose proof (wl_nodup _ _ Hwl) as Hnd.
  pose proof (chain_valid _ _ _ _ Hc) as Hv.
  set (l := ledger a) in *. set (n := node_at l i).
  pose proof Hi as Hsplit. apply list_elem_of_split in Hsplit as (pre & post & Elive).
  assert (Hskip : previous n = -1 \/
                  (valid (previous n) /\ type (node_at l (previous n)) = P) ->
                  exists live', well_linked a' live' /\ i' ∈ live' /\
                    (forall j, j ∈ live' -> j <> next (node_at (ledger a') i') ->
                               unpaired (ledger a') j)).
  { intros Hcond. rewrite (coalesce_backwards_skip i a Hl (Hv i Hi) Hcond) in E.
    injection E as <- <-. exists live. split; [assumption|]. split; [assumption|].
    intros j Hj Hne. destruct (decide (j = i)) as [->|Hji]; [|now apply Hsep].
    unfold unpaired. fold l n. intros [Hh _]. unfold hole in Hh.
    destruct Hcond as [Ep|[_ Ety]].
    - rewrite Ep in Hh. now apply (hole_sentinel l).
    - rewrite Ety in Hh. discriminate. }
  subst live.
  destruct (snoc_cases pre) as [->|(pre' & p & ->)].
  { apply Hskip. left. destruct Hc as (_ & Hp & _). exact Hp. }
  rewrite <- app_assoc in *. cbn [app] in *.
  pose proof Hc as Hc0.
  apply chain_app in Hc as [_ (Hp & _ & Hnp & (_ & Hpi & Hni & _))]. cbn [head_or] in Hnp.
  fold n in Hpi, Hni.
  destruct (type (node_at l p)) eqn:Ety.
  { apply Hskip. right. rewrite Hpi. auto. }
  assert (Hpne : p <> i).
  { apply NoDup_app in Hnd as (_ & _ & Hnd). apply NoDup_cons in Hnd as [Hnd _].
    intros ->. apply Hnd. left. }
  destruct (coalesce_backwards_run i a Hl (Hv i Hi)) as (l3 & Erun & Hl3 & HF3);
    fold l n; rewrite ?Hpi; try assumption.
  fold l n in Erun. rewrite Hpi in Erun. rewrite Erun in E.
  assert (HF3' : forall j, node_at l3 j =
            if decide (j = p)
            then mkNode (to_size_t (size (node_at l p) + size n)) (type (node_at l p))
                        (arena (node_at l p)) (next n) (previous (node_at l p))
            else node_at l j).
  { intros j. rewrite HF3. fold l n. rewrite Hpi. reflexivity. }
  clear HF3.
  destruct (decide (valid (next n))) as [Hz|Hz];
    [|unfold bind in E; rewrite wr_invalid in E by assumption; discriminate].
  unfold bind in E. rewrite wr_valid in E by (fields; assumption).
  cbn [obind fst snd ret] in E. fields. injection E as <- <-.
  destruct post as [|z post]; [unfold valid in Hz; cbn in Hni; lia|].
  cbn [head_or] in Hni. rewrite Hni in *.
  assert (Hzp : z <> p).
  { apply NoDup_app in Hnd as (_ & _ & Hnd). apply NoDup_cons in Hnd as [Hnd _].
    intros ->. apply Hnd. right. left. }
  assert (HF : forall j, node_at (<[Z.to_nat z := set_previous p (node_at l3 z)]> l3) j =
     if decide (j = p)
     then mkNode (to_size_t (size (node_at l p) + size (node_at l i)))
                 (type (node_at l p)) (arena (node_at l p)) z (previous (node_at l p))
     else if decide (j = z) then set_previous p (node_at l z)
     else node_at l j).
  { intros j. rewrite node_at_upd by assumption. rewrite !HF3'. fold n. rewrite ?Hni.
    repeat destruct (decide _); congruence. }
  exists (pre' ++ p :: z :: post).
  assert (Hwl' : well_linked
            (with_ledger (<[Z.to_nat z := set_previous p (node_at l3 z)]> l3)
               (with_ledger l3 (with_ledger_top
                  (if i =? ledger_top a then ledger_top a - 1 else ledger_top a) a)))
            (pre' ++ p :: z :: post)).
  { eapply (well_linked_merge a _ pre' post p i z); fields;
      try reflexivity; try assumption.
    - now apply table_upd.
    - destruct (i =? ledger_top a) eqn:Etop; [right|now left].
      apply Z.eqb_eq in Etop. auto. }
  split; [exact Hwl'|]. split; [apply elem_of_app; right; left|].
  fields. intros j Hj Hne. rewrite (HF p) in Hne. rewrite decide_True in Hne by reflexivity.
  cbn [next] in Hne.
  assert (Hjl : j ∈ pre' ++ p :: i :: z :: post).
  { apply elem_of_app in Hj as [Hj|Hj]; apply elem_of_app; [now left|right].
    apply elem_of_cons in Hj as [->|Hj]; [left|right; now right]. }
  assert (Hji : j <> i).
  { intros ->. apply NoDup_app in Hnd as (_ & Hdisj & Hnd).
    apply NoDup_cons in Hnd as [_ Hnd]. apply NoDup_cons in Hnd as [Hnd _].
    apply elem_of_app in Hj as [Hj|Hj].
    - apply (Hdisj i Hj). right. left.
    - apply elem_of_cons in Hj as [?|Hj]; [congruence|contradiction]. }
  assert (Hold : unpaired l j) by (apply Hsep; fold l n; rewrite ?Hni; assumption).
  assert (Hty : forall k, hole (<[Z.to_nat z := set_previous p (node_at l3 z)]> l3) k <-> hole l k).
  { intros k. unfold hole. rewrite HF.
    destruct (decide (k = p)) as [->|]; [reflexivity|].
    destruct (decide (k = z)) as [->|]; reflexivity. }
  assert (Hpj : previous (node_at (<[Z.to_nat z := set_previous p (node_at l3 z)]> l3) j) =
                previous (node_at l j)).
  { rewrite HF. destruct (decide (j = p)) as [->|]; [reflexivity|].
    now rewrite decide_False. }
  unfold unpaired in *. rewrite Hpj, !Hty. exact Hold.
Qed.

(** The forward step of [mavalloc_free] restores the separation of
    Holes. *)
Lemma coalesce_forward_well_formed (a a' : allocator) (live : list Z) (i : Z) :
  well_linked a live -> i ∈ live ->
  (forall j, j ∈ live -> j <> next (node_at (ledger a) i) -> unpaired (ledger a) j) ->
  coalesce_forward i a = Done (tt, a') ->
  exists live', well_formed a' live'.
Proof.
  intros Hwl Hi Hsep E.
  pose proof (wl_table _ _ Hwl) as Hl. pose proof (wl_chain _ _ Hwl) as Hc.
  pose proof (wl_nodup _ _ Hwl) as Hnd.
  pose proof (chain_valid _ _ _ _ Hc) as Hv.
  set (l := ledger a) in *. set (n := node_at l i).
  pose proof Hi as Hsplit. apply list_elem_of_split in Hsplit as (pre & post & Elive).
  assert (Hskip : next n = -1 \/ (valid (next n) /\ type (node_at l (next n)) = P) ->
                  exists live', well_formed a' live').
  { intros Hcond. rewrite (coalesce_forward_skip i a Hl (Hv i Hi) Hcond) in E.
    injection E as <-. exists live. split; [assumption|].
    apply (separated_unpaired _ _ _ _ Hc). intros j Hj.
    destruct (decide (j = next n)) as [->|Hne]; [|now apply Hsep].
    destruct Hcond as [Ep|[_ Ety]].
    - specialize (Hv _ Hj). unfold valid in Hv. lia.
    - unfold unpaired, hole. fold l. rewrite Ety. intros [_ ?]. discriminate. }
  subst live.
  pose proof Hc as Hc0.
  apply chain_app in Hc as [_ (_ & _ & Hni & Hcpost)]. fold n in Hni.
  destruct post as [|y post]; [apply Hskip; now left|].
  cbn [head_or] in Hni. destruct Hcpost as (Hy & Hpy & Hny & Hcpost).
  destruct (type (node_at l y)) eqn:Ety.
  { apply Hskip. right. rewrite Hni. auto. }
  assert (Hyi : y <> i).
  { apply NoDup_app in Hnd as (_ & _ & Hnd). apply NoDup_cons in Hnd as [Hnd _].
    intros ->. apply Hnd. left. }
  destruct (coalesce_forward_run i a Hl (Hv i Hi)) as (l2 & Erun & Hl2 & HF2);
    fold l n; rewrite ?Hni; try assumption.
  fold l n in Erun. rewrite Hni in Erun. rewrite Erun in E.
  assert (HF2' : forall j, node_at l2 j =
            if decide (j = i)
            then mkNode (to_size_t (size n + size (node_at l y))) (type n)
                        (arena n) (next (node_at l y)) (previous n)
            else node_at l j).
  { intros j. rewrite HF2. fold l n. rewrite Hni. reflexivity. }
  clear HF2.
  destruct (decide (valid (next (node_at l y)))) as [Hz|Hz];
    [|rewrite wr_invalid in E by assumption; discriminate].
  rewrite wr_valid in E by (fields; assumption). fields. injection E as <-.
  destruct post as [|z post]; [unfold valid in Hz; cbn in Hny; lia|].
  cbn [head_or] in Hny. rewrite Hny in *.
  pose proof Hcpost as (_ & Hpz & _).
  assert (Hzi : z <> i).
  { apply NoDup_app in Hnd as (_ & _ & Hnd). apply NoDup_cons in Hnd as [Hnd _].
    intros ->. apply Hnd. right. left. }
  assert (Hzy : z <> y).
  { apply NoDup_app in Hnd as (_ & _ & Hnd). apply NoDup_cons in Hnd as [_ Hnd].
    apply NoDup_cons in Hnd as [Hnd _]. intros ->. apply Hnd. left. }
  set (l' := <[Z.to_nat z := set_previous i (node_at l2 z)]> l2) in *.
  assert (HF : forall j, node_at l' j =
     if decide (j = i)
     then mkNode (to_size_t (size (node_at l i) + size (node_at l y)))
                 (type (node_at l i)) (arena (node_at l i)) z (previous (node_at l i))
     else if decide (j = z) then set_previous i (node_at l z)
     else node_at l j).
  { intros j. unfold l'. rewrite node_at_upd by assumption. rewrite !HF2'. fold n. rewrite ?Hny.
    repeat destruct (decide _); congruence. }
  exists (pre ++ i :: z :: post).
  assert (Hwl' : well_linked (with_ledger l' (with_ledger l2 a)) (pre ++ i :: z :: post)).
  { eapply (well_linked_merge a _ pre post i y z); fields;
      try reflexivity; try assumption.
    - now apply table_upd.
    - now left. }
  split; [exact Hwl'|]. fields.
  apply (separated_unpaired _ _ _ _ (wl_chain _ _ Hwl')). fields.
  assert (Hty : forall k, hole l' k <-> hole l k).
  { intros k. unfold hole. rewrite HF.
    destruct (decide (k = i)) as [->|]; [reflexivity|].
    destruct (decide (k = z)) as [->|]; reflexivity. }
  intros j Hj.
  assert (Hjl : j ∈ pre ++ i :: y :: z :: post).
  { apply elem_of_app in Hj as [Hj|Hj]; apply elem_of_app; [now left|right].
    apply elem_of_cons in Hj as [->|Hj]; [left|right; now right]. }
  destruct (decide (j = z)) as [->|Hjz].
  - unfold unpaired. rewrite (HF z), decide_False, decide_True by auto.
    cbn [set_previous previous]. rewrite !Hty. intros [_ Hhz].
    apply (Hsep z Hjl); [fold l n; rewrite Hni; assumption|].
    unfold unpaired. fold l. rewrite Hpz. split; [exact Ety|exact Hhz].
  - assert (Hjy : j <> y).
    { intros ->. apply NoDup_app in Hnd as (_ & Hdisj & Hnd).
      apply NoDup_cons in Hnd as [Hiout Hnd]. apply NoDup_cons in Hnd as [Hyout _].
      apply elem_of_app in Hj as [Hj|Hj].
      - apply (Hdisj y Hj). right. left.
      - apply elem_of_cons in Hj as [?|Hj]; [congruence|contradiction]. }
    assert (Hold : unpaired l j) by (apply Hsep; fold l n; rewrite ?Hni; assumption).
    assert (Hpj : previous (node_at l' j) = previous (node_at l j)).
    { rewrite HF. destruct (decide (j = i)) as [->|]; [reflexivity|].
      now rewrite decide_False. }
    unfold unpaired in *. rewrite Hpj, !Hty. exact Hold.
Qed.

(** [mavalloc_free] keeps the ledger well formed. *)
Lemma free_well_formed (ptr : Z) (a a' : allocator) (live : list Z) :
  well_formed a live ->
  mavalloc_free ptr a = Done (tt, a') ->
  exists live', well_formed a' live'.
Proof.
  intros [Hwl Hsep] E. unfold mavalloc_free, mavalloc_free_with in E.
  destruct (ptr =? NULL); [injection E as <-; exists live; now split|].
  fold traverse_back in E.
  rewrite (bind_run _ _ _ _ _ (traverse_back_well_linked a live Hwl)) in E.
  set (a1 := with_traverse_back_ptr (head_or 0 live) a) in *.
  assert (Hwl1 : well_linked a1 live).
  { apply well_linked_cache; [assumption|]. apply (well_linked_head a live Hwl). }
  pose proof (wl_table _ _ Hwl1) as Hl. pose proof (wl_chain _ _ Hwl1) as Hc.
  pose proof (chain_valid _ _ _ _ Hc) as Hv.
  apply bind_Done in E as (i & a1' & Es & E). apply lift_Done in Es as [Es ->].
  assert (Hi : i = -1 \/ i ∈ live).
  { assert (Hhd : head_or 0 live = head_or (-1) live).
    { pose proof (wl_live _ _ Hwl). destruct live; [contradiction|reflexivity]. }
    rewrite Hhd in Es. eapply free_search_chain; eauto. }
  destruct Hi as [->|Hi]; [injection E as <-; exists live; now split|].
  assert ((i =? -1) = false) as Ei.
  { apply Z.eqb_neq. specialize (Hv i Hi). unfold valid in Hv. lia. }
  rewrite Ei in E. cbn [negb] in E.
  rewrite (bind_run _ _ _ _ _ (wr_valid _ _ _ Hl (Hv i Hi))) in E.
  set (l := ledger a1) in *.
  set (l2 := <[Z.to_nat i := set_type H (node_at l i)]> l) in *.
  assert (HF : forall j, node_at l2 j = if decide (j = i) then set_type H (node_at l i)
                                        else node_at l j).
  { intros j. unfold l2. now rewrite node_at_upd by auto. }
  assert (Hwl2 : well_linked (with_ledger l2 a1) live).
  { apply well_linked_same_links; [assumption|now apply table_upd|].
    intros j _. fold l. rewrite HF. destruct (decide (j = i)) as [->|]; auto. }
  apply bind_Done in E as (i' & a3 & Eb & Ef).
  destruct (coalesce_backwards_well_linked (with_ledger l2 a1) a3 live i i' Hwl2 Hi)
    as (live3 & Hwl3 & Hi3 & Hsep3);
    [|exact Eb|eapply coalesce_forward_well_formed; eauto].
  fields. intros j Hj Hji Hjn.
  rewrite (HF i), decide_True in Hjn by reflexivity. cbn [set_type next] in Hjn.
  assert (Hold : unpaired l j) by (apply (separated_unpaired _ _ _ _ Hc); assumption).
  unfold unpaired, hole in *. rewrite !HF. rewrite (decide_False _ _ Hji).
  destruct (decide (previous (node_at l j) = i)) as [Epi|_]; [|exact Hold].
  exfalso. apply Hjn. symmetry. eapply chain_pred_succ; eauto.
  specialize (Hv i Hi). unfold valid in Hv. lia.
Qed.

(** ** Initialisation and reachable states *)

Lemma boot_storage_ok : storage_ok boot.
Proof.
  split.
  - unfold table, boot. fields. apply length_replicate.
  - unfold boot, valid, MAX_ALLOCS. fields. lia.
Qed.

Lemma well_formed_storage_ok (a : allocator) (live : list Z) :
  well_formed a live -> storage_ok a.
Proof. intros [[] _]. split; assumption. Qed.

Lemma init_run (m size0 : Z) (alg : ALGORITHM) (a : allocator) :
  table (ledger a) -> m <> NULL ->
  exists l',
    mavalloc_init m size0 alg a =
      Done (0, mkAllocator m (ALIGN4 (to_size_t size0)) alg 0 l'
                 (traverse_back_ptr a) (next_fit_last_ptr a) (m :: heap a)) /\
    table l' /\
    node_at l' 0 = mkNode (ALIGN4 (to_size_t size0)) H m (-1) (-1) /\
    forall j, valid j -> j <> 0 ->
      previous (node_at l' j) = -1 /\ next (node_at l' j) = -1.
Proof.
  intros Hl Hm. unfold mavalloc_init.
  rewrite bind_modify, init_guard_is_dead, !bind_modify, bind_gets.
  unfold libc_malloc. fields. rewrite (proj2 (Z.eqb_neq _ _) Hm). fields.
  rewrite bind_modify, bind_gets. fields.
  assert (H0 : valid 0) by (unfold valid, MAX_ALLOCS; lia).
  pose proof (eq_refl : MAX_ALLOCS = 10000) as HMAX.
  erewrite bind_wr by (fields; apply (ledger_at_node_at _ _ Hl H0)). fields.
  do 4 (erewrite bind_wr by (fields; read_upd; reflexivity); fields).
  rewrite bind_modify. fields. unfold ret.
  set (l5 := <[Z.to_nat 0 := _]> _).
  assert (Hl5 : table l5) by (unfold l5; repeat apply table_upd; assumption).
  assert (H5 : l5 !! 0%nat = Some (mkNode (ALIGN4 (to_size_t size0)) H m (-1) (-1))).
  { assert (E5 : ledger_at 0 l5 = Done (mkNode (ALIGN4 (to_size_t size0)) H m (-1) (-1))).
    { unfold l5. read_upd. reflexivity. }
    apply ledger_at_Done in E5 as [_ E5]. exact E5. }
  eexists. split; [reflexivity|].
  assert (Hlen : length (take 1 l5) = 1%nat).
  { rewrite length_take. unfold table in Hl5. unfold MAX_ALLOCS in Hl5. lia. }
  split; [|split].
  - unfold table. rewrite length_app, length_map, length_drop, Hlen.
    unfold table in Hl5. unfold MAX_ALLOCS in *. lia.
  - unfold node_at, ledger_at. cbn [valid_subscript Z.leb Z.ltb Z.compare MAX_ALLOCS andb Z.to_nat].
    change (Z.to_nat 0) with 0%nat.
    rewrite lookup_app_l by lia. rewrite lookup_take_lt by lia. now rewrite H5.
  - intros j Hj Hj0. unfold node_at, ledger_at.
    assert (valid_subscript j = true) as ->.
    { unfold valid_subscript. unfold valid in Hj. apply andb_true_iff. split; lia. }
    unfold valid in Hj.
    rewrite lookup_app_r by lia. rewrite Hlen, list_lookup_fmap, lookup_drop.
    destruct (l5 !! (1 + (Z.to_nat j - 1))%nat) as [n|] eqn:E; cbn; auto.
    apply lookup_ge_None in E. unfold table in Hl5. lia.
Qed.

(** A successful [mavalloc_init] with a strategy other than next-fit
    leaves a well-formed ledger: one Hole spanning the pool. *)
Lemma init_well_formed (m size0 : Z) (alg : ALGORITHM) (a a' : allocator) :
  storage_ok a ->
  0 < m -> m + ALIGN4 (to_size_t size0) <= 2 ^ 64 ->
  mavalloc_init m size0 alg a = Done (0, a') ->
  well_formed a' [0].
Proof.
  intros [Hl Hcache] Hm Hend E.
  destruct (init_run m size0 alg a Hl) as (l' & E' & Hl' & H0 & Hrest); [unfold NULL; lia|].
  rewrite E' in E. injection E as <-.
  assert (Hv0 : valid 0) by (unfold valid, MAX_ALLOCS; lia).
  pose proof (ALIGN4_range (to_size_t size0)) as Hr.
  split; [constructor|]; fields; try assumption.
  - discriminate.
  - apply NoDup_singleton.
  - cbn [chain head_or]. rewrite H0. cbn. auto.
  - unfold MAX_ALLOCS. lia.
  - intros j Hj. apply list_elem_of_singleton in Hj as ->. lia.
  - intros j Hj. destruct (decide (j = 0)) as [->|Hj0]; [left; constructor|right].
    split; [now apply Hrest|]. intros Hin. apply list_elem_of_singleton in Hin. contradiction.
  - constructor.
  - split; assumption.
  - cbn [tiles]. rewrite H0. cbn. repeat split; lia.
  - cbn [separated]. split; [|exact I]. intros [Hh _]. now apply hole_sentinel in Hh.
Qed.

(** Only [mavalloc_init] and [mavalloc_destroy] write [pool], [pool_size]
    or [alloc_algorithm]. *)
Lemma keeps_ret {A : Type} (x : A) : keeps_config (ret x).
Proof. intros a a' r [= <- <-]. auto. Qed.

Lemma keeps_gets {A : Type} (f : allocator -> A) : keeps_config (gets f).
Proof. intros a a' r [= <- <-]. auto. Qed.

Lemma keeps_lift {A : Type} (c : list Node -> outcome A) : keeps_config (lift c).
Proof. intros a a' r E. apply lift_Done in E as [_ ->]. auto. Qed.

Lemma keeps_wr (i : Z) (f : Node -> Node) : keeps_config (wr i f).
Proof.
  intros a a' r E. unfold wr in E. apply obind_Done in E as (l & _ & E).
  injection E as _ <-. auto.
Qed.

Lemma keeps_modify (f : allocator -> allocator) :
  (forall a, pool (f a) = pool a /\ pool_size (f a) = pool_size a /\
             alloc_algorithm (f a) = alloc_algorithm a) ->
  keeps_config (modify f).
Proof. intros Hf a a' r E. injection E as _ <-. apply Hf. Qed.

Lemma keeps_bind {A B : Type} (c : M A) (k : A -> M B) :
  keeps_config c -> (forall x, keeps_config (k x)) -> keeps_config (bind c k).
Proof.
  intros Hc Hk a a' r E. apply bind_Done in E as (x & a1 & E1 & E2).
  destruct (Hc _ _ _ E1) as (? & ? & ?). destruct (Hk x _ _ _ E2) as (? & ? & ?).
  repeat split; congruence.
Qed.

Ltac keeps :=
  repeat first
    [ apply keeps_bind; [|intros ?]
    | apply keeps_ret | apply keeps_gets | apply keeps_lift | apply keeps_wr
    | apply keeps_modify; intros ?; fields; auto
    | match goal with
      | |- keeps_config (if ?b then _ else _) => destruct b
      | |- keeps_config (match ?x with _ => _ end) => destruct x
      end ].

Lemma traverse_back_keeps_config (k : nat) : keeps_config (traverse_back_with k).
Proof. unfold traverse_back_with. keeps. Qed.

Lemma select_hole_keeps_config (sz : Z) : keeps_config (select_hole sz).
Proof.
  intros a a' r E. apply select_hole_same in E as (_ & _ & ? & ? & ?). auto.
Qed.

Lemma alloc_keeps_config (size0 : Z) : keeps_config (mavalloc_alloc size0).
Proof.
  unfold mavalloc_alloc. cbv zeta.
  apply keeps_bind; [apply select_hole_keeps_config|intros idx]. keeps.
Qed.

Lemma free_keeps_config (ptr : Z) : keeps_config (mavalloc_free ptr).
Proof.
  unfold mavalloc_free, mavalloc_free_with.
  destruct (ptr =? NULL); [apply keeps_ret|].
  apply keeps_bind; [apply traverse_back_keeps_config|intros hd].
  unfold coalesce_backwards, coalesce_forward, previous_is_hole, next_is_hole. keeps.
Qed.

Lemma reachable_algorithm (a : allocator) : reachable a -> alloc_algorithm a <> NEXT_FIT.
Proof.
  induction 1 as [a0 a m size0 alg [Hl _] Hm _ Halg E|a a' size0 r _ IH E|a a' ptr _ IH E].
  - destruct (init_run m size0 alg a0 Hl) as (l' & E' & _); [unfold NULL; lia|].
    rewrite E' in E. injection E as <-. exact Halg.
  - destruct (alloc_keeps_config _ _ _ _ E) as (_ & _ & ->). exact IH.
  - destruct (free_keeps_config _ _ _ _ E) as (_ & _ & ->). exact IH.
Qed.

Lemma reachable_well_formed (a : allocator) :
  reachable a -> exists live, well_formed a live.
Proof.
  induction 1 as [a0 a m size0 alg Hs Hm Hend Halg E
                 |a a' size0 r Hr [live IH] E
                 |a a' ptr _ [live IH] E].
  - exists [0]. eapply init_well_formed; eauto.
  - eapply alloc_well_formed; eauto using reachable_algorithm.
  - eapply free_well_formed; eauto.
Qed.

(** ** From the ledger to the caller's view *)

Lemma laid_bounds (bs : list block) :
  forall (from to : Z), laid from bs to ->
    from <= to /\ forall b, b ∈ bs -> from <= offset b /\ offset b + extent b <= to.
Proof.
  induction bs as [|b bs IH]; intros from to; simpl.
  - intros ->. split; [lia|]. intros b Hb. inversion Hb.
  - intros (Ho & He & Hl). destruct (IH _ _ Hl) as [Hle Hin]. split; [lia|].
    intros b' Hb'. apply elem_of_cons in Hb' as [->|Hb']; [lia|].
    specialize (Hin b' Hb'). lia.
Qed.

Lemma laid_ordered (bs : list block) :
  forall (from to : Z) (i j : nat) (b b' : block),
    laid from bs to -> (i < j)%nat -> bs !! i = Some b -> bs !! j = Some b' ->
    offset b + extent b <= offset b'.
Proof.
  induction bs as [|b0 bs IH]; intros from to i j b b' Hl Hij Hi Hj; [discriminate|].
  destruct Hl as (Ho & He & Hl). destruct j as [|j]; [lia|]. cbn in Hj.
  destruct i as [|i].
  - injection Hi as <-. destruct (laid_bounds _ _ _ Hl) as [_ Hin].
    assert (Hb' : b' ∈ bs) by (eapply list_elem_of_lookup_2; eauto).
    specialize (Hin b' Hb'). lia.
  - cbn in Hi. apply (IH _ _ i j b b' Hl); [lia|assumption|assumption].
Qed.

Lemma laid_pairwise_disjoint (bs : list block) (from to : Z) :
  laid from bs to -> pairwise_disjoint bs.
Proof.
  intros Hl i j b b' Hij Hi Hj (x & Hx & Hx').
  destruct (Nat.lt_total i j) as [Hlt|[?|Hlt]]; [|contradiction|].
  - pose proof (laid_ordered _ _ _ _ _ _ _ Hl Hlt Hi Hj). lia.
  - pose proof (laid_ordered _ _ _ _ _ _ _ Hl Hlt Hj Hi). lia.
Qed.

Lemma laid_covers (bs : list block) :
  forall (from to : Z), laid from bs to ->
    forall x, from <= x < to <-> exists b, b ∈ bs /\ offset b <= x < offset b + extent b.
Proof.
  induction bs as [|b bs IH]; intros from to; simpl.
  - intros -> x. split; [lia|]. intros (b & Hb & _). inversion Hb.
  - intros (Ho & He & Hl) x. pose proof (laid_bounds _ _ _ Hl) as [Hle _]. split.
    + intros Hx. destruct (decide (x < from + extent b)) as [Hlt|Hge].
      * exists b. split; [left|lia].
      * destruct (proj1 (IH _ _ Hl x)) as (b' & Hb' & Hx'); [lia|].
        exists b'. split; [now right|assumption].
    + intros (b' & Hb' & Hx). apply elem_of_cons in Hb' as [->|Hb']; [lia|].
      assert (from + extent b <= x < to); [|lia].
      apply (IH _ _ Hl x). eauto.
Qed.

Lemma tiles_laid (a : allocator) (xs : list Z) :
  forall (from to : Z),
    tiles (ledger a) from xs to ->
    laid (from - pool a) (map (block_of a) (map (node_at (ledger a)) xs)) (to - pool a).
Proof.
  induction xs as [|x xs IH]; intros from to; simpl.
  - intros ->. reflexivity.
  - intros (Ha & Hs & Ht). rewrite Ha. do 2 (split; [auto|]).
    replace (from - pool a + size (node_at (ledger a) x))
      with (from + size (node_at (ledger a) x) - pool a) by lia.
    now apply IH.
Qed.

Lemma separated_no_adjacent_holes (a : allocator) (xs : list Z) :
  forall prv, separated (ledger a) prv xs ->
    no_adjacent_holes (map (block_of a) (map (node_at (ledger a)) xs)).
Proof.
  induction xs as [|x xs IH]; intros prv Hs i b b' Hi Hi'; [discriminate|].
  destruct Hs as [_ Hs]. destruct i as [|i].
  - cbn in Hi. injection Hi as <-. destruct xs as [|y ys]; [discriminate|].
    cbn in Hi'. injection Hi' as <-. destruct Hs as [Hxy _]. exact Hxy.
  - cbn in Hi, Hi'. eapply IH; eauto.
Qed.

Lemma blocks_well_linked (a : allocator) (live : list Z) :
  well_linked a live ->
  blocks a = Done (map (block_of a) (map (node_at (ledger a)) live)).
Proof.
  intros Hwl. unfold blocks. rewrite (live_list_well_linked a live Hwl). cbn [obind].
  rewrite nodes_at_chain; [reflexivity|apply (wl_table _ _ Hwl)|].
  apply (chain_valid _ _ _ _ (wl_chain _ _ Hwl)).
Qed.

(** Invariant 1 holds in every well-formed state. *)
Lemma well_formed_partition (a : allocator) (live : list Z) :
  well_formed a live -> partition_invariant a.
Proof.
  intros [Hwl _]. eexists. split; [apply (blocks_well_linked a live Hwl)|].
  pose proof (tiles_laid a live _ _ (wl_tiles _ _ Hwl)) as Hlaid.
  replace (pool a - pool a) with 0 in Hlaid by lia.
  replace (pool a + pool_size a - pool a) with (pool_size a) in Hlaid by lia.
  split.
  - eapply laid_pairwise_disjoint, Hlaid.
  - intros x. apply (laid_covers _ _ _ Hlaid).
Qed.

(** Invariant 2 holds in every well-formed state. *)
Lemma well_formed_coalesced (a : allocator) (live : list Z) :
  well_formed a live -> coalesced_invariant a.
Proof.
  intros [Hwl Hsep]. eexists. split; [apply (blocks_well_linked a live Hwl)|].
  eapply separated_no_adjacent_holes, Hsep.
Qed.

(** In a segment that starts the list, the first record is the only one
    whose [previous] is the sentinel. *)
Lemma chain_unique_head (l : list Node) (x : Z) (xs : list Z) (nxt j : Z) :
  chain l (-1) (x :: xs) nxt -> j ∈ x :: xs ->
  (previous (node_at l j) = -1 <-> j = x).
Proof.
  intros Hc Hj. split; [|intros ->; apply Hc].
  intros Hp. apply elem_of_cons in Hj as [?|Hj]; [assumption|exfalso].
  apply list_elem_of_split in Hj as (pre & post & ->).
  change (x :: pre ++ j :: post) with ((x :: pre) ++ j :: post) in Hc.
  pose proof (chain_valid _ _ _ _ Hc) as Hv.
  apply chain_app in Hc as [_ (_ & Hpj & _)].
  pose proof (last_or_cons_elem x pre) as Hin. cbn [last_or] in Hpj.
  rewrite Hp in Hpj. rewrite <- Hpj in Hin.
  assert (valid (-1)) as Hbad by (apply Hv, elem_of_app; now left).
  unfold valid in Hbad. lia.
Qed.

(** X7.  The invariants of the specification, for first-, best- and worst-fit:
    in every state reached by calls that stayed inside the table, the live
    blocks partition the pool, no two neighbours are both Holes, and
    [traverse_back] returns the head of the live list, the one live record
    whose [previous] is the sentinel, whatever index its cache holds. *)
Theorem reachable_invariants (a : allocator) :
  reachable a ->
  partition_invariant a /\
  coalesced_invariant a /\
  exists (hd : Z) (rest : list Z),
    live_list a = Done (hd :: rest) /\
    traverse_back a = Done (hd, with_traverse_back_ptr hd a) /\
    arena (node_at (ledger a) hd) = pool a /\
    forall j, j ∈ hd :: rest -> (previous (node_at (ledger a) j) = -1 <-> j = hd).
Proof.
  intros Hr. destruct (reachable_well_formed a Hr) as (live & Hwf).
  split; [eapply well_formed_partition; eauto|].
  split; [eapply well_formed_coalesced; eauto|].
  destruct Hwf as [Hwl _].
  pose proof (wl_live _ _ Hwl) as Hne. destruct live as [|hd rest]; [contradiction|].
  exists hd, rest. split; [apply (live_list_well_linked _ _ Hwl)|].
  split; [apply (traverse_back_well_linked _ _ Hwl)|].
  split; [apply (wl_tiles _ _ Hwl)|].
  intros j Hj. eapply chain_unique_head; [apply (wl_chain _ _ Hwl)|assumption].
Qed.

(** Such states exist.  Best-fit in a 32-byte pool: three allocations fill
    it and the middle block is freed, which leaves P[0,8) H[8,24) P[24,32). *)
Example reachable_best_fit :
  let a := state_after [Init 4096 32 BEST_FIT; Alloc 8; Alloc 16; Alloc 8; Free 4104] in
  reachable a /\ blocks a = Done [mkBlock P 0 8; mkBlock H 8 16; mkBlock P 24 8].
Proof.
  intros a. split; [|vm_compute; reflexivity].
  apply (reach_free (state_after [Init 4096 32 BEST_FIT; Alloc 8; Alloc 16; Alloc 8]) _ 4104);
    [|vm_compute; reflexivity].
  apply (reach_alloc (state_after [Init 4096 32 BEST_FIT; Alloc 8; Alloc 16]) _ 8 4120);
    [|vm_compute; reflexivity].
  apply (reach_alloc (state_after [Init 4096 32 BEST_FIT; Alloc 8]) _ 16 4104);
    [|vm_compute; reflexivity].
  apply (reach_alloc (state_after [Init 4096 32 BEST_FIT]) _ 8 4096);
    [|vm_compute; reflexivity].
  apply (reach_init boot _ 4096 32 BEST_FIT).
  - exact boot_storage_ok.
  - lia.
  - vm_compute. discriminate.
  - discriminate.
  - vm_compute. reflexivity.
Qed.

(** ** Best-fit and worst-fit on small Holes *)

Lemma qualifies_dec (l : list Node) (sz : Z) (j : Z) :
  is_H (type (node_at l j)) && (sz <=? size (node_at l j)) = true <-> qualifies l sz j.
Proof.
  unfold qualifies. rewrite andb_true_iff, Z.leb_le.
  destruct (type (node_at l j)); cbn; intuition congruence.
Qed.

Lemma to_long_small (z : Z) : 0 <= z < 2 ^ 63 -> to_long z = z.
Proof. intros Hz. unfold to_long. rewrite Z.mod_small by lia. lia. Qed.

Lemma to_int_small (z : Z) : 0 <= z < 2 ^ 31 -> to_int z = z.
Proof. intros Hz. unfold to_int. rewrite Z.mod_small by lia. lia. Qed.

Lemma best_fit_loop_spec (l : list Node) (sz : Z) (xs : list Z) :
  table l ->
  (forall x, x ∈ xs -> 0 <= size (node_at l x) < INT_MAX) ->
  forall (prv : Z) (k : nat) (seen : list Z) (idx0 sz0 : Z),
    chain l prv xs (-1) -> (length xs < k)%nat ->
    best_so_far l sz seen idx0 sz0 ->
    exists r s, best_fit_loop k sz (head_or (-1) xs) idx0 sz0 l = Done r /\
                best_so_far l sz (seen ++ xs) r s.
Proof.
  intros Hl. induction xs as [|x xs IH]; intros Hsmall prv [|k] seen idx0 sz0 Hc Hk Hb;
    cbn [length] in Hk; try lia.
  - exists idx0, sz0. rewrite app_nil_r. split; [reflexivity|assumption].
  - destruct Hc as (Hv & _ & Hn & Hc). cbn [best_fit_loop head_or].
    assert ((x =? -1) = false) as -> by (apply Z.eqb_neq; unfold valid in Hv; lia).
    rewrite (ledger_at_node_at l x Hl Hv). cbn [obind]. rewrite Hn.
    assert (Hx : 0 <= size (node_at l x) < INT_MAX) by (apply Hsmall; left).
    assert (Hrest : forall y, y ∈ xs -> 0 <= size (node_at l y) < INT_MAX).
    { intros y Hy. apply Hsmall. now right. }
    unfold INT_MAX in Hx.
    rewrite to_long_small, to_int_small by lia.
    replace (seen ++ x :: xs) with ((seen ++ [x]) ++ xs) by (now rewrite <- app_assoc).
    destruct (is_H (type (node_at l x)) && (sz <=? size (node_at l x))) eqn:Eq; cbn [andb].
    + apply qualifies_dec in Eq.
      destruct (size (node_at l x) <? sz0) eqn:Elt.
      * apply Z.ltb_lt in Elt. apply (IH Hrest x k); [assumption|lia|].
        right. split; [reflexivity|]. split; [assumption|].
        exists seen, []. split; [reflexivity|]. split; [|intros y Hy; inversion Hy].
        intros y Hy Hq. destruct Hb as [(_ & _ & Hnone)|(-> & _ & pre & post & -> & Hpre & Hpost)].
        -- now apply Hnone in Hq.
        -- apply elem_of_app in Hy as [Hy|Hy]; [specialize (Hpre y Hy Hq); lia|].
           apply elem_of_cons in Hy as [->|Hy]; [lia|].
           specialize (Hpost y Hy Hq). lia.
      * apply Z.ltb_ge in Elt. apply (IH Hrest x k); [assumption|lia|].
        destruct Hb as [(_ & -> & _)|(-> & Hq0 & pre & post & -> & Hpre & Hpost)];
          [unfold INT_MAX in Elt; lia|].
        right. split; [reflexivity|]. split; [assumption|].
        exists pre, (post ++ [x]). split; [now rewrite <- app_assoc|]. split; [assumption|].
        intros y Hy Hq. apply elem_of_app in Hy as [Hy|Hy]; [auto|].
        apply list_elem_of_singleton in Hy as ->. lia.
    + assert (Hnq : ~ qualifies l sz x).
      { intros Hq. apply qualifies_dec in Hq. congruence. }
      apply (IH Hrest x k); [assumption|lia|].
      destruct Hb as [(-> & -> & Hnone)|(-> & Hq0 & pre & post & -> & Hpre & Hpost)].
      * left. split; [reflexivity|]. split; [reflexivity|].
        intros y Hy. apply elem_of_app in Hy as [Hy|Hy]; [auto|].
        apply list_elem_of_singleton in Hy as ->. assumption.
      * right. split; [reflexivity|]. split; [assumption|].
        exists pre, (post ++ [x]). split; [now rewrite <- app_assoc|]. split; [assumption|].
        intros y Hy Hq. apply elem_of_app in Hy as [Hy|Hy]; [auto|].
        apply list_elem_of_singleton in Hy as ->. contradiction.
Qed.

Lemma worst_fit_loop_spec (l : list Node) (sz : Z) (xs : list Z) :
  table l ->
  (forall x, x ∈ xs -> 0 <= size (node_at l x) < 2 ^ 31) ->
  forall (prv : Z) (k : nat) (seen : list Z) (idx0 sz0 : Z),
    chain l prv xs (-1) -> (length xs < k)%nat ->
    worst_so_far l sz seen idx0 sz0 ->
    exists r s, worst_fit_loop k sz (head_or (-1) xs) idx0 sz0 l = Done r /\
                worst_so_far l sz (seen ++ xs) r s.
Proof.
  intros Hl. induction xs as [|x xs IH]; intros Hsmall prv [|k] seen idx0 sz0 Hc Hk Hb;
    cbn [length] in Hk; try lia.
  - exists idx0, sz0. rewrite app_nil_r. split; [reflexivity|assumption].
  - destruct Hc as (Hv & _ & Hn & Hc). cbn [worst_fit_loop head_or].
    assert ((x =? -1) = false) as -> by (apply Z.eqb_neq; unfold valid in Hv; lia).
    rewrite (ledger_at_node_at l x Hl Hv). cbn [obind]. rewrite Hn.
    assert (Hx : 0 <= size (node_at l x) < 2 ^ 31) by (apply Hsmall; left).
    assert (Hrest : forall y, y ∈ xs -> 0 <= size (node_at l y) < 2 ^ 31).
    { intros y Hy. apply Hsmall. now right. }
    rewrite to_long_small, to_int_small by lia.
    replace (seen ++ x :: xs) with ((seen ++ [x]) ++ xs) by (now rewrite <- app_assoc).
    destruct (is_H (type (node_at l x)) && (sz <=? size (node_at l x))) eqn:Eq; cbn [andb].
    + apply qualifies_dec in Eq.
      destruct (sz0 <? size (node_at l x)) eqn:Elt.
      * apply Z.ltb_lt in Elt. apply (IH Hrest x k); [assumption|lia|].
        right. split; [reflexivity|]. split; [assumption|].
        exists seen, []. split; [reflexivity|]. split; [|intros y Hy; inversion Hy].
        intros y Hy Hq. destruct Hb as [(_ & _ & Hnone)|(-> & _ & pre & post & -> & Hpre & Hpost)].
        -- now apply Hnone in Hq.
        -- apply elem_of_app in Hy as [Hy|Hy]; [specialize (Hpre y Hy Hq); lia|].
           apply elem_of_cons in Hy as [->|Hy]; [lia|].
           specialize (Hpost y Hy Hq). lia.
      * apply Z.ltb_ge in Elt. apply (IH Hrest x k); [assumption|lia|].
        destruct Hb as [(_ & -> & _)|(-> & Hq0 & pre & post & -> & Hpre & Hpost)]; [lia|].
        right. split; [reflexivity|]. split; [assumption|].
        exists pre, (post ++ [x]). split; [now rewrite <- app_assoc|]. split; [assumption|].
        intros y Hy Hq. apply elem_of_app in Hy as [Hy|Hy]; [auto|].
        apply list_elem_of_singleton in Hy as ->. lia.
    + assert (Hnq : ~ qualifies l sz x).
      { intros Hq. apply qualifies_dec in Hq. congruence. }
      apply (IH Hrest x k); [assumption|lia|].
      destruct Hb as [(-> & -> & Hnone)|(-> & Hq0 & pre & post & -> & Hpre & Hpost)].
      * left. split; [reflexivity|]. split; [reflexivity|].
        intros y Hy. apply elem_of_app in Hy as [Hy|Hy]; [auto|].
        apply list_elem_of_singleton in Hy as ->. assumption.
      * right. split; [reflexivity|]. split; [assumption|].
        exists pre, (post ++ [x]). split; [now rewrite <- app_assoc|]. split; [assumption|].
        intros y Hy Hq. apply elem_of_app in Hy as [Hy|Hy]; [auto|].
        apply list_elem_of_singleton in Hy as ->. contradiction.
Qed.

(** X8.  On a well-linked ledger whose live records
    are all smaller than [INT_MAX] bytes, [best_fit] returns [-1] exactly
    when no live Hole can hold the request, and otherwise the first live
    Hole of the smallest sufficient size; [worst_fit] likewise with the
    largest size. *)
Theorem best_worst_fit_small_holes (sz : Z) (a : allocator) (live : list Z) :
  well_linked a live ->
  (forall x, x ∈ live -> size (node_at (ledger a) x) < INT_MAX) ->
  let a1 := with_traverse_back_ptr (head_or 0 live) a in
  (exists r, best_fit sz a = Done (r, a1) /\
     ((r = -1 /\ forall x, x ∈ live -> ~ qualifies (ledger a) sz x) \/
      first_best Z.lt (ledger a) sz live r)) /\
  (exists r, worst_fit sz a = Done (r, a1) /\
     ((r = -1 /\ forall x, x ∈ live -> ~ qualifies (ledger a) sz x) \/
      first_best Z.gt (ledger a) sz live r)).
Proof.
  intros Hwl Hsmall a1.
  pose proof (wl_table _ _ Hwl) as Hl. pose proof (wl_chain _ _ Hwl) as Hc.
  pose proof (distinct_records_bound _ (wl_nodup _ _ Hwl) (chain_valid _ _ _ _ Hc)) as Hlen.
  assert (Hhd : head_or 0 live = head_or (-1) live).
  { pose proof (wl_live _ _ Hwl). destruct live; [contradiction|reflexivity]. }
  pose proof (tiles_nonneg _ _ _ _ (wl_tiles _ _ Hwl)) as Hpos.
  split.
  - destruct (best_fit_loop_spec (ledger a) sz live Hl) with
      (prv := -1) (k := fuel) (seen := @nil Z) (idx0 := -1) (sz0 := INT_MAX)
      as (r & s & Er & Hb); try assumption.
    + intros x Hx. split; [now apply Hpos|now apply Hsmall].
    + unfold fuel. lia.
    + left. repeat split. intros x Hx. inversion Hx.
    + exists r. rewrite <- Hhd in Er. split.
      * unfold best_fit, best_fit_with. fold traverse_back.
        rewrite (bind_run _ _ _ _ _ (traverse_back_well_linked a live Hwl)).
        unfold lift. fields. rewrite Er. reflexivity.
      * cbn [app] in Hb. destruct Hb as [(-> & _ & Hnone)|(_ & Hfb)]; [left|right]; auto.
  - destruct (worst_fit_loop_spec (ledger a) sz live Hl) with
      (prv := -1) (k := fuel) (seen := @nil Z) (idx0 := -1) (sz0 := -1)
      as (r & s & Er & Hb); try assumption.
    + intros x Hx. split; [now apply Hpos|]. specialize (Hsmall x Hx). unfold INT_MAX in Hsmall. lia.
    + unfold fuel. lia.
    + left. repeat split. intros x Hx. inversion Hx.
    + exists r. rewrite <- Hhd in Er. split.
      * unfold worst_fit, worst_fit_with. fold traverse_back.
        rewrite (bind_run _ _ _ _ _ (traverse_back_well_linked a live Hwl)).
        unfold lift. fields. rewrite Er. reflexivity.
      * cbn [app] in Hb. destruct Hb as [(-> & _ & Hnone)|(_ & Hfb)]; [left|right]; auto.
Qed.

(** * The claims of the specification *)

(** C1.  After [stale_hole_calls] the live blocks are P[0,8) H[8,24)
    P[24,32), a partition of the pool.  The next request of 4 bytes is
    served from the spliced-out record 2: the live list becomes P[0,8)
    H[8,24) P[16,20) H[20,24) P[24,32), where the second and third blocks
    overlap.  The partition invariant does not survive this allocate. *)
Theorem next_fit_alloc_breaks_partition :
  results (stale_hole_calls ++ [Alloc 4]) = Done [0; 4096; 4104; 4120; 0; 4104; 0; 4112] /\
  blocks (state_after stale_hole_calls) =
    Done [mkBlock P 0 8; mkBlock H 8 16; mkBlock P 24 8] /\
  blocks (state_after (stale_hole_calls ++ [Alloc 4])) =
    Done [mkBlock P 0 8; mkBlock H 8 16; mkBlock P 16 4; mkBlock H 20 4; mkBlock P 24 8] /\
  ~ partition_invariant (state_after (stale_hole_calls ++ [Alloc 4])).
Proof.
  split; [vm_compute; reflexivity|].
  split; [vm_compute; reflexivity|].
  assert (Hb : blocks (state_after (stale_hole_calls ++ [Alloc 4])) =
    Done [mkBlock P 0 8; mkBlock H 8 16; mkBlock P 16 4; mkBlock H 20 4; mkBlock P 24 8])
    by (vm_compute; reflexivity).
  split; [exact Hb|].
  intros (bs & Ebs & Hdisj & _). rewrite Hb in Ebs. injection Ebs as <-.
  apply (Hdisj 1%nat 2%nat (mkBlock H 8 16) (mkBlock P 16 4)); [lia|reflexivity..|].
  exists 16. simpl. lia.
Qed.

(** C2.  After [stale_chain_calls] the live blocks are H[0,24) P[24,32).
    A request of 4 bytes splits the spliced-out record 2 and links it, and
    behind it the spliced-out Hole record 3, back into the list: the third
    and fourth live blocks are both Holes. *)
Theorem next_fit_alloc_leaves_adjacent_holes :
  results (stale_chain_calls ++ [Alloc 4]) =
    Done [0; 4096; 4104; 4112; 4120; 0; 4104; 0; 0; 0; 4104] /\
  blocks (state_after stale_chain_calls) = Done [mkBlock H 0 24; mkBlock P 24 8] /\
  blocks (state_after (stale_chain_calls ++ [Alloc 4])) =
    Done [mkBlock H 0 24; mkBlock P 8 4; mkBlock H 12 4; mkBlock H 16 8; mkBlock P 24 8] /\
  ~ coalesced_invariant (state_after (stale_chain_calls ++ [Alloc 4])).
Proof.
  split; [vm_compute; reflexivity|].
  split; [vm_compute; reflexivity|].
  assert (Hb : blocks (state_after (stale_chain_calls ++ [Alloc 4])) =
    Done [mkBlock H 0 24; mkBlock P 8 4; mkBlock H 12 4; mkBlock H 16 8; mkBlock P 24 8])
    by (vm_compute; reflexivity).
  split; [exact Hb|].
  intros (bs & Ebs & Hadj). rewrite Hb in Ebs. injection Ebs as <-.
  apply (Hadj 2%nat (mkBlock H 12 4) (mkBlock H 16 8)); [reflexivity..|].
  split; reflexivity.
Qed.

(** C3.  [lost_head_calls] runs to completion inside the table.  In the
    state it leaves, the cached index is 4 and the [previous] links of
    records 4, 2 and 1 form a cycle (4 to 2 to 1 to 4): no record of it
    carries the sentinel, and [traverse_back] does not return, with any
    amount of fuel. *)
Theorem next_fit_makes_traverse_back_diverge :
  results lost_head_calls =
    Done [0; 4096; 4104; 4112; 4128; 0; 4112; 0; 0; 4112; 4120; 0; 0; 0; 4096; 0] /\
  traverse_back_ptr (state_after lost_head_calls) = 4 /\
  forall k : nat, traverse_back_with k (state_after lost_head_calls) = Diverges.
Proof.
  split; [vm_compute; reflexivity|].
  split; [vm_compute; reflexivity|].
  set (a := state_after lost_head_calls).
  assert (E4 : ledger_at 4 (ledger a) = Done (mkNode 16 P 4096 1 2)) by (vm_compute; reflexivity).
  assert (E2 : ledger_at 2 (ledger a) = Done (mkNode 40 H 4104 4 1)) by (vm_compute; reflexivity).
  assert (E1 : ledger_at 1 (ledger a) = Done (mkNode 24 H 4112 3 4)) by (vm_compute; reflexivity).
  assert (Eptr : traverse_back_ptr a = 4) by (vm_compute; reflexivity).
  intros k. unfold traverse_back_with.
  rewrite bind_gets, Eptr, (bind_rd _ _ _ _ E4). cbn [next Z.eqb Pos.eqb].
  unfold bind, lift.
  rewrite (traverse_back_loop_trapped (ledger a) (fun i => i = 4 \/ i = 2 \/ i = 1)).
  - reflexivity.
  - intros i [Hi|[Hi|Hi]]; subst i; eexists; (split; [eassumption|]); cbn [previous]; split; auto; lia.
  - now left.
Qed.

(** C4.  Both coalescing steps end with
    [ledger[ledger[i].next].previous = i] and perform it without testing
    [ledger[i].next] against the sentinel.
    Forward: in a 100-byte pool with one 4-byte Process (record 1) before
    the Hole (record 0), freeing the Process merges the Hole into record 1,
    whose [next] becomes [-1], and the last statement subscripts the ledger
    with [-1].
    Backward: in an 8-byte pool made of a Hole (record 1) and a Process
    (record 0, the tail), freeing the Process merges it into record 1 and
    the last statement subscripts the ledger with [-1] again. *)
Theorem free_subscripts_ledger_with_sentinel :
  (let a := state_after [Init 4096 100 FIRST_FIT; Alloc 4] in
   blocks a = Done [mkBlock P 0 4; mkBlock H 4 96] /\
   (exists a1, (wr 1 (set_type H) ;; coalesce_backwards 1) a = Done (1, a1) /\
               coalesce_forward 1 a1 = OutOfBounds (-1)) /\
   mavalloc_free 4096 a = OutOfBounds (-1)) /\
  (let a := state_after [Init 4096 8 FIRST_FIT; Alloc 4; Alloc 4; Free 4096] in
   blocks a = Done [mkBlock H 0 4; mkBlock P 4 4] /\
   (exists a1, wr 0 (set_type H) a = Done (tt, a1) /\
               coalesce_backwards 0 a1 = OutOfBounds (-1)) /\
   mavalloc_free 4100 a = OutOfBounds (-1)).
Proof.
  split; intros a.
  - split; [vm_compute; reflexivity|]. split; [|vm_compute; reflexivity].
    exists (with_ledger (<[1%nat := mkNode 4 H 4096 0 (-1)]> (ledger a)) a).
    split; vm_compute; reflexivity.
  - split; [vm_compute; reflexivity|]. split; [|vm_compute; reflexivity].
    exists (with_ledger (<[0%nat := mkNode 4 H 4100 (-1) 1]> (ledger a)) a).
    split; vm_compute; reflexivity.
Qed.

(** C5.  A caller's [-1] reaches [mavalloc_init] as [SIZE_MAX].  Rounded up
    to the alignment it wraps to 0; [malloc (0)] may answer a unique
    non-null pointer (here 4096), and the call then returns 0 with a
    zero-byte pool reserved: the capacity is not rejected. *)
Theorem init_accepts_unrepresentable_capacity :
  to_size_t (-1) = 2 ^ 64 - 1 /\
  ALIGN4 (2 ^ 64 - 1) = 0 /\
  exists a',
    mavalloc_init 4096 (-1) FIRST_FIT boot = Done (0, a') /\
    mavalloc_init 4096 (2 ^ 64 - 1) FIRST_FIT boot = Done (0, a') /\
    pool a' = 4096 /\ pool_size a' = 0 /\
    blocks a' = Done [mkBlock H 0 0].
Proof.
  split; [reflexivity|]. split; [reflexivity|].
  exists (state_after [Init 4096 (-1) FIRST_FIT]).
  split; [|split; [|split; [|split]]]; vm_compute; reflexivity.
Qed.

(** C6.  In the state after [stale_hole_calls], [mavalloc_alloc (4)]
    succeeds with handle 4112 and [mavalloc_free (4112)] right after it
    returns normally, but the Hole that was [8,24) before the pair of calls
    is [8,32) after it. *)
Theorem next_fit_alloc_free_does_not_restore :
  exists a1 a2,
    mavalloc_alloc 4 (state_after stale_hole_calls) = Done (4112, a1) /\
    mavalloc_free 4112 a1 = Done (tt, a2) /\
    blocks (state_after stale_hole_calls) =
      Done [mkBlock P 0 8; mkBlock H 8 16; mkBlock P 24 8] /\
    blocks a2 = Done [mkBlock P 0 8; mkBlock H 8 24; mkBlock P 24 8].
Proof.
  exists (state_after (stale_hole_calls ++ [Alloc 4])),
         (state_after (stale_hole_calls ++ [Alloc 4; Free 4112])).
  split; [|split; [|split]]; vm_compute; reflexivity.
Qed.

(** C7.  [best_fit] starts from [min_hole_size = INT_MAX] and compares with
    a strict [<]: a Hole of 2^31 bytes or more is never selected.  In a
    fresh pool of 2^31 bytes a request of 4 bytes finds nothing, although
    the only block is a Hole of 2^31 bytes.
    [worst_fit] stores the size of its candidate in an [int]: 2^31 becomes
    -2^31, and any later qualifying Hole replaces the candidate.  With
    Holes of 2^31 and 8 bytes it selects the 8-byte Hole (record 3). *)
Theorem best_and_worst_fit_fail_on_large_holes :
  (let a := state_after [Init 4096 (2 ^ 31) BEST_FIT] in
   blocks a = Done [mkBlock H 0 (2 ^ 31)] /\
   best_fit 4 a = Done (-1, a) /\
   mavalloc_alloc 4 a = Done (NULL, a)) /\
  (let a := state_after two_holes_calls in
   blocks a = Done [mkBlock H 0 (2 ^ 31); mkBlock P (2 ^ 31) 8;
                    mkBlock H (2 ^ 31 + 8) 8; mkBlock P (2 ^ 31 + 16) 8] /\
   live_list a = Done [1; 2; 3; 0] /\
   worst_fit 4 a = Done (3, a)).
Proof.
  split; intros a.
  - split; [|split]; vm_compute; reflexivity.
  - split; [|split]; vm_compute; reflexivity.
Qed.

(** C8.  After [stale_top_calls] the live blocks are P[0,8) H[8,24)
    P[24,32), a partition of the pool, and [ledger_top] is 2.  Record 3,
    which the last free merged away and gave back, is still a Hole of 8
    bytes at 4112, and next-fit remembers it.  A request of 4 bytes selects
    that record; its size is not the request, so the Hole is to be split.
    The record taken for the new Process block, [ledger_top + 1], is the
    selected Hole itself: the call returns 4116, not the start 4112 of the
    Hole; record 3 is left a Process block of 0 bytes at 4116 whose links
    point to itself, instead of a Hole of 4 bytes at 4116 behind a new
    Process block at 4112; record 2, the live Hole [8,24), keeps its 16
    bytes and now leads to record 3. *)
Theorem next_fit_alloc_splits_hole_onto_itself :
  let a := state_after stale_top_calls in
  results stale_top_calls = Done [0; 4096; 4104; 4112; 4120; 0; 4112; 0; 0] /\
  blocks a = Done [mkBlock P 0 8; mkBlock H 8 16; mkBlock P 24 8] /\
  live_list a = Done [1; 2; 0] /\
  ledger_top a = 2 /\
  select_hole (ALIGN4 (to_size_t 4)) a = Done (3, a) /\
  ledger_at 3 (ledger a) = Done (mkNode 8 H 4112 0 2) /\
  mavalloc_alloc 4 a =
    Done (4116,
          with_ledger (<[3%nat := mkNode 0 P 4116 3 3]>
                         (<[2%nat := mkNode 16 H 4104 3 1]> (ledger a)))
                      (with_ledger_top 3 a)).
Proof.
  intros a.
  split; [vm_compute; reflexivity|].
  split; [vm_compute; reflexivity|].
  split; [vm_compute; reflexivity|].
  split; [vm_compute; reflexivity|].
  split; [vm_compute; reflexivity|].
  split; vm_compute; reflexivity.
Qed.

(** C9.  When the configured strategy reports no qualifying Hole (index
    [-1]), [mavalloc_alloc] returns [NULL] and no record of the ledger is
    touched: the ledger and [ledger_top] are those of the state before the
    call. *)
Theorem alloc_none_found_returns_NULL (size0 : Z) (a a1 : allocator) :
  select_hole (ALIGN4 (to_size_t size0)) a = Done (-1, a1) ->
  mavalloc_alloc size0 a = Done (NULL, a1) /\
  ledger a1 = ledger a /\ ledger_top a1 = ledger_top a.
Proof.
  intros E. split.
  - unfold mavalloc_alloc. rewrite (bind_run _ _ _ _ _ E). reflexivity.
  - apply select_hole_same in E as (? & ? & _). auto.
Qed.

(** Exhaustion: one Hole of 8 bytes is left, 16 are requested. *)
Lemma alloc_none_found_returns_NULL_witness :
  let a := state_after [Init 4096 32 BEST_FIT; Alloc 24] in
  let a1 := with_traverse_back_ptr 1 a in
  mavalloc_alloc 16 a = Done (NULL, a1) /\ ledger a1 = ledger a /\ ledger_top a1 = ledger_top a.
Proof.
  intros a a1. apply (alloc_none_found_returns_NULL 16 a a1). vm_compute. reflexivity.
Defined.

(** C10.  [mavalloc_free (NULL)] returns at once and changes nothing at all.
    [mavalloc_free (ptr)] with [ptr] the [arena] of no record of the live
    list returns normally and leaves every record of the ledger, and
    [ledger_top], as they were. *)
Theorem free_null_or_untracked_is_noop (ptr : Z) (a : allocator) :
  (ptr = NULL -> mavalloc_free ptr a = Done (tt, a)) /\
  (forall (idxs : list Z) (ns : list Node),
      live_list a = Done idxs ->
      nodes_at idxs (ledger a) = Done ns ->
      Forall (fun n => arena n <> ptr) ns ->
      exists a', mavalloc_free ptr a = Done (tt, a') /\
                 ledger a' = ledger a /\ ledger_top a' = ledger_top a).
Proof.
  split.
  - intros ->. reflexivity.
  - intros idxs ns Hlive Hns Hall.
    unfold mavalloc_free, mavalloc_free_with.
    destruct (ptr =? NULL); [exists a; repeat split|].
    unfold live_list in Hlive.
    apply obind_Done in Hlive as ([hd a1] & Etb & Hlive). cbn [fst snd] in Hlive.
    pose proof (traverse_back_with_same _ _ _ _ Etb) as (Hl & Htop & _).
    rewrite Hl in Hlive.
    pose proof (free_search_untracked ptr _ _ _ _ _ Hlive Hns Hall) as Hsearch.
    exists a1. split; [|auto].
    unfold traverse_back in Etb.
    rewrite (bind_run _ _ _ _ _ Etb).
    assert (lift (free_search fuel ptr hd) a1 = Done (-1, a1)) as Es.
    { unfold lift. rewrite Hl, Hsearch. reflexivity. }
    rewrite (bind_run _ _ _ _ _ Es). reflexivity.
Qed.

(** The null handle, and a handle outside the pool. *)
Lemma free_null_or_untracked_is_noop_witness :
  let a := state_after [Init 4096 32 FIRST_FIT; Alloc 8; Alloc 8] in
  mavalloc_free NULL a = Done (tt, a) /\
  exists a', mavalloc_free 5000 a = Done (tt, a') /\
             ledger a' = ledger a /\ ledger_top a' = ledger_top a.
Proof.
  intros a. split.
  - apply (proj1 (free_null_or_untracked_is_noop NULL a)). reflexivity.
  - apply (proj2 (free_null_or_untracked_is_noop 5000 a) [1; 2; 0]
                 [mkNode 8 P 4096 2 (-1); mkNode 8 P 4104 0 1; mkNode 16 H 4112 (-1) 2]).
    + vm_compute. reflexivity.
    + vm_compute. reflexivity.
    + repeat constructor; simpl; lia.
Defined.

(** * The rest of the interface

    What the searches, [mavalloc_size], [mavalloc_destroy] and
    [mavalloc_init] do on a ledger that is in order. *)

(** ** States for the examples *)

(** The live list of a state reached under first-, best- or worst-fit is
    the list the state is well linked on. *)
Lemma reachable_live_list (a : allocator) (live : list Z) :
  reachable a -> live_list a = Done live -> well_linked a live.
Proof.
  intros Hr E. destruct (reachable_well_formed a Hr) as (live' & Hwl & _).
  rewrite (live_list_well_linked _ _ Hwl) in E. injection E as <-. exact Hwl.
Qed.

(** Being well linked does not depend on the configured strategy nor on
    the index [next_fit] remembers. *)
Lemma well_linked_ext (a a' : allocator) (live : list Z) :
  well_linked a live ->
  ledger a' = ledger a -> ledger_top a' = ledger_top a ->
  valid (traverse_back_ptr a') ->
  pool a' = pool a -> pool_size a' = pool_size a ->
  well_linked a' live.
Proof.
  intros [Hl Hne Hnd Hc Htop Hbelow Hreach Hzero Hcache Hpool Htiles] El Et Hv Ep Es.
  constructor; rewrite ?El, ?Et, ?Ep, ?Es; assumption.
Qed.

Lemma reachable_storage (a : allocator) :
  reachable a ->
  table (ledger a) /\ valid (traverse_back_ptr a).
Proof.
  intros Hr. destruct (reachable_well_formed a Hr) as (live & Hwl & _).
  split; [apply (wl_table _ _ Hwl)|apply (wl_cache _ _ Hwl)].
Qed.

(** First-fit in a 32-byte pool after two allocations of 8 bytes. *)
Example reachable_first_fit :
  let a := state_after [Init 4096 32 FIRST_FIT; Alloc 8; Alloc 8] in
  reachable a /\ live_list a = Done [1; 2; 0] /\
  blocks a = Done [mkBlock P 0 8; mkBlock P 8 8; mkBlock H 16 16].
Proof.
  intros a. split; [|split; vm_compute; reflexivity].
  apply (reach_alloc (state_after [Init 4096 32 FIRST_FIT; Alloc 8]) _ 8 4104);
    [|vm_compute; reflexivity].
  apply (reach_alloc (state_after [Init 4096 32 FIRST_FIT]) _ 8 4096);
    [|vm_compute; reflexivity].
  apply (reach_init boot _ 4096 32 FIRST_FIT).
  - exact boot_storage_ok.
  - lia.
  - vm_compute. discriminate.
  - discriminate.
  - vm_compute. reflexivity.
Qed.

(** First-fit in a 32-byte pool: three 8-byte blocks are allocated and the
    middle one is freed. *)
Example reachable_holes :
  let a := state_after [Init 4096 32 FIRST_FIT; Alloc 8; Alloc 8; Alloc 8; Free 4104] in
  reachable a /\ live_list a = Done [1; 2; 3; 0] /\
  blocks a = Done [mkBlock P 0 8; mkBlock H 8 8; mkBlock P 16 8; mkBlock H 24 8].
Proof.
  intros a. split; [|split; vm_compute; reflexivity].
  apply (reach_free (state_after [Init 4096 32 FIRST_FIT; Alloc 8; Alloc 8; Alloc 8]) _ 4104);
    [|vm_compute; reflexivity].
  apply (reach_alloc (state_after [Init 4096 32 FIRST_FIT; Alloc 8; Alloc 8]) _ 8 4112);
    [|vm_compute; reflexivity].
  apply (reach_alloc (state_after [Init 4096 32 FIRST_FIT; Alloc 8]) _ 8 4104);
    [|vm_compute; reflexivity].
  apply (reach_alloc (state_after [Init 4096 32 FIRST_FIT]) _ 8 4096);
    [|vm_compute; reflexivity].
  apply (reach_init boot _ 4096 32 FIRST_FIT).
  - exact boot_storage_ok.
  - lia.
  - vm_compute. discriminate.
  - discriminate.
  - vm_compute. reflexivity.
Qed.

(** ** [first_fit] *)

Lemma first_fit_loop_spec (l : list Node) (sz : Z) (xs : list Z) :
  table l ->
  forall (prv : Z) (k : nat),
    chain l prv xs (-1) -> (length xs < k)%nat ->
    exists r, first_fit_loop k sz (head_or (-1) xs) l = Done r /\
      ((r = -1 /\ forall x, x ∈ xs -> ~ qualifies l sz x) \/ first_hole l sz xs r).
Proof.
  intros Hl. induction xs as [|x xs IH]; intros prv [|k] Hc Hk; cbn [length] in Hk; try lia.
  - exists (-1). split; [reflexivity|]. left. split; [reflexivity|]. intros x Hx. inversion Hx.
  - destruct Hc as (Hv & _ & Hn & Hc). cbn [first_fit_loop head_or].
    assert ((x =? -1) = false) as -> by (apply Z.eqb_neq; unfold valid in Hv; lia).
    rewrite (ledger_at_node_at l x Hl Hv). cbn [obind].
    destruct (is_H (type (node_at l x)) && (sz <=? size (node_at l x))) eqn:Eq.
    + pose proof Eq as Hq. apply qualifies_dec in Hq.
      apply andb_true_iff in Eq as [Et Es]. apply Z.leb_le in Es.
      assert ((size (node_at l x) <? sz) = false) as -> by (apply Z.ltb_ge; lia).
      destruct (type (node_at l x)); [discriminate|]. cbn.
      exists x. split; [reflexivity|]. right. split; [assumption|].
      exists [], xs. split; [reflexivity|]. intros y Hy. inversion Hy.
    + assert (Hnq : ~ qualifies l sz x).
      { intros Hq. apply qualifies_dec in Hq. congruence. }
      assert ((size (node_at l x) <? sz) || is_P (type (node_at l x)) = true) as ->.
      { apply andb_false_iff in Eq as [Et|Es].
        - destruct (type (node_at l x)); [apply orb_true_r|discriminate].
        - apply Z.leb_gt in Es. apply orb_true_iff. left. apply Z.ltb_lt. lia. }
      rewrite Hn. destruct (IH x k Hc) as (r & Er & Hr); [lia|].
      exists r. split; [exact Er|].
      destruct Hr as [(-> & Hnone)|(Hq & pre & post & -> & Hpre)].
      * left. split; [reflexivity|]. intros y Hy.
        apply elem_of_cons in Hy as [->|Hy]; auto.
      * right. split; [assumption|]. exists (x :: pre), post. split; [reflexivity|].
        intros y Hy. apply elem_of_cons in Hy as [->|Hy]; auto.
Qed.

Lemma first_hole_app_l (l : list Node) (sz : Z) (xs ys : list Z) (r : Z) :
  first_hole l sz (xs ++ ys) r -> (forall x, x ∈ ys -> ~ qualifies l sz x) ->
  first_hole l sz xs r.
Proof.
  intros (Hq & pre & post & E & Hpre) Hnone. split; [assumption|].
  revert pre E Hpre. induction xs as [|x xs IH]; intros pre E Hpre.
  - exfalso. apply (Hnone r); [|assumption]. cbn [app] in E. rewrite E.
    apply elem_of_app. right. left.
  - destruct pre as [|p pre]; injection E as -> E.
    + exists [], xs. split; [reflexivity|]. intros y Hy. inversion Hy.
    + destruct (IH pre E) as (pre' & post' & -> & Hpre').
      { intros y Hy. apply Hpre. now right. }
      exists (p :: pre'), post'. split; [reflexivity|].
      intros y Hy. apply elem_of_cons in Hy as [->|Hy]; [apply Hpre; left|auto].
Qed.

(** X1.  On a well-linked ledger [first_fit] returns the first record of
    the live list, in address order, that is a Hole of at least [sz] bytes,
    and [-1] exactly when no live record is such a Hole.  It only moves the
    index [traverse_back] caches. *)
Theorem first_fit_returns_first_hole (sz : Z) (a : allocator) (live : list Z) :
  well_linked a live ->
  exists r, first_fit sz a = Done (r, with_traverse_back_ptr (head_or 0 live) a) /\
    ((r = -1 /\ forall x, x ∈ live -> ~ qualifies (ledger a) sz x) \/
     first_hole (ledger a) sz live r).
Proof.
  intros Hwl.
  pose proof (wl_table _ _ Hwl) as Hl. pose proof (wl_chain _ _ Hwl) as Hc.
  pose proof (distinct_records_bound _ (wl_nodup _ _ Hwl) (chain_valid _ _ _ _ Hc)) as Hlen.
  assert (Hhd : head_or 0 live = head_or (-1) live).
  { pose proof (wl_live _ _ Hwl). destruct live; [contradiction|reflexivity]. }
  destruct (first_fit_loop_spec (ledger a) sz live Hl (-1) fuel Hc) as (r & Er & Hr);
    [unfold fuel; lia|].
  exists r. split; [|exact Hr].
  unfold first_fit, first_fit_with. fold traverse_back.
  rewrite (bind_run _ _ _ _ _ (traverse_back_well_linked a live Hwl)).
  unfold lift. fields. rewrite Hhd, Er. reflexivity.
Qed.

(** The 16-byte Hole behind two 8-byte Processes. *)
Lemma first_fit_returns_first_hole_witness :
  let a := state_after [Init 4096 32 FIRST_FIT; Alloc 8; Alloc 8] in
  exists r, first_fit 16 a = Done (r, with_traverse_back_ptr 1 a) /\
    ((r = -1 /\ forall x, x ∈ [1; 2; 0] -> ~ qualifies (ledger a) 16 x) \/
     first_hole (ledger a) 16 [1; 2; 0] r).
Proof.
  intros a.
  apply (first_fit_returns_first_hole 16 a [1; 2; 0]).
  apply reachable_live_list; apply reachable_first_fit.
Defined.

(** ** [next_fit] *)

(** X2.  Let the index [next_fit] remembers be the first record of the
    part [xs] of a well-linked live list [pre ++ xs] (or [-1], with [xs]
    empty).  Then [next_fit] returns the first qualifying Hole of [xs]
    without calling [traverse_back]; when [xs] has none it returns what
    [first_fit] finds from the head, which lies in [pre], or [-1].  The
    answer is what it remembers next. *)
Theorem next_fit_resumes_then_wraps (sz : Z) (a : allocator) (pre xs : list Z) :
  well_linked a (pre ++ xs) ->
  next_fit_last_ptr a = head_or (-1) xs ->
  exists r a1,
    next_fit sz a = Done (r, with_next_fit_last_ptr r a1) /\
    ((first_hole (ledger a) sz xs r /\ a1 = a) \/
     ((forall x, x ∈ xs -> ~ qualifies (ledger a) sz x) /\
      a1 = with_traverse_back_ptr (head_or 0 (pre ++ xs)) a /\
      ((r = -1 /\ forall x, x ∈ pre -> ~ qualifies (ledger a) sz x) \/
       first_hole (ledger a) sz pre r))).
Proof.
  intros Hwl Hlast.
  pose proof (wl_table _ _ Hwl) as Hl. pose proof (wl_chain _ _ Hwl) as Hc.
  pose proof (distinct_records_bound _ (wl_nodup _ _ Hwl) (chain_valid _ _ _ _ Hc)) as Hlen.
  pose proof (chain_valid _ _ _ _ Hc) as Hv.
  pose proof Hc as Hc0. apply chain_app in Hc as [_ Hcx].
  assert (Hhd : head_or 0 (pre ++ xs) = head_or (-1) (pre ++ xs)).
  { pose proof (wl_live _ _ Hwl). destruct (pre ++ xs); [contradiction|reflexivity]. }
  destruct (first_fit_loop_spec (ledger a) sz (pre ++ xs) Hl (-1) fuel Hc0) as (r & Er & Hr);
    [unfold fuel; lia|].
  rewrite length_app in Hlen.
  destruct (first_fit_loop_spec (ledger a) sz xs Hl _ fuel Hcx) as (r0 & E0 & Hr0);
    [unfold fuel; lia|].
  unfold next_fit, next_fit_with. rewrite bind_gets, Hlast.
  unfold bind at 1. unfold lift at 1. rewrite E0. cbn [obind fst snd].
  destruct Hr0 as [(-> & Hnone)|Hfirst].
  - cbn [Z.eqb].
    assert (Eff : first_fit_with fuel sz a =
                  Done (r, with_traverse_back_ptr (head_or 0 (pre ++ xs)) a)).
    { unfold first_fit_with. fold traverse_back.
      rewrite (bind_run _ _ _ _ _ (traverse_back_well_linked a _ Hwl)).
      unfold lift. fields. rewrite Hhd, Er. reflexivity. }
    rewrite (bind_run _ _ _ _ _ Eff). rewrite bind_modify.
    exists r, (with_traverse_back_ptr (head_or 0 (pre ++ xs)) a).
    split; [reflexivity|]. right. split; [assumption|]. split; [reflexivity|].
    destruct Hr as [(-> & Hn)|Hf].
    + left. split; [reflexivity|]. intros x Hx. apply Hn, elem_of_app. now left.
    + right. now apply (first_hole_app_l _ _ pre xs).
  - assert (Hv0 : valid r0).
    { destruct Hfirst as (_ & p & q & -> & _). apply Hv.
      apply elem_of_app. right. apply elem_of_app. right. left. }
    assert ((r0 =? -1) = false) as -> by (apply Z.eqb_neq; unfold valid in Hv0; lia).
    rewrite bind_ret, bind_modify.
    exists r0, a. split; [reflexivity|]. left. auto.
Qed.

(** Next-fit after two allocations: it remembers the Hole, record 0. *)
Lemma next_fit_resumes_then_wraps_witness :
  let a := state_after [Init 4096 32 NEXT_FIT; Alloc 8; Alloc 8] in
  exists r a1,
    next_fit 8 a = Done (r, with_next_fit_last_ptr r a1) /\
    ((first_hole (ledger a) 8 [0] r /\ a1 = a) \/
     ((forall x, x ∈ [0] -> ~ qualifies (ledger a) 8 x) /\
      a1 = with_traverse_back_ptr 1 a /\
      ((r = -1 /\ forall x, x ∈ [1; 2] -> ~ qualifies (ledger a) 8 x) \/
       first_hole (ledger a) 8 [1; 2] r))).
Proof.
  intros a.
  apply (next_fit_resumes_then_wraps 8 a [1; 2] [0]).
  - apply (well_linked_ext (state_after [Init 4096 32 FIRST_FIT; Alloc 8; Alloc 8])).
    + apply reachable_live_list; apply reachable_first_fit.
    + vm_compute. reflexivity.
    + vm_compute. reflexivity.
    + vm_compute. split; [discriminate|reflexivity].
    + vm_compute. reflexivity.
    + vm_compute. reflexivity.
  - vm_compute. reflexivity.
Defined.

(** ** [mavalloc_size] *)

Lemma size_loop_chain (l : list Node) (xs : list Z) :
  table l ->
  forall (prv : Z) (k : nat) (c : Z),
    chain l prv xs (-1) -> (length xs < k)%nat ->
    size_loop k (head_or (-1) xs) c l = Done (c + Z.of_nat (length xs)).
Proof.
  intros Hl. induction xs as [|x xs IH]; intros prv [|k] c Hc Hk; cbn [length] in Hk; try lia.
  - cbn. f_equal. lia.
  - destruct Hc as (Hv & _ & Hn & Hc). cbn [size_loop head_or].
    assert ((0 <=? x) = true) as -> by (apply Z.leb_le; unfold valid in Hv; lia).
    rewrite (ledger_at_node_at l x Hl Hv). cbn [obind]. rewrite Hn.
    rewrite (IH x k (c + 1) Hc) by lia. f_equal. cbn [length]. lia.
Qed.

(** X3.  On a well-linked ledger [mavalloc_size] returns the number of
    live blocks, Holes included. *)
Theorem mavalloc_size_counts_blocks (a : allocator) (live : list Z) :
  well_linked a live ->
  exists bs, blocks a = Done bs /\
    mavalloc_size a =
      Done (Z.of_nat (length bs), with_traverse_back_ptr (head_or 0 live) a).
Proof.
  intros Hwl. exists (map (block_of a) (map (node_at (ledger a)) live)).
  split; [apply (blocks_well_linked _ _ Hwl)|]. rewrite !length_map.
  pose proof (wl_table _ _ Hwl) as Hl. pose proof (wl_chain _ _ Hwl) as Hc.
  pose proof (distinct_records_bound _ (wl_nodup _ _ Hwl) (chain_valid _ _ _ _ Hc)) as Hlen.
  destruct (well_linked_head a live Hwl) as (Hhd & _ & _).
  pose proof (well_linked_cache a live _ Hwl Hhd) as Hwl1.
  assert (Harena : arena (node_at (ledger a) (head_or 0 live)) = pool a).
  { pose proof (wl_tiles _ _ Hwl) as Ht. pose proof (wl_live _ _ Hwl).
    destruct live; [contradiction|]. apply Ht. }
  destruct (wl_pool _ _ Hwl) as [Hpool _].
  unfold mavalloc_size, mavalloc_size_with. fold traverse_back.
  rewrite (bind_run _ _ _ _ _ (traverse_back_well_linked a live Hwl)).
  erewrite bind_rd by (fields; apply (ledger_at_node_at _ _ Hl Hhd)).
  rewrite Harena.
  assert ((pool a =? NULL) = false) as -> by (apply Z.eqb_neq; unfold NULL; lia).
  rewrite (bind_run _ _ _ _ _ (traverse_back_well_linked _ live Hwl1)).
  unfold lift. fields.
  assert (Hh : head_or 0 live = head_or (-1) live).
  { pose proof (wl_live _ _ Hwl). destruct live; [contradiction|reflexivity]. }
  rewrite Hh, (size_loop_chain _ _ Hl (-1) fuel 0 Hc) by (unfold fuel; lia).
  reflexivity.
Qed.

(** Two Process blocks and the Hole behind them: three blocks. *)
Lemma mavalloc_size_counts_blocks_witness :
  let a := state_after [Init 4096 32 FIRST_FIT; Alloc 8; Alloc 8] in
  exists bs, blocks a = Done bs /\
    mavalloc_size a = Done (Z.of_nat (length bs), with_traverse_back_ptr 1 a).
Proof.
  intros a.
  apply (mavalloc_size_counts_blocks a [1; 2; 0]).
  apply reachable_live_list; apply reachable_first_fit.
Defined.

(** ** [mavalloc_destroy] *)

Lemma fuel_two : exists k, fuel = S (S k).
Proof. exists (Z.to_nat (MAX_ALLOCS - 2) + 1)%nat. unfold fuel, MAX_ALLOCS. lia. Qed.

Lemma node_at_map (f : Node -> Node) (l : list Node) (j : Z) :
  table l -> valid j -> node_at (map f l) j = f (node_at l j).
Proof.
  intros Hl Hj. pose proof (ledger_at_node_at l j Hl Hj) as E.
  apply ledger_at_Done in E as [_ E].
  unfold node_at at 1.
  assert (ledger_at j (map f l) = Done (f (node_at l j))) as ->; [|reflexivity].
  apply ledger_at_Done. split; [exact Hj|].
  change (map f l) with (f <$> l). now rewrite list_lookup_fmap, E.
Qed.

Lemma traverse_back_destroyed (d : allocator) :
  destroyed d -> traverse_back d = Done (0, with_traverse_back_ptr 0 d).
Proof.
  intros (Hl & Hrec & Hc & _).
  assert (H0 : valid 0) by (unfold valid, MAX_ALLOCS; lia).
  unfold traverse_back, traverse_back_with. rewrite bind_gets.
  erewrite bind_rd by (apply (ledger_at_node_at _ _ Hl Hc)).
  destruct (Hrec _ Hc) as (_ & _ & -> & _). cbn [Z.eqb Pos.eqb].
  assert (Hloop : traverse_back_loop fuel 0 (ledger d) = Done 0).
  { unfold fuel. cbn [traverse_back_loop].
    rewrite (ledger_at_node_at _ _ Hl H0). cbn [obind].
    destruct (Hrec _ H0) as (_ & _ & _ & ->). reflexivity. }
  unfold bind at 1, lift. rewrite Hloop. reflexivity.
Qed.

Lemma destroyed_cache (d : allocator) (p : Z) :
  destroyed d -> valid p -> destroyed (with_traverse_back_ptr p d).
Proof.
  intros (Hl & Hrec & _ & Hlast) Hp.
  split; [exact Hl|]. split; [exact Hrec|]. split; [exact Hp|exact Hlast].
Qed.

Lemma destroyed_last (d : allocator) (p : Z) :
  destroyed d -> p = -1 \/ valid p -> destroyed (with_next_fit_last_ptr p d).
Proof.
  intros (Hl & Hrec & Hc & _) Hp.
  split; [exact Hl|]. split; [exact Hrec|]. split; [exact Hc|exact Hp].
Qed.

(** A search that starts at a record without successor returns that
    record or what it had before. *)
Lemma first_fit_loop_isolated (l : list Node) (sz p : Z) (k : nat) :
  table l -> valid p -> next (node_at l p) = -1 ->
  exists r, first_fit_loop (S (S k)) sz p l = Done r /\ (r = -1 \/ r = p).
Proof.
  intros Hl Hp Hn. cbn [first_fit_loop].
  assert ((p =? -1) = false) as -> by (apply Z.eqb_neq; unfold valid in Hp; lia).
  rewrite (ledger_at_node_at _ _ Hl Hp). cbn [obind]. rewrite Hn. cbn [Z.eqb Pos.eqb].
  destruct (_ || _); eauto.
Qed.

Lemma best_fit_loop_isolated (l : list Node) (sz p idx0 sz0 : Z) (k : nat) :
  table l -> valid p -> next (node_at l p) = -1 ->
  exists r, best_fit_loop (S (S k)) sz p idx0 sz0 l = Done r /\ (r = idx0 \/ r = p).
Proof.
  intros Hl Hp Hn. cbn [best_fit_loop].
  assert ((p =? -1) = false) as -> by (apply Z.eqb_neq; unfold valid in Hp; lia).
  rewrite (ledger_at_node_at _ _ Hl Hp). cbn [obind]. rewrite Hn. cbn [Z.eqb Pos.eqb].
  destruct (_ && _); eauto.
Qed.

Lemma worst_fit_loop_isolated (l : list Node) (sz p idx0 sz0 : Z) (k : nat) :
  table l -> valid p -> next (node_at l p) = -1 ->
  exists r, worst_fit_loop (S (S k)) sz p idx0 sz0 l = Done r /\ (r = idx0 \/ r = p).
Proof.
  intros Hl Hp Hn. cbn [worst_fit_loop].
  assert ((p =? -1) = false) as -> by (apply Z.eqb_neq; unfold valid in Hp; lia).
  rewrite (ledger_at_node_at _ _ Hl Hp). cbn [obind]. rewrite Hn. cbn [Z.eqb Pos.eqb].
  destruct (_ && _); eauto.
Qed.

Lemma first_fit_destroyed (sz : Z) (d : allocator) :
  destroyed d ->
  exists r, first_fit sz d = Done (r, with_traverse_back_ptr 0 d) /\ (r = -1 \/ valid r).
Proof.
  intros Hd. pose proof Hd as (Hl & Hrec & _).
  assert (H0 : valid 0) by (unfold valid, MAX_ALLOCS; lia).
  destruct fuel_two as (k & Ek).
  destruct (first_fit_loop_isolated (ledger d) sz 0 k Hl H0) as (r & Er & Hr);
    [apply (Hrec 0 H0)|].
  exists r. split; [|destruct Hr as [->| ->]; auto].
  unfold first_fit, first_fit_with. fold traverse_back.
  rewrite (bind_run _ _ _ _ _ (traverse_back_destroyed d Hd)).
  unfold lift. fields. rewrite Ek, Er. reflexivity.
Qed.

Lemma select_hole_destroyed (sz : Z) (d : allocator) :
  destroyed d ->
  exists r d1, select_hole sz d = Done (r, d1) /\ destroyed d1 /\ (r = -1 \/ valid r).
Proof.
  intros Hd. pose proof Hd as (Hl & Hrec & Hc & Hlast).
  assert (H0 : valid 0) by (unfold valid, MAX_ALLOCS; lia).
  destruct fuel_two as (k & Ek).
  unfold select_hole. rewrite bind_gets. destruct (alloc_algorithm d).
  - destruct (first_fit_destroyed sz d Hd) as (r & Er & Hr).
    exists r, (with_traverse_back_ptr 0 d). split; [exact Er|].
    split; [now apply destroyed_cache|exact Hr].
  - unfold next_fit, next_fit_with. rewrite bind_gets.
    assert (exists r0, first_fit_loop fuel sz (next_fit_last_ptr d) (ledger d) = Done r0 /\
                       (r0 = -1 \/ valid r0)) as (r0 & E0 & Hr0).
    { destruct Hlast as [->|Hv].
      - exists (-1). split; [|now left]. rewrite Ek. reflexivity.
      - destruct (first_fit_loop_isolated (ledger d) sz _ k Hl Hv) as (r & Er & Hr);
          [apply (Hrec _ Hv)|].
        exists r. rewrite Ek. split; [exact Er|]. destruct Hr as [->| ->]; auto. }
    unfold bind at 1. unfold lift at 1. rewrite E0. cbn [obind fst snd].
    destruct (r0 =? -1) eqn:Er0.
    + destruct (first_fit_destroyed sz d Hd) as (r & Er & Hr).
      fold (first_fit sz). rewrite (bind_run _ _ _ _ _ Er), bind_modify.
      exists r, (with_next_fit_last_ptr r (with_traverse_back_ptr 0 d)).
      split; [reflexivity|]. split; [|exact Hr].
      apply destroyed_last; [now apply destroyed_cache|exact Hr].
    + rewrite bind_ret, bind_modify.
      exists r0, (with_next_fit_last_ptr r0 d). split; [reflexivity|].
      split; [now apply destroyed_last|exact Hr0].
  - destruct (best_fit_loop_isolated (ledger d) sz 0 (-1) INT_MAX k Hl H0) as (r & Er & Hr);
      [apply (Hrec 0 H0)|].
    exists r, (with_traverse_back_ptr 0 d).
    split; [|split; [now apply destroyed_cache|destruct Hr as [->| ->]; auto]].
    unfold best_fit, best_fit_with. fold traverse_back.
    rewrite (bind_run _ _ _ _ _ (traverse_back_destroyed d Hd)).
    unfold lift. fields. rewrite Ek, Er. reflexivity.
  - destruct (worst_fit_loop_isolated (ledger d) sz 0 (-1) (-1) k Hl H0) as (r & Er & Hr);
      [apply (Hrec 0 H0)|].
    exists r, (with_traverse_back_ptr 0 d).
    split; [|split; [now apply destroyed_cache|destruct Hr as [->| ->]; auto]].
    unfold worst_fit, worst_fit_with. fold traverse_back.
    rewrite (bind_run _ _ _ _ _ (traverse_back_destroyed d Hd)).
    unfold lift. fields. rewrite Ek, Er. reflexivity.
Qed.

Lemma libc_free_run (p : Z) (a : allocator) :
  p = NULL \/ p ∈ heap a ->
  exists h',
    libc_free p a = Done (tt, with_heap h' a) /\
    (p = NULL -> h' = heap a) /\
    (p <> NULL -> (p ∉ h') /\ forall q, q <> p -> (q ∈ h' <-> q ∈ heap a)).
Proof.
  intros Hp. unfold libc_free. destruct (p =? NULL) eqn:E.
  - apply Z.eqb_eq in E. exists (heap a). split; [now destruct a|].
    split; [reflexivity|]. intros Hne. contradiction.
  - apply Z.eqb_neq in E. destruct Hp as [?|Hp]; [contradiction|].
    rewrite bool_decide_eq_true_2 by exact Hp.
    eexists. split; [reflexivity|]. split; [intros ?; contradiction|]. intros _. split.
    + intros Hin. apply list_elem_of_filter in Hin as [Hne _]. now apply Hne.
    + intros q Hq. rewrite list_elem_of_filter. tauto.
Qed.

Lemma libc_free_invalid (p : Z) (a : allocator) :
  p <> NULL -> p ∉ heap a -> libc_free p a = InvalidFree p.
Proof.
  intros Hne Hout. unfold libc_free.
  rewrite (proj2 (Z.eqb_neq _ _) Hne). now rewrite bool_decide_eq_false_2.
Qed.

(** What [mavalloc_destroy] does to the globals, whatever [free] leaves
    of the heap. *)
Lemma destroy_run (a : allocator) (h' : list Z) :
  libc_free (pool a) a = Done (tt, with_heap h' a) ->
  mavalloc_destroy a =
    Done (tt, with_ledger_top (-1) (with_pool_size 0
                (with_ledger (map reset_node (ledger a)) (with_heap h' a)))).
Proof.
  intros E. unfold mavalloc_destroy. rewrite bind_gets.
  rewrite (bind_run _ _ _ _ _ E). rewrite !bind_modify. reflexivity.
Qed.

Lemma destroy_destroyed (a d : allocator) :
  table (ledger a) -> valid (traverse_back_ptr a) ->
  next_fit_last_ptr a = -1 \/ valid (next_fit_last_ptr a) ->
  mavalloc_destroy a = Done (tt, d) ->
  destroyed d /\
  forall j, valid j -> type (node_at (ledger d) j) = type (node_at (ledger a) j).
Proof.
  intros Hl Hc Hlast E. unfold mavalloc_destroy in E. rewrite bind_gets in E.
  apply bind_Done in E as ([] & a1 & Efree & E). rewrite !bind_modify in E.
  unfold modify in E. injection E as <-.
  assert (Ea1 : ledger a1 = ledger a /\ traverse_back_ptr a1 = traverse_back_ptr a /\
                next_fit_last_ptr a1 = next_fit_last_ptr a).
  { unfold libc_free in Efree. destruct (pool a =? NULL).
    - injection Efree as <-. auto.
    - destruct (bool_decide _); [|discriminate]. injection Efree as <-. auto. }
  destruct Ea1 as (El & Ec & En). unfold destroyed. fields. rewrite El, Ec, En.
  split; [split; [|split; [|split]]|]; try assumption.
  - unfold table. rewrite length_map. exact Hl.
  - intros j Hj. rewrite (node_at_map _ _ _ Hl Hj). cbn. auto.
  - intros j Hj. rewrite (node_at_map _ _ _ Hl Hj). reflexivity.
Qed.

(** X4.  When [pool] is null or a region [malloc] reserved that was not
    released since, [mavalloc_destroy] releases it and empties every record
    of the table (size 0, null [arena], both links [-1]; the [type] of a
    record is kept), sets [pool_size] to 0 and [ledger_top] to [-1] and
    leaves the address in [pool]; [mavalloc_size] then returns 0, and
    another [mavalloc_destroy] gives the released address to [free] again.
    When [pool] is neither null nor reserved, the call is that invalid
    [free]. *)
Theorem destroy_empties_the_ledger (a : allocator) :
  table (ledger a) -> valid (traverse_back_ptr a) ->
  next_fit_last_ptr a = -1 \/ valid (next_fit_last_ptr a) ->
  (pool a = NULL \/ pool a ∈ heap a ->
   exists d,
     mavalloc_destroy a = Done (tt, d) /\ destroyed d /\
     (forall j, valid j -> type (node_at (ledger d) j) = type (node_at (ledger a) j)) /\
     ledger_top d = -1 /\ pool_size d = 0 /\ pool d = pool a /\
     (pool a = NULL -> heap d = heap a) /\
     (pool a <> NULL ->
        (pool a ∉ heap d) /\ (forall q, q <> pool a -> (q ∈ heap d <-> q ∈ heap a))) /\
     mavalloc_size d = Done (0, with_traverse_back_ptr 0 d) /\
     (pool a <> NULL -> mavalloc_destroy d = InvalidFree (pool a))) /\
  (pool a <> NULL -> pool a ∉ heap a -> mavalloc_destroy a = InvalidFree (pool a)).
Proof.
  intros Hl Hc Hlast.
  assert (Hbad : forall x, pool x <> NULL -> pool x ∉ heap x ->
                   mavalloc_destroy x = InvalidFree (pool x)).
  { intros x Hne Hout. unfold mavalloc_destroy. rewrite bind_gets.
    unfold bind at 1. now rewrite (libc_free_invalid _ _ Hne Hout). }
  split; [|apply Hbad].
  intros Hp. destruct (libc_free_run (pool a) a Hp) as (h' & Efree & Hnull & Hlive).
  pose proof (destroy_run a h' Efree) as E.
  destruct (destroy_destroyed a _ Hl Hc Hlast E) as [Hd Hty].
  eexists. split; [exact E|]. split; [exact Hd|]. split; [exact Hty|].
  do 3 (split; [reflexivity|]). fields.
  split; [exact Hnull|]. split; [exact Hlive|]. split.
  - assert (H0 : valid 0) by (unfold valid, MAX_ALLOCS; lia).
    pose proof Hd as (Hl' & Hrec & _).
    unfold mavalloc_size, mavalloc_size_with. fold traverse_back.
    rewrite (bind_run _ _ _ _ _ (traverse_back_destroyed _ Hd)).
    erewrite bind_rd by (fields; apply (ledger_at_node_at _ _ Hl' H0)). fields.
    destruct (Hrec 0 H0) as (_ & -> & _). reflexivity.
  - intros Hne.
    exact (Hbad (with_ledger_top (-1) (with_pool_size 0
                   (with_ledger (map reset_node (ledger a)) (with_heap h' a))))
                Hne (proj1 (Hlive Hne))).
Qed.

(** Destroying a pool that holds two Process blocks, once and twice. *)
Lemma destroy_empties_the_ledger_witness :
  let a := state_after [Init 4096 32 FIRST_FIT; Alloc 8; Alloc 8] in
  let d := state_after [Init 4096 32 FIRST_FIT; Alloc 8; Alloc 8; Destroy] in
  (exists d',
     mavalloc_destroy a = Done (tt, d') /\ destroyed d' /\
     (forall j, valid j -> type (node_at (ledger d') j) = type (node_at (ledger a) j)) /\
     ledger_top d' = -1 /\ pool_size d' = 0 /\ pool d' = pool a /\
     (pool a = NULL -> heap d' = heap a) /\
     (pool a <> NULL ->
        (pool a ∉ heap d') /\ (forall q, q <> pool a -> (q ∈ heap d' <-> q ∈ heap a))) /\
     mavalloc_size d' = Done (0, with_traverse_back_ptr 0 d') /\
     (pool a <> NULL -> mavalloc_destroy d' = InvalidFree (pool a))) /\
  mavalloc_destroy d = InvalidFree (pool d).
Proof.
  intros a d.
  assert (Hs : storage_ok a) by apply reachable_storage, reachable_first_fit.
  assert (Hlast : next_fit_last_ptr a = -1 \/ valid (next_fit_last_ptr a))
    by (right; vm_compute; split; [discriminate|reflexivity]).
  split.
  - apply (proj1 (destroy_empties_the_ledger a (proj1 Hs) (proj2 Hs) Hlast)).
    right. vm_compute. left.
  - assert (E : mavalloc_destroy a = Done (tt, d)) by (vm_compute; reflexivity).
    destruct (destroy_destroyed a d (proj1 Hs) (proj2 Hs) Hlast E) as [(Hl & _ & Hc & Hn) _].
    apply (proj2 (destroy_empties_the_ledger d Hl Hc Hn)).
    + vm_compute. discriminate.
    + vm_compute. intros Hin. inversion Hin.
Defined.

(** X5.  After [mavalloc_destroy], under every strategy,
    [mavalloc_alloc] returns [NULL] for every size, [mavalloc_free] changes
    no record, [mavalloc_size] returns 0, and the ledger stays as
    [mavalloc_destroy] left it, so this holds for any number of such
    calls. *)
Theorem nothing_is_served_after_destroy (d : allocator) :
  destroyed d ->
  (forall size0, exists d',
      mavalloc_alloc size0 d = Done (NULL, d') /\ destroyed d') /\
  (forall ptr, exists d',
      mavalloc_free ptr d = Done (tt, d') /\ destroyed d' /\ ledger d' = ledger d) /\
  (exists d', mavalloc_size d = Done (0, d') /\ destroyed d' /\ ledger d' = ledger d).
Proof.
  intros Hd. pose proof Hd as (Hl & Hrec & Hc & Hlast).
  assert (H0 : valid 0) by (unfold valid, MAX_ALLOCS; lia).
  split; [|split].
  - intros size0.
    destruct (select_hole_destroyed (ALIGN4 (to_size_t size0)) d Hd) as (r & d1 & Es & Hd1 & Hr).
    destruct Hr as [->|Hr].
    + exists d1. split; [apply (alloc_none_run _ _ _ Es)|exact Hd1].
    + assert (Hne : r <> -1) by (unfold valid in Hr; lia).
      destruct (select_hole_qualifies _ _ _ _ Es Hne) as (h & Hh & Hty & Hsz).
      destruct (ledger_at_valid _ _ _ Hh) as [_ Hnode].
      pose proof Hd1 as (Hl1 & Hrec1 & Hc1 & Hlast1).
      destruct (Hrec1 r Hr) as (Hs & Ha & Hn & Hp). rewrite Hnode in Hs, Ha, Hn, Hp.
      pose proof (ALIGN4_range (to_size_t size0)) as Hrange.
      assert (Hexact : size h = ALIGN4 (to_size_t size0)) by lia.
      rewrite (alloc_exact_run _ _ _ _ _ Es Hne Hh Hexact), Ha.
      eexists. split; [reflexivity|].
      split; [|split; [|split]]; fields; try assumption.
      * now apply table_upd.
      * intros j Hj. rewrite node_at_upd by assumption.
        destruct (decide (j = r)) as [->|_]; [cbn; auto|apply (Hrec1 j Hj)].
  - intros ptr. unfold mavalloc_free, mavalloc_free_with.
    destruct (ptr =? NULL) eqn:Eptr; [exists d; auto|].
    fold traverse_back. rewrite (bind_run _ _ _ _ _ (traverse_back_destroyed d Hd)).
    destruct fuel_two as (k & Ek).
    assert (free_search fuel ptr 0 (ledger d) = Done (-1)) as Es.
    { rewrite Ek. cbn [free_search Z.eqb]. rewrite (ledger_at_node_at _ _ Hl H0). cbn [obind].
      destruct (Hrec 0 H0) as (_ & -> & -> & _).
      rewrite Z.eqb_sym, Eptr. reflexivity. }
    unfold bind at 1. unfold lift at 1. fields. rewrite Es. cbn [obind fst snd Z.eqb negb].
    exists (with_traverse_back_ptr 0 d). split; [reflexivity|].
    split; [now apply destroyed_cache|reflexivity].
  - unfold mavalloc_size, mavalloc_size_with. fold traverse_back.
    rewrite (bind_run _ _ _ _ _ (traverse_back_destroyed _ Hd)).
    erewrite bind_rd by (fields; apply (ledger_at_node_at _ _ Hl H0)).
    destruct (Hrec 0 H0) as (_ & -> & _).
    exists (with_traverse_back_ptr 0 d). split; [reflexivity|].
    split; [now apply destroyed_cache|reflexivity].
Qed.

(** The state a run leaves that ends with [mavalloc_destroy]. *)
Lemma nothing_is_served_after_destroy_witness :
  let d := state_after [Init 4096 32 FIRST_FIT; Alloc 8; Alloc 8; Destroy] in
  (forall size0, exists d',
      mavalloc_alloc size0 d = Done (NULL, d') /\ destroyed d') /\
  (forall ptr, exists d',
      mavalloc_free ptr d = Done (tt, d') /\ destroyed d' /\ ledger d' = ledger d) /\
  (exists d', mavalloc_size d = Done (0, d') /\ destroyed d' /\ ledger d' = ledger d).
Proof.
  intros d.
  apply (nothing_is_served_after_destroy d).
  set (a := state_after [Init 4096 32 FIRST_FIT; Alloc 8; Alloc 8]).
  assert (E : mavalloc_destroy a = Done (tt, d)) by (vm_compute; reflexivity).
  apply (destroy_destroyed a d); [..|exact E].
  - apply reachable_storage, reachable_first_fit.
  - apply reachable_storage, reachable_first_fit.
  - right. vm_compute. split; [discriminate|reflexivity].
Defined.

(** ** [mavalloc_init] *)

(** X6.  From any state of the table, also one in use or destroyed:
    when the reservation fails, [mavalloc_init] returns [-1] having
    overwritten the strategy, [pool_size] and [pool] but no record; when it
    succeeds it returns 0 and the pool is one Hole of the aligned capacity,
    whatever the ledger held before. *)
Theorem init_starts_from_one_hole (m size0 : Z) (alg : ALGORITHM) (a : allocator) :
  storage_ok a ->
  (m = NULL ->
     mavalloc_init m size0 alg a =
       Done (-1, with_pool NULL (with_pool_size (ALIGN4 (to_size_t size0))
                                   (with_alloc_algorithm alg a)))) /\
  (0 < m -> m + ALIGN4 (to_size_t size0) <= 2 ^ 64 ->
     exists a',
       mavalloc_init m size0 alg a = Done (0, a') /\
       pool a' = m /\ pool_size a' = ALIGN4 (to_size_t size0) /\
       alloc_algorithm a' = alg /\ ledger_top a' = 0 /\
       blocks a' = Done [mkBlock H 0 (ALIGN4 (to_size_t size0))]).
Proof.
  intros Hs. split.
  - intros ->. unfold mavalloc_init.
    rewrite bind_modify, init_guard_is_dead, !bind_modify, bind_gets. reflexivity.
  - intros Hm Hend. pose proof Hs as [Hl Hc].
    destruct (init_run m size0 alg a Hl) as (l' & E & Hl' & H0 & _); [unfold NULL; lia|].
    eexists. split; [exact E|].
    pose proof (init_well_formed m size0 alg a _ Hs Hm Hend E) as [Hwl _].
    do 4 (split; [reflexivity|]).
    rewrite (blocks_well_linked _ _ Hwl). cbn [map]. fields. rewrite H0.
    unfold block_of. fields. rewrite Z.sub_diag. reflexivity.
Qed.

(** A request of 30 bytes at program start, without and with memory. *)
Lemma init_starts_from_one_hole_witness :
  mavalloc_init NULL 30 BEST_FIT boot =
    Done (-1, with_pool NULL (with_pool_size 32 (with_alloc_algorithm BEST_FIT boot))) /\
  exists a',
    mavalloc_init 4096 30 BEST_FIT boot = Done (0, a') /\
    pool a' = 4096 /\ pool_size a' = 32 /\
    alloc_algorithm a' = BEST_FIT /\ ledger_top a' = 0 /\
    blocks a' = Done [mkBlock H 0 32].
Proof.
  split.
  - apply (proj1 (init_starts_from_one_hole NULL 30 BEST_FIT boot boot_storage_ok)).
    reflexivity.
  - apply (proj2 (init_starts_from_one_hole 4096 30 BEST_FIT boot boot_storage_ok)).
    + lia.
    + vm_compute. discriminate.
Defined.

(** ** [mavalloc_alloc], on the records *)

(** X18.  Under every strategy: let the strategy select the record [idx],
    a Hole [h] of at least the aligned request [sz].  If [size h = sz], the
    record is retyped [P] in place, nothing else changes ([ledger_top]
    included: no new record) and its [arena] is returned.  Otherwise, when
    the table is not full, [idx] and the predecessor of [h] are records in
    use (at most [ledger_top]), the predecessor is not [idx] itself and the
    Hole ends below 2^64, the record [ledger_top + 1] becomes a Process of
    [sz] bytes at the old start of the Hole, linked between the Hole's
    former predecessor and the Hole; the Hole keeps the rest: [sz] bytes
    less, starting [sz] bytes further; the new record's [arena] is
    returned and no other record changes. *)
Theorem alloc_exact_or_split (size0 : Z) (a a1 : allocator) (idx : Z) :
  let sz := ALIGN4 (to_size_t size0) in
  select_hole sz a = Done (idx, a1) ->
  idx <> -1 ->
  exists h,
    ledger_at idx (ledger a1) = Done h /\ type h = H /\ sz <= size h /\
    (size h = sz ->
       mavalloc_alloc size0 a =
         Done (arena h, with_ledger (<[Z.to_nat idx := set_type P h]> (ledger a1)) a1)) /\
    (size h <> sz ->
       table (ledger a1) ->
       0 <= ledger_top a1 + 1 < MAX_ALLOCS ->
       idx <= ledger_top a1 ->
       -1 <= previous h <= ledger_top a1 ->
       previous h <> idx ->
       size h < 2 ^ 64 -> 0 <= arena h -> arena h + size h <= 2 ^ 64 ->
       exists a',
         mavalloc_alloc size0 a = Done (arena h, a') /\
         ledger_top a' = ledger_top a1 + 1 /\
         ledger_at (ledger_top a') (ledger a') =
           Done (mkNode sz P (arena h) idx (previous h)) /\
         ledger_at idx (ledger a') =
           Done (mkNode (size h - sz) H (arena h + sz) (next h) (ledger_top a')) /\
         (previous h <> -1 ->
            exists p, ledger_at (previous h) (ledger a1) = Done p /\
                      ledger_at (previous h) (ledger a') = Done (set_next (ledger_top a') p)) /\
         (forall j, j <> ledger_top a' -> j <> idx -> j <> previous h ->
                    ledger_at j (ledger a') = ledger_at j (ledger a1))).
Proof.
  intros sz Esel Hidx.
  destruct (select_hole_qualifies _ _ _ _ Esel Hidx) as (h & Hh & Hty & Hsz).
  exists h. repeat (split; [assumption|]).
  pose proof (ALIGN4_range (to_size_t size0)) as Hrange. fold sz in Hrange.
  split.
  - intros Hexact. exact (alloc_exact_run size0 a a1 idx h Esel Hidx Hh Hexact).
  - intros Hsplit Htab Htop Hle Hprev Hself Hsize Harena Hend.
    destruct (ledger_at_valid _ _ _ Hh) as [Hidxv _].
    destruct (alloc_split_run size0 a a1 idx h Esel Hidx Hh Hsplit Htab)
      as (l' & Erun & Htab' & Hl');
      [exact Htop | lia | lia | assumption | unfold valid; lia | ].
    cbv zeta in Erun, Hl'. fold sz in Hl'.
    set (top := ledger_top a1 + 1) in *.
    exists (with_ledger l' (with_ledger_top top a1)). split; [exact Erun|]. fields.
    split; [reflexivity|].
    split.
    { rewrite (ledger_at_node_at _ _ Htab' Htop), (Hl' _ Htop).
      rewrite decide_True by reflexivity. reflexivity. }
    split.
    { rewrite (ledger_at_node_at _ _ Htab' Hidxv), (Hl' _ Hidxv).
      rewrite decide_False by lia. rewrite decide_True by reflexivity.
      rewrite Hty, !to_size_t_small by lia. reflexivity. }
    split.
    { intros Hne. assert (Hpv : valid (previous h)) by (unfold valid; lia).
      exists (node_at (ledger a1) (previous h)).
      split; [apply ledger_at_node_at; assumption|].
      rewrite (ledger_at_node_at _ _ Htab' Hpv), (Hl' _ Hpv).
      rewrite decide_False by lia. rewrite decide_False by lia.
      rewrite decide_True by reflexivity. reflexivity. }
    intros j Hj1 Hj2 Hj3. destruct (decide (0 <= j < MAX_ALLOCS)) as [Hj|Hj].
    + rewrite (ledger_at_node_at _ _ Htab' Hj), (ledger_at_node_at _ _ Htab Hj), (Hl' _ Hj).
      rewrite !decide_False by assumption. reflexivity.
    + rewrite !ledger_at_invalid by assumption. reflexivity.
Qed.

(** First-fit in a 32-byte pool holding one 8-byte Process and a 24-byte
    Hole (record 0): a request of 8 bytes splits the Hole, a request of 24
    bytes takes it whole. *)
Lemma alloc_exact_or_split_witness :
  let a := state_after [Init 4096 32 FIRST_FIT; Alloc 8] in
  (exists a', mavalloc_alloc 8 a = Done (4104, a') /\
              ledger_top a' = 2 /\
              ledger_at 2 (ledger a') = Done (mkNode 8 P 4104 0 1) /\
              ledger_at 0 (ledger a') = Done (mkNode 16 H 4112 (-1) 2)) /\
  (exists a', mavalloc_alloc 24 a = Done (4104, a') /\
              ledger_top a' = 1 /\
              ledger_at 0 (ledger a') = Done (mkNode 24 P 4104 (-1) 1)).
Proof.
  intros a.
  assert (Etop1 : ledger_top (with_traverse_back_ptr 1 a) = 1) by (vm_compute; reflexivity).
  split.
  - destruct (alloc_exact_or_split 8 a (with_traverse_back_ptr 1 a) 0)
      as (h & Hh & _ & _ & _ & Hsplit).
    + vm_compute. reflexivity.
    + lia.
    + assert (h = mkNode 24 H 4104 (-1) 1) as -> by (vm_compute in Hh; congruence).
      destruct Hsplit as (a' & E & Etop & Enew & Ehole & _).
      * vm_compute. discriminate.
      * vm_compute. reflexivity.
      * rewrite Etop1. unfold MAX_ALLOCS. lia.
      * rewrite Etop1. lia.
      * rewrite Etop1. cbn [previous]. lia.
      * cbn [previous]. lia.
      * cbn [size]. lia.
      * cbn [arena]. lia.
      * cbn [arena size]. lia.
      * exists a'. rewrite Etop1 in Etop. rewrite Etop in Enew, Ehole.
        repeat split; assumption.
  - destruct (alloc_exact_or_split 24 a (with_traverse_back_ptr 1 a) 0)
      as (h & Hh & _ & _ & Hexact & _).
    + vm_compute. reflexivity.
    + lia.
    + assert (h = mkNode 24 H 4104 (-1) 1) as -> by (vm_compute in Hh; congruence).
      eexists. split; [apply Hexact; vm_compute; reflexivity|].
      split; vm_compute; reflexivity.
Defined.

(** ** The invariants, and best- and worst-fit, on examples *)

(** Best-fit on P[0,8) H[8,24) P[24,32). *)
Lemma reachable_invariants_witness :
  let a := state_after [Init 4096 32 BEST_FIT; Alloc 8; Alloc 16; Alloc 8; Free 4104] in
  partition_invariant a /\
  coalesced_invariant a /\
  exists (hd : Z) (rest : list Z),
    live_list a = Done (hd :: rest) /\
    traverse_back a = Done (hd, with_traverse_back_ptr hd a) /\
    arena (node_at (ledger a) hd) = pool a /\
    forall j, j ∈ hd :: rest -> (previous (node_at (ledger a) j) = -1 <-> j = hd).
Proof.
  intros a. apply (reachable_invariants a). apply reachable_best_fit.
Defined.

(** Best- and worst-fit on P[0,8) H[8,24) P[24,32). *)
Lemma best_worst_fit_small_holes_witness :
  let a := state_after [Init 4096 32 BEST_FIT; Alloc 8; Alloc 16; Alloc 8; Free 4104] in
  let a1 := with_traverse_back_ptr 1 a in
  (exists r, best_fit 8 a = Done (r, a1) /\
     ((r = -1 /\ forall x, x ∈ [1; 2; 0] -> ~ qualifies (ledger a) 8 x) \/
      first_best Z.lt (ledger a) 8 [1; 2; 0] r)) /\
  (exists r, worst_fit 8 a = Done (r, a1) /\
     ((r = -1 /\ forall x, x ∈ [1; 2; 0] -> ~ qualifies (ledger a) 8 x) \/
      first_best Z.gt (ledger a) 8 [1; 2; 0] r)).
Proof.
  intros a.
  apply (best_worst_fit_small_holes 8 a [1; 2; 0]).
  - apply reachable_live_list; [apply reachable_best_fit|vm_compute; reflexivity].
  - intros x Hx.
    repeat (apply elem_of_cons in Hx as [->|Hx]); [vm_compute; reflexivity..|inversion Hx].
Defined.

(** * The calls, on the blocks

    What [mavalloc_alloc] and [mavalloc_free] do to the list of blocks the
    caller sees, on a ledger that is in order. *)

(** ** Lists of blocks *)

Lemma cons_inv {A : Type} (x y : A) (xs ys : list A) :
  x :: xs = y :: ys -> x = y /\ xs = ys.
Proof. intros E. now injection E. Qed.

Lemma map_app_inv {A B : Type} (f g : A -> B) (xs ys : list A) (zs : list B) :
  map f (xs ++ ys) = map g xs ++ zs -> map f xs = map g xs /\ map f ys = zs.
Proof.
  rewrite map_app. intros E. apply app_inj_1 in E; [exact E|].
  now rewrite !length_map.
Qed.

Lemma map_eq_elem {A B : Type} (f g : A -> B) (xs : list A) (x : A) :
  map f xs = map g xs -> x ∈ xs -> f x = g x.
Proof.
  induction xs as [|y xs IH]; intros E Hx; [inversion Hx|].
  cbn [map] in E. injection E as E1 E2.
  apply elem_of_cons in Hx as [->|Hx]; auto.
Qed.

Lemma release_none (o : Z) (bs : list block) :
  (forall b, b ∈ bs -> offset b <> o) -> release o bs = Some bs.
Proof.
  induction bs as [|b bs IH]; intros Hno; [reflexivity|].
  cbn [release].
  assert ((offset b =? o) = false) as -> by (apply Z.eqb_neq, Hno; left).
  destruct bs as [|b' bs]; [reflexivity|].
  assert ((offset b' =? o) = false) as -> by (apply Z.eqb_neq, Hno; right; left).
  cbn [andb]. rewrite IH; [reflexivity|]. intros x Hx. apply Hno. now right.
Qed.

Lemma release_first (o : Z) (b : block) (rest : list block) :
  offset b = o -> release o (b :: rest) = join (mkBlock H (offset b) (extent b)) rest.
Proof. intros E. cbn [release]. now rewrite (proj2 (Z.eqb_eq _ _) E). Qed.

Lemma release_after (o : Z) (pre : list block) (p b : block) (rest : list block) :
  (forall x, x ∈ pre -> offset x <> o) -> offset p <> o -> offset b = o ->
  release o (pre ++ p :: b :: rest) =
    if is_H (kind p) then
      match rest with
      | [] => None
      | _ :: _ => option_map (app pre) (join (mkBlock H (offset p) (extent p + extent b)) rest)
      end
    else option_map (app (pre ++ [p])) (join (mkBlock H (offset b) (extent b)) rest).
Proof.
  intros Hno Hp Hb. induction pre as [|x pre IH].
  - cbn [app release].
    rewrite (proj2 (Z.eqb_neq _ _) Hp), (proj2 (Z.eqb_eq _ _) Hb). cbn [andb].
    destruct (is_H (kind p)).
    + destruct rest; [reflexivity|]. now destruct (join _ _).
    + now destruct (join _ _).
  - assert (Hx : offset x <> o) by (apply Hno; left).
    assert (IH' := IH (fun y Hy => Hno y (proj2 (elem_of_cons _ _ _) (or_intror Hy)))).
    cbn [app]. cbn [release]. rewrite (proj2 (Z.eqb_neq _ _) Hx).
    destruct (pre ++ p :: b :: rest) as [|b' rest'] eqn:E; [now destruct pre|].
    assert ((offset b' =? o) = false) as ->.
    { apply Z.eqb_neq. destruct pre as [|y pre]; cbn [app] in E; injection E as <- _.
      - exact Hp.
      - apply Hno. right. left. }
    cbn [andb]. rewrite IH'.
    destruct (is_H (kind p)).
    + destruct rest; [reflexivity|]. now destruct (join _ _).
    + now destruct (join _ _).
Qed.

Lemma release_retype (o : Z) (pre : list block) (b : block) (post : list block) :
  (forall x, x ∈ pre -> offset x <> o) -> offset b = o ->
  release o (pre ++ b :: post) =
  release o (pre ++ mkBlock H (offset b) (extent b) :: post).
Proof.
  intros Hno Hb. destruct pre as [|x pre _] using rev_ind.
  - cbn [app]. now rewrite !release_first.
  - rewrite <- !app_assoc. cbn [app].
    assert (Hx : offset x <> o) by (apply Hno, elem_of_app; right; left).
    assert (Hpre : forall y, y ∈ pre -> offset y <> o).
    { intros y Hy. apply Hno, elem_of_app. now left. }
    now rewrite !release_after.
Qed.

Lemma release_carved (o sz o' e' : Z) (bs1 bs2 : list block) :
  (forall x, x ∈ bs1 -> offset x <> o) ->
  (forall p, last bs1 = Some p -> kind p = P) ->
  release o (bs1 ++ mkBlock P o sz :: mkBlock H o' e' :: bs2) =
    match bs2 with
    | [] => None
    | _ :: _ => Some (bs1 ++ mkBlock H o (sz + e') :: bs2)
    end.
Proof.
  intros Hno Hlast. destruct bs1 as [|p bs1 _] using rev_ind.
  - cbn [app]. rewrite release_first by reflexivity. cbn. now destruct bs2.
  - rewrite <- app_assoc. cbn [app]. rewrite release_after; try reflexivity.
    + rewrite (Hlast p) by apply last_snoc. cbn.
      destruct bs2; [reflexivity|]. cbn. now rewrite <- app_assoc.
    + intros x Hx. apply Hno, elem_of_app. now left.
    + apply Hno, elem_of_app. right. left.
Qed.

Lemma release_whole (o e : Z) (bs1 bs2 : list block) :
  (forall x, x ∈ bs1 -> offset x <> o) ->
  (forall p, last bs1 = Some p -> kind p = P) ->
  (forall q, head bs2 = Some q -> kind q = P) ->
  release o (bs1 ++ mkBlock P o e :: bs2) = Some (bs1 ++ mkBlock H o e :: bs2).
Proof.
  intros Hno Hlast Hhead.
  assert (Hj : join (mkBlock H o e) bs2 = Some (mkBlock H o e :: bs2)).
  { destruct bs2 as [|q bs2]; [reflexivity|]. cbn. now rewrite (Hhead q eq_refl). }
  destruct bs1 as [|p bs1 _] using rev_ind.
  - cbn [app]. rewrite release_first by reflexivity. exact Hj.
  - rewrite <- app_assoc. cbn [app]. rewrite release_after; try reflexivity.
    + rewrite (Hlast p) by apply last_snoc. cbn [is_H offset extent]. rewrite Hj. cbn.
      now rewrite <- app_assoc.
    + intros x Hx. apply Hno, elem_of_app. now left.
    + apply Hno, elem_of_app. right. left.
Qed.

(** ** Blocks and records *)

Lemma block_at_kind (a : allocator) (j : Z) : kind (block_at a j) = type (node_at (ledger a) j).
Proof. reflexivity. Qed.

Lemma block_at_offset (a : allocator) (ptr j : Z) :
  offset (block_at a j) = ptr - pool a <-> arena (node_at (ledger a) j) = ptr.
Proof. unfold block_at, block_of. cbn [offset]. lia. Qed.

Lemma blocks_block_at (a : allocator) (live : list Z) :
  well_linked a live -> blocks a = Done (map (block_at a) live).
Proof.
  intros Hwl. rewrite (blocks_well_linked _ _ Hwl). now rewrite map_map.
Qed.

Lemma map_block_at_ext (a a' : allocator) (xs : list Z) :
  pool a' = pool a ->
  (forall j, j ∈ xs ->
     type (node_at (ledger a') j) = type (node_at (ledger a) j) /\
     arena (node_at (ledger a') j) = arena (node_at (ledger a) j) /\
     size (node_at (ledger a') j) = size (node_at (ledger a) j)) ->
  map (block_at a') xs = map (block_at a) xs.
Proof.
  intros Ep Hsame. induction xs as [|x xs IH]; [reflexivity|].
  cbn [map]. f_equal.
  - unfold block_at, block_of. rewrite Ep.
    destruct (Hsame x) as (-> & -> & ->); [left|reflexivity].
  - apply IH. intros j Hj. apply Hsame. now right.
Qed.

(** What a merge of the record [y] into the record [x] before it does to
    the blocks. *)
Lemma blocks_after_merge (a a' : allocator) (pre post : list Z) (x y z : Z) :
  well_linked a (pre ++ x :: y :: z :: post) ->
  pool a' = pool a ->
  (forall j, node_at (ledger a') j =
     if decide (j = x)
     then mkNode (to_size_t (size (node_at (ledger a) x) + size (node_at (ledger a) y)))
                 (type (node_at (ledger a) x)) (arena (node_at (ledger a) x)) z
                 (previous (node_at (ledger a) x))
     else if decide (j = z) then set_previous x (node_at (ledger a) z)
     else node_at (ledger a) j) ->
  map (block_at a') pre = map (block_at a) pre /\
  block_at a' x = mkBlock (kind (block_at a x)) (offset (block_at a x))
                    (extent (block_at a x) + extent (block_at a y)) /\
  map (block_at a') (z :: post) = map (block_at a) (z :: post).
Proof.
  intros Hwl Ep HF.
  pose proof (wl_nodup _ _ Hwl) as Hnd. pose proof (wl_tiles _ _ Hwl) as Ht.
  destruct (wl_pool _ _ Hwl) as [Hp0 Hp1].
  apply NoDup_app in Hnd as (_ & Hdisj & Hnd).
  apply NoDup_cons in Hnd as [Hx_out _].
  apply tiles_app in Ht as (mid & Htpre & (Hax & Hsx & (Hay & Hsy & Htz))).
  pose proof (tiles_le _ _ _ _ Htpre). pose proof (tiles_le _ _ _ _ Htz).
  assert (Hother : forall j, j <> x ->
            type (node_at (ledger a') j) = type (node_at (ledger a) j) /\
            arena (node_at (ledger a') j) = arena (node_at (ledger a) j) /\
            size (node_at (ledger a') j) = size (node_at (ledger a) j)).
  { intros j Hj. rewrite HF, decide_False by assumption.
    destruct (decide (j = z)) as [->|]; auto. }
  split; [|split].
  - apply map_block_at_ext; [assumption|]. intros j Hj. apply Hother.
    intros ->. apply (Hdisj x Hj). left.
  - unfold block_at, block_of. rewrite HF, decide_True by reflexivity. fields.
    rewrite Ep. rewrite to_size_t_small by lia. reflexivity.
  - apply map_block_at_ext; [assumption|]. intros j Hj. apply Hother.
    intros ->. apply Hx_out. now right.
Qed.

Lemma tiles_before (l : list Node) (pre post : list Z) (i : Z) (from to : Z) :
  tiles l from (pre ++ i :: post) to ->
  from <= arena (node_at l i) /\
  arena (node_at l i) + size (node_at l i) <= to /\
  0 <= size (node_at l i) /\
  forall x, x ∈ pre ->
    arena (node_at l x) + size (node_at l x) <= arena (node_at l i).
Proof.
  intros Ht. apply tiles_app in Ht as (mid & Hpre & (Ha & Hs & Hpost)).
  pose proof (tiles_le _ _ _ _ Hpre). pose proof (tiles_le _ _ _ _ Hpost).
  split; [lia|]. split; [lia|]. split; [lia|].
  intros x Hx. apply list_elem_of_split in Hx as (p1 & p2 & ->).
  apply tiles_app in Hpre as (m1 & _ & (Hax & Hsx & Hp2)).
  pose proof (tiles_le _ _ _ _ Hp2). lia.
Qed.

Lemma last_or_last (d p : Z) (xs : list Z) : last xs = Some p -> last_or d xs = p.
Proof.
  revert d. induction xs as [|x xs IH]; intros d E; [discriminate|].
  cbn [last_or]. destruct xs as [|y xs]; [now injection E|]. now apply IH.
Qed.

(** The neighbours of a Hole of a well-formed list are Process blocks. *)
Lemma separated_around (a : allocator) (pre post : list Z) (idx : Z) :
  separated (ledger a) (-1) (pre ++ idx :: post) ->
  type (node_at (ledger a) idx) = H ->
  (forall p, last (map (block_at a) pre) = Some p -> kind p = P) /\
  (forall q, head (map (block_at a) post) = Some q -> kind q = P) /\
  (pre = [] \/ type (node_at (ledger a) (last_or (-1) pre)) = P).
Proof.
  intros Hsep Hty. apply separated_app in Hsep as [_ [Hprev Hpost]].
  assert (Hl : pre = [] \/ type (node_at (ledger a) (last_or (-1) pre)) = P).
  { destruct pre as [|x pre]; [now left|right].
    destruct (type (node_at (ledger a) (last_or (-1) (x :: pre)))) eqn:E; [reflexivity|].
    exfalso. apply Hprev. split; [exact E|exact Hty]. }
  split; [|split; [|exact Hl]].
  - intros p Hp. change (map (block_at a) pre) with (block_at a <$> pre) in Hp.
    rewrite fmap_last in Hp. destruct (last pre) as [j|] eqn:Ej; [|discriminate].
    injection Hp as <-. rewrite block_at_kind.
    destruct Hl as [->|Hl]; [discriminate|]. now rewrite (last_or_last _ _ _ Ej) in Hl.
  - intros q Hq. destruct post as [|j post]; [discriminate|]. injection Hq as <-.
    rewrite block_at_kind. destruct Hpost as [Hj _].
    destruct (type (node_at (ledger a) j)) eqn:E; [reflexivity|].
    exfalso. apply Hj. split; [exact Hty|exact E].
Qed.

(** ** The steps of [mavalloc_free], case by case *)

Lemma free_search_none (l : list Node) (ptr : Z) (xs : list Z) :
  table l ->
  forall (prv : Z) (k : nat),
    chain l prv xs (-1) -> (length xs < k)%nat ->
    (forall x, x ∈ xs -> arena (node_at l x) <> ptr) ->
    free_search k ptr (head_or (-1) xs) l = Done (-1).
Proof.
  intros Hl. induction xs as [|x xs IH]; intros prv [|k] Hc Hk Hno; cbn [length] in Hk; try lia.
  - reflexivity.
  - destruct Hc as (Hv & _ & Hn & Hc). cbn [free_search head_or].
    assert ((x =? -1) = false) as -> by (apply Z.eqb_neq; unfold valid in Hv; lia).
    rewrite (ledger_at_node_at l x Hl Hv). cbn [obind].
    assert ((arena (node_at l x) =? ptr) = false) as ->.
    { apply Z.eqb_neq, Hno. left. }
    rewrite Hn. apply (IH x k Hc); [lia|]. intros y Hy. apply Hno. now right.
Qed.

Lemma free_search_found (l : list Node) (ptr : Z) (pre post : list Z) (i : Z) :
  table l ->
  forall (prv : Z) (k : nat),
    chain l prv (pre ++ i :: post) (-1) -> (length (pre ++ i :: post) < k)%nat ->
    (forall x, x ∈ pre -> arena (node_at l x) <> ptr) ->
    arena (node_at l i) = ptr ->
    free_search k ptr (head_or (-1) (pre ++ i :: post)) l = Done i.
Proof.
  intros Hl. induction pre as [|x pre IH]; intros prv [|k] Hc Hk Hno Hi;
    cbn [length app] in Hk; try lia.
  - destruct Hc as (Hv & _ & Hn & Hc). cbn [free_search head_or app].
    assert ((i =? -1) = false) as -> by (apply Z.eqb_neq; unfold valid in Hv; lia).
    rewrite (ledger_at_node_at l i Hl Hv). cbn [obind].
    now rewrite (proj2 (Z.eqb_eq _ _) Hi).
  - destruct Hc as (Hv & _ & Hn & Hc). cbn [free_search head_or app].
    assert ((x =? -1) = false) as -> by (apply Z.eqb_neq; unfold valid in Hv; lia).
    rewrite (ledger_at_node_at l x Hl Hv). cbn [obind].
    assert ((arena (node_at l x) =? ptr) = false) as ->.
    { apply Z.eqb_neq, Hno. left. }
    cbn [app] in Hn. rewrite Hn. apply (IH x k Hc); [lia| |assumption].
    intros y Hy. apply Hno. now right.
Qed.

Lemma first_starting_at (l : list Node) (ptr : Z) (xs : list Z) :
  (forall x, x ∈ xs -> arena (node_at l x) <> ptr) \/
  exists pre i post, xs = pre ++ i :: post /\
    (forall x, x ∈ pre -> arena (node_at l x) <> ptr) /\ arena (node_at l i) = ptr.
Proof.
  induction xs as [|x xs IH].
  - left. intros x Hx. inversion Hx.
  - destruct (decide (arena (node_at l x) = ptr)) as [Hx|Hx].
    + right. exists [], x, xs. split; [reflexivity|]. split; [|exact Hx].
      intros y Hy. inversion Hy.
    + destruct IH as [Hno|(pre & i & post & -> & Hno & Hi)].
      * left. intros y Hy. apply elem_of_cons in Hy as [->|Hy]; auto.
      * right. exists (x :: pre), i, post. split; [reflexivity|]. split; [|exact Hi].
        intros y Hy. apply elem_of_cons in Hy as [->|Hy]; auto.
Qed.

(** The backward step on the record [i] of a well-linked list. *)
Lemma coalesce_backwards_keeps (a : allocator) (pre post : list Z) (i : Z) :
  well_linked a (pre ++ i :: post) ->
  last_or (-1) pre = -1 \/ type (node_at (ledger a) (last_or (-1) pre)) = P ->
  coalesce_backwards i a = Done (i, a).
Proof.
  intros Hwl Hcond.
  pose proof (wl_table _ _ Hwl) as Hl. pose proof (wl_chain _ _ Hwl) as Hc.
  pose proof (chain_valid _ _ _ _ Hc) as Hv.
  apply chain_app in Hc as [_ (Hi & Hp & _)].
  apply (coalesce_backwards_skip i a Hl Hi). rewrite Hp.
  destruct (last_or_pre_cases pre) as [[_ E']|[_ Hin]]; [now left|].
  destruct Hcond as [E|E]; [now left|right]. split; [|exact E].
  apply Hv, elem_of_app. now left.
Qed.

Lemma coalesce_backwards_at_tail (a : allocator) (pre : list Z) (p i : Z) :
  well_linked a (pre ++ [p; i]) ->
  type (node_at (ledger a) p) = H ->
  coalesce_backwards i a = OutOfBounds (-1).
Proof.
  intros Hwl Hty.
  pose proof (wl_table _ _ Hwl) as Hl. pose proof (wl_chain _ _ Hwl) as Hc.
  pose proof (wl_nodup _ _ Hwl) as Hnd.
  pose proof (chain_valid _ _ _ _ Hc) as Hv.
  apply chain_app in Hc as [_ (Hp & _ & Hnp & (Hi & Hpi & Hni & _))].
  cbn [head_or] in Hnp, Hni.
  assert (Hpne : p <> i).
  { apply NoDup_app in Hnd as (_ & _ & Hnd). apply NoDup_cons in Hnd as [Hnd _].
    intros ->. apply Hnd. left. }
  destruct (coalesce_backwards_run i a Hl Hi) as (l3 & Erun & Hl3 & HF3);
    rewrite ?Hpi; try assumption.
  rewrite Erun, Hni. unfold bind. rewrite wr_invalid; [reflexivity|].
  unfold valid. lia.
Qed.

Lemma coalesce_backwards_merges (a : allocator) (pre post : list Z) (p i z : Z) :
  well_linked a (pre ++ p :: i :: z :: post) ->
  type (node_at (ledger a) p) = H ->
  exists a',
    coalesce_backwards i a = Done (p, a') /\
    well_linked a' (pre ++ p :: z :: post) /\
    pool a' = pool a /\ pool_size a' = pool_size a /\
    (ledger_top a' = ledger_top a \/ ledger_top a' = ledger_top a - 1) /\
    forall j, node_at (ledger a') j =
      if decide (j = p)
      then mkNode (to_size_t (size (node_at (ledger a) p) + size (node_at (ledger a) i)))
                  H (arena (node_at (ledger a) p)) z (previous (node_at (ledger a) p))
      else if decide (j = z) then set_previous p (node_at (ledger a) z)
      else node_at (ledger a) j.
Proof.
  intros Hwl Hty.
  pose proof (wl_table _ _ Hwl) as Hl. pose proof (wl_chain _ _ Hwl) as Hc.
  pose proof (wl_nodup _ _ Hwl) as Hnd.
  pose proof (chain_valid _ _ _ _ Hc) as Hv.
  set (l := ledger a) in *. set (n := node_at l i).
  apply chain_app in Hc as [_ (Hp & _ & Hnp & (Hi & Hpi & Hni & (Hz & _)))].
  cbn [head_or] in Hnp, Hni. fold n in Hpi, Hni.
  apply NoDup_app in Hnd as (_ & _ & Hnd).
  apply NoDup_cons in Hnd as [Hp_out Hnd].
  assert (Hpne : p <> i) by (intros ->; apply Hp_out; left).
  assert (Hzp : z <> p) by (intros ->; apply Hp_out; right; left).
  destruct (coalesce_backwards_run i a Hl Hi) as (l3 & Erun & Hl3 & HF3);
    fold l n; rewrite ?Hpi; try assumption.
  fold l n in Erun, HF3. rewrite Hpi in Erun, HF3. rewrite Erun, Hni.
  unfold bind. rewrite wr_valid by (fields; assumption).
  cbn [obind fst snd ret]. fields.
  eexists. split; [reflexivity|]. fields.
  assert (HF : forall j, node_at (<[Z.to_nat z := set_previous p (node_at l3 z)]> l3) j =
     if decide (j = p)
     then mkNode (to_size_t (size (node_at l p) + size (node_at l i)))
                 (type (node_at l p)) (arena (node_at l p)) z (previous (node_at l p))
     else if decide (j = z) then set_previous p (node_at l z)
     else node_at l j).
  { intros j. rewrite node_at_upd by assumption. rewrite !HF3. fold n. rewrite ?Hni.
    repeat destruct (decide _); congruence. }
  split.
  { eapply (well_linked_merge a _ pre post p i z); fields;
      try reflexivity; try assumption.
    - now apply table_upd.
    - destruct (i =? ledger_top a) eqn:Etop; [right|now left].
      apply Z.eqb_eq in Etop. auto. }
  do 2 (split; [reflexivity|]).
  split; [destruct (i =? ledger_top a); auto|].
  intros j. rewrite HF, Hty. reflexivity.
Qed.

(** The forward step. *)
Lemma coalesce_forward_keeps (a : allocator) (pre post : list Z) (i : Z) :
  well_linked a (pre ++ i :: post) ->
  post = [] \/ type (node_at (ledger a) (head_or (-1) post)) = P ->
  coalesce_forward i a = Done (tt, a).
Proof.
  intros Hwl Hcond.
  pose proof (wl_table _ _ Hwl) as Hl. pose proof (wl_chain _ _ Hwl) as Hc.
  pose proof (chain_valid _ _ _ _ Hc) as Hv.
  apply chain_app in Hc as [_ (Hi & _ & Hn & _)].
  apply (coalesce_forward_skip i a Hl Hi). rewrite Hn.
  destruct Hcond as [->|E]; [now left|].
  destruct post as [|y post]; [now left|right]. split; [|exact E].
  apply Hv, elem_of_app. right. right. left.
Qed.

Lemma coalesce_forward_at_tail (a : allocator) (pre : list Z) (i y : Z) :
  well_linked a (pre ++ [i; y]) ->
  type (node_at (ledger a) y) = H ->
  coalesce_forward i a = OutOfBounds (-1).
Proof.
  intros Hwl Hty.
  pose proof (wl_table _ _ Hwl) as Hl. pose proof (wl_chain _ _ Hwl) as Hc.
  pose proof (wl_nodup _ _ Hwl) as Hnd.
  pose proof (chain_valid _ _ _ _ Hc) as Hv.
  apply chain_app in Hc as [_ (Hi & _ & Hni & (Hy & _ & Hny & _))].
  cbn [head_or] in Hni, Hny.
  assert (Hyi : y <> i).
  { apply NoDup_app in Hnd as (_ & _ & Hnd). apply NoDup_cons in Hnd as [Hnd _].
    intros ->. apply Hnd. left. }
  destruct (coalesce_forward_run i a Hl Hi) as (l2 & Erun & Hl2 & HF2);
    rewrite ?Hni; try assumption.
  rewrite Erun, Hni, Hny. rewrite wr_invalid; [reflexivity|]. unfold valid. lia.
Qed.

Lemma coalesce_forward_merges (a : allocator) (pre post : list Z) (i y z : Z) :
  well_linked a (pre ++ i :: y :: z :: post) ->
  type (node_at (ledger a) y) = H ->
  exists a',
    coalesce_forward i a = Done (tt, a') /\
    well_linked a' (pre ++ i :: z :: post) /\
    pool a' = pool a /\ pool_size a' = pool_size a /\
    ledger_top a' = ledger_top a /\
    forall j, node_at (ledger a') j =
      if decide (j = i)
      then mkNode (to_size_t (size (node_at (ledger a) i) + size (node_at (ledger a) y)))
                  (type (node_at (ledger a) i)) (arena (node_at (ledger a) i)) z
                  (previous (node_at (ledger a) i))
      else if decide (j = z) then set_previous i (node_at (ledger a) z)
      else node_at (ledger a) j.
Proof.
  intros Hwl Hty.
  pose proof (wl_table _ _ Hwl) as Hl. pose proof (wl_chain _ _ Hwl) as Hc.
  pose proof (wl_nodup _ _ Hwl) as Hnd.
  pose proof (chain_valid _ _ _ _ Hc) as Hv.
  set (l := ledger a) in *. set (n := node_at l i).
  apply chain_app in Hc as [_ (Hi & _ & Hni & (Hy & _ & Hny & (Hz & _)))].
  cbn [head_or] in Hni, Hny. fold n in Hni.
  apply NoDup_app in Hnd as (_ & _ & Hnd).
  apply NoDup_cons in Hnd as [Hi_out Hnd].
  assert (Hyi : y <> i) by (intros ->; apply Hi_out; left).
  assert (Hzi : z <> i) by (intros ->; apply Hi_out; right; left).
  destruct (coalesce_forward_run i a Hl Hi) as (l2 & Erun & Hl2 & HF2);
    fold l n; rewrite ?Hni; try assumption.
  fold l n in Erun, HF2. rewrite Hni in Erun, HF2. rewrite Erun, Hny.
  rewrite wr_valid by (fields; assumption). fields.
  eexists. split; [reflexivity|]. fields.
  assert (HF : forall j, node_at (<[Z.to_nat z := set_previous i (node_at l2 z)]> l2) j =
     if decide (j = i)
     then mkNode (to_size_t (size (node_at l i) + size (node_at l y)))
                 (type (node_at l i)) (arena (node_at l i)) z (previous (node_at l i))
     else if decide (j = z) then set_previous i (node_at l z)
     else node_at l j).
  { intros j. rewrite node_at_upd by assumption. rewrite !HF2. fold n. rewrite ?Hny.
    repeat destruct (decide _); congruence. }
  split.
  { eapply (well_linked_merge a _ pre post i y z); fields;
      try reflexivity; try assumption.
    - now apply table_upd.
    - now left. }
  do 3 (split; [reflexivity|]). exact HF.
Qed.

(** ** [mavalloc_free] *)

(** The forward step, on the blocks. *)
Lemma coalesce_forward_blocks (a : allocator) (pre post : list Z) (i : Z) :
  well_linked a (pre ++ i :: post) ->
  type (node_at (ledger a) i) = H ->
  match join (block_at a i) (map (block_at a) post) with
  | Some bs' =>
      exists a' live',
        coalesce_forward i a = Done (tt, a') /\ well_linked a' live' /\
        blocks a' = Done (map (block_at a) pre ++ bs') /\
        pool a' = pool a /\ pool_size a' = pool_size a /\
        ledger_top a' = ledger_top a
  | None => coalesce_forward i a = OutOfBounds (-1)
  end.
Proof.
  intros Hwl Hty.
  assert (Hkeep : post = [] \/ type (node_at (ledger a) (head_or (-1) post)) = P ->
            exists a' live',
              coalesce_forward i a = Done (tt, a') /\ well_linked a' live' /\
              blocks a' = Done (map (block_at a) pre ++ block_at a i :: map (block_at a) post) /\
              pool a' = pool a /\ pool_size a' = pool_size a /\
              ledger_top a' = ledger_top a).
  { intros Hcond. exists a, (pre ++ i :: post).
    split; [apply (coalesce_forward_keeps _ _ _ _ Hwl Hcond)|]. split; [exact Hwl|].
    split; [|auto]. rewrite (blocks_block_at _ _ Hwl), map_app. reflexivity. }
  destruct post as [|y post]; cbn [join map].
  { apply Hkeep. now left. }
  rewrite block_at_kind. destruct (type (node_at (ledger a) y)) eqn:Ey; cbn [is_H].
  { apply Hkeep. now right. }
  destruct post as [|z post]; cbn [map].
  { apply (coalesce_forward_at_tail _ _ _ _ Hwl Ey). }
  destruct (coalesce_forward_merges a pre post i y z Hwl Ey)
    as (a' & Erun & Hwl' & Ep & Es & Et & HF).
  exists a', (pre ++ i :: z :: post). split; [exact Erun|]. split; [exact Hwl'|].
  split; [|auto].
  destruct (blocks_after_merge a a' pre post i y z Hwl Ep HF) as (E1 & E2 & E3).
  rewrite (blocks_block_at _ _ Hwl'), map_app. cbn [map] in E3 |- *.
  rewrite E1, E2, E3, block_at_kind, Hty. reflexivity.
Qed.

(** The two coalescing steps of [mavalloc_free], on the blocks. *)
Lemma coalesce_blocks (a : allocator) (pre post : list Z) (i : Z) :
  well_linked a (pre ++ i :: post) ->
  type (node_at (ledger a) i) = H ->
  (forall x, x ∈ pre -> offset (block_at a x) <> offset (block_at a i)) ->
  match release (offset (block_at a i)) (map (block_at a) (pre ++ i :: post)) with
  | Some bs' =>
      exists a' live',
        (i' <- coalesce_backwards i ;; coalesce_forward i') a = Done (tt, a') /\
        well_linked a' live' /\ blocks a' = Done bs' /\
        pool a' = pool a /\ pool_size a' = pool_size a /\
        ledger_top a' <= ledger_top a /\
        (pre = [] \/ type (node_at (ledger a) (last_or (-1) pre)) = P ->
         ledger_top a' = ledger_top a)
  | None => (i' <- coalesce_backwards i ;; coalesce_forward i') a = OutOfBounds (-1)
  end.
Proof.
  intros Hwl Hty Hfirst.
  assert (Hi : block_at a i = mkBlock H (offset (block_at a i)) (extent (block_at a i))).
  { unfold block_at, block_of. rewrite Hty. reflexivity. }
  assert (Hpre : forall x, x ∈ map (block_at a) pre -> offset x <> offset (block_at a i)).
  { intros x Hx. apply list_elem_of_fmap in Hx as (j & -> & Hj). now apply Hfirst. }
  rewrite map_app. cbn [map].
  destruct (snoc_cases pre) as [->|(pre' & p & ->)].
  - cbn [app map]. rewrite release_first by reflexivity. rewrite <- Hi.
    rewrite (bind_run _ _ _ _ _ (coalesce_backwards_keeps a [] post i Hwl (or_introl eq_refl))).
    pose proof (coalesce_forward_blocks a [] post i Hwl Hty) as Hf.
    destruct (join _ _) as [bs'|]; [|exact Hf].
    destruct Hf as (a' & live' & E & Hwl' & Eb & Ep & Es & Et).
    exists a', live'. repeat (split; [assumption|]). split; [lia|auto].
  - rewrite map_app. cbn [map]. rewrite <- app_assoc. cbn [app].
    rewrite release_after; try reflexivity.
    2:{ intros x Hx. apply Hpre. rewrite map_app. apply elem_of_app. now left. }
    2:{ apply Hpre. rewrite map_app. apply elem_of_app. right. left. }
    rewrite block_at_kind.
    assert (Elast : last_or (-1) (pre' ++ [p]) = p) by (rewrite last_or_app; reflexivity).
    destruct (type (node_at (ledger a) p)) eqn:Ep; cbn [is_H].
    + rewrite <- Hi.
      assert (Hk : last_or (-1) (pre' ++ [p]) = -1 \/
                   type (node_at (ledger a) (last_or (-1) (pre' ++ [p]))) = P).
      { right. now rewrite Elast. }
      rewrite (bind_run _ _ _ _ _ (coalesce_backwards_keeps a _ post i Hwl Hk)).
      pose proof (coalesce_forward_blocks a _ post i Hwl Hty) as Hf.
      destruct (join _ _) as [bs'|]; cbn [option_map]; [|exact Hf].
      destruct Hf as (a' & live' & E & Hwl' & Eb & Epool & Es & Et).
      exists a', live'. rewrite map_app in Eb. cbn [map] in Eb.
      repeat (split; [assumption|]). split; [lia|auto].
    + rewrite <- app_assoc in Hwl. cbn [app] in Hwl.
      destruct post as [|z post]; cbn [map].
      { unfold bind. now rewrite (coalesce_backwards_at_tail a pre' p i Hwl Ep). }
      destruct (coalesce_backwards_merges a pre' post p i z Hwl Ep)
        as (a3 & Erun & Hwl3 & Epool3 & Es3 & Et3 & HF).
      rewrite (bind_run _ _ _ _ _ Erun).
      assert (HF' : forall j, node_at (ledger a3) j =
         if decide (j = p)
         then mkNode (to_size_t (size (node_at (ledger a) p) + size (node_at (ledger a) i)))
                     (type (node_at (ledger a) p)) (arena (node_at (ledger a) p)) z
                     (previous (node_at (ledger a) p))
         else if decide (j = z) then set_previous p (node_at (ledger a) z)
         else node_at (ledger a) j).
      { intros j. rewrite HF, Ep. reflexivity. }
      destruct (blocks_after_merge a a3 pre' post p i z Hwl Epool3 HF') as (E1 & E2 & E3).
      assert (Hty3 : type (node_at (ledger a3) p) = H).
      { rewrite HF, decide_True by reflexivity. reflexivity. }
      pose proof (coalesce_forward_blocks a3 pre' (z :: post) p Hwl3 Hty3) as Hf.
      rewrite E1, E2, E3, block_at_kind, Ep in Hf. cbn [map] in Hf.
      destruct (join _ _) as [bs'|]; cbn [option_map]; [|exact Hf].
      destruct Hf as (a' & live' & E & Hwl' & Eb & Epool & Es & Et).
      exists a', live'. split; [exact E|]. split; [exact Hwl'|]. split; [exact Eb|].
      split; [congruence|]. split; [congruence|]. split; [lia|].
      intros [Hnil|HP]; [now destruct pre'|]. rewrite Elast in HP. congruence.
Qed.

(** [mavalloc_free] up to the end of its search. *)
Lemma free_run (ptr : Z) (a : allocator) (live : list Z) :
  well_linked a live -> ptr <> NULL ->
  mavalloc_free ptr a =
    (i <- lift (free_search fuel ptr (head_or (-1) live)) ;;
     if negb (i =? -1) then
       wr i (set_type H) ;; i' <- coalesce_backwards i ;; coalesce_forward i'
     else ret tt) (with_traverse_back_ptr (head_or 0 live) a).
Proof.
  intros Hwl Hptr.
  assert (Hh : head_or 0 live = head_or (-1) live).
  { pose proof (wl_live _ _ Hwl). destruct live; [contradiction|reflexivity]. }
  unfold mavalloc_free, mavalloc_free_with.
  rewrite (proj2 (Z.eqb_neq _ _) Hptr). fold traverse_back.
  now rewrite (bind_run _ _ _ _ _ (traverse_back_well_linked a live Hwl)), Hh.
Qed.

(** No live record starts at [ptr]: nothing is written. *)
Lemma free_none (ptr : Z) (a : allocator) (live : list Z) :
  well_linked a live -> ptr <> NULL ->
  (forall x, x ∈ live -> arena (node_at (ledger a) x) <> ptr) ->
  mavalloc_free ptr a = Done (tt, with_traverse_back_ptr (head_or 0 live) a).
Proof.
  intros Hwl Hptr Hno.
  pose proof (wl_table _ _ Hwl) as Hl. pose proof (wl_chain _ _ Hwl) as Hc.
  pose proof (distinct_records_bound _ (wl_nodup _ _ Hwl) (chain_valid _ _ _ _ Hc)) as Hlen.
  rewrite (free_run _ _ _ Hwl Hptr). unfold bind at 1, lift. fields.
  rewrite (free_search_none _ _ _ Hl (-1) fuel Hc) by (unfold fuel; lia || assumption).
  reflexivity.
Qed.

(** The record [i] is the first live record that starts at [ptr]. *)
Lemma free_found (ptr : Z) (a : allocator) (pre post : list Z) (i : Z) :
  well_linked a (pre ++ i :: post) -> ptr <> NULL ->
  (forall x, x ∈ pre -> arena (node_at (ledger a) x) <> ptr) ->
  arena (node_at (ledger a) i) = ptr ->
  match release (ptr - pool a) (map (block_at a) (pre ++ i :: post)) with
  | Some bs' =>
      exists a' live',
        mavalloc_free ptr a = Done (tt, a') /\ well_linked a' live' /\
        blocks a' = Done bs' /\
        pool a' = pool a /\ pool_size a' = pool_size a /\
        ledger_top a' <= ledger_top a /\
        (pre = [] \/ type (node_at (ledger a) (last_or (-1) pre)) = P ->
         ledger_top a' = ledger_top a)
  | None => mavalloc_free ptr a = OutOfBounds (-1)
  end.
Proof.
  intros Hwl Hptr Hno Hi.
  pose proof (well_linked_head a _ Hwl) as (Hhd & _ & _).
  pose proof (well_linked_cache a _ _ Hwl Hhd) as Hwl1.
  set (a1 := with_traverse_back_ptr (head_or 0 (pre ++ i :: post)) a) in *.
  pose proof (wl_table _ _ Hwl) as Hl. pose proof (wl_chain _ _ Hwl) as Hc.
  pose proof (chain_valid _ _ _ _ Hc) as Hv.
  pose proof (distinct_records_bound _ (wl_nodup _ _ Hwl) Hv) as Hlen.
  assert (Hiv : valid i) by (apply Hv, elem_of_app; right; left).
  set (l2 := <[Z.to_nat i := set_type H (node_at (ledger a) i)]> (ledger a)).
  set (a2 := with_ledger l2 a1).
  assert (HF : forall j, node_at l2 j =
            if decide (j = i) then set_type H (node_at (ledger a) i)
            else node_at (ledger a) j).
  { intros j. unfold l2. now rewrite node_at_upd by auto. }
  assert (Hwl2 : well_linked a2 (pre ++ i :: post)).
  { apply well_linked_same_links; [assumption|now apply table_upd|].
    intros j _. fields. rewrite HF. destruct (decide (j = i)) as [->|]; auto. }
  assert (Hi_pre : i ∉ pre).
  { pose proof (wl_nodup _ _ Hwl) as Hnd. apply NoDup_app in Hnd as (_ & Hdisj & _).
    intros Hin. apply (Hdisj i Hin). left. }
  assert (Hi_post : i ∉ post).
  { pose proof (wl_nodup _ _ Hwl) as Hnd. apply NoDup_app in Hnd as (_ & _ & Hnd).
    now apply NoDup_cons in Hnd as [? _]. }
  assert (Eother : forall xs, i ∉ xs -> map (block_at a2) xs = map (block_at a) xs).
  { intros xs Hout. apply map_block_at_ext; [reflexivity|].
    intros j Hj. fields. rewrite HF, decide_False; [auto|]. intros ->. contradiction. }
  assert (Ei : block_at a2 i =
               mkBlock H (offset (block_at a i)) (extent (block_at a i))).
  { unfold block_at, block_of. fields. rewrite HF, decide_True by reflexivity.
    reflexivity. }
  assert (Ety2 : type (node_at (ledger a2) i) = H).
  { fields. rewrite HF, decide_True by reflexivity. reflexivity. }
  assert (Eo : offset (block_at a2 i) = ptr - pool a).
  { rewrite Ei. cbn [offset]. now apply block_at_offset. }
  assert (Hfirst : forall x, x ∈ pre -> offset (block_at a2 x) <> offset (block_at a2 i)).
  { intros x Hx. rewrite Eo.
    assert (Ex : block_at a2 x = block_at a x).
    { unfold block_at, block_of. fields. rewrite HF, decide_False; [reflexivity|].
      intros ->. contradiction. }
    rewrite Ex, block_at_offset. now apply Hno. }
  pose proof (coalesce_blocks a2 pre post i Hwl2 Ety2 Hfirst) as Hco.
  rewrite Eo in Hco. rewrite map_app in Hco |- *. cbn [map] in Hco |- *.
  rewrite (Eother pre Hi_pre), (Eother post Hi_post), Ei in Hco.
  rewrite release_retype.
  2:{ intros b Hb. apply list_elem_of_fmap in Hb as (j & -> & Hj).
      rewrite block_at_offset. now apply Hno. }
  2:{ now apply block_at_offset. }
  assert (Erun : forall (T : outcome (unit * allocator)),
            (i' <- coalesce_backwards i ;; coalesce_forward i') a2 = T ->
            mavalloc_free ptr a = T).
  { intros T <-. rewrite (free_run _ _ _ Hwl Hptr). unfold bind at 1. unfold lift at 1. fields.
    rewrite (free_search_found _ _ _ _ _ Hl (-1) fuel Hc) by
      (unfold fuel; lia || assumption).
    cbn [obind fst snd].
    assert ((i =? -1) = false) as -> by (apply Z.eqb_neq; unfold valid in Hiv; lia).
    cbn [negb].
    rewrite (bind_run _ _ _ _ _ (wr_valid i (set_type H) a1 Hl Hiv)). reflexivity. }
  assert (Elast : type (node_at (ledger a2) (last_or (-1) pre)) =
                  type (node_at (ledger a) (last_or (-1) pre))).
  { fields. rewrite HF. destruct (decide (last_or (-1) pre = i)) as [E|]; [|reflexivity].
    destruct (last_or_pre_cases pre) as [[_ E']|[_ Hin]].
    - rewrite E' in E. unfold valid in Hiv. lia.
    - rewrite E in Hin. contradiction. }
  destruct (release _ _) as [bs'|].
  - destruct Hco as (a' & live' & E & Hwl' & Eb & Ep & Es & Et & Eq).
    exists a', live'. split; [apply Erun, E|]. split; [exact Hwl'|]. split; [exact Eb|].
    split; [exact Ep|]. split; [exact Es|]. split; [exact Et|].
    intros Hcond. apply Eq. rewrite Elast. exact Hcond.
  - apply Erun, Hco.
Qed.

(** X9.  On a well-linked ledger, [mavalloc_free] of a non-null pointer
    does to the blocks what [release] does: the first block that starts at
    [ptr] becomes a Hole and is merged with the Holes next to it; a
    pointer no block starts at changes nothing.  When a merge would leave
    the merged Hole last in the list, the call subscripts the ledger with
    [-1] instead of returning. *)
Theorem free_releases_and_merges (ptr : Z) (a : allocator) (live : list Z) :
  well_linked a live -> ptr <> NULL ->
  exists bs, blocks a = Done bs /\
    match release (ptr - pool a) bs with
    | Some bs' =>
        exists a', mavalloc_free ptr a = Done (tt, a') /\ blocks a' = Done bs' /\
                   ledger_top a' <= ledger_top a
    | None => mavalloc_free ptr a = OutOfBounds (-1)
    end.
Proof.
  intros Hwl Hptr. exists (map (block_at a) live).
  split; [apply (blocks_block_at _ _ Hwl)|].
  destruct (first_starting_at (ledger a) ptr live) as [Hno|(pre & i & post & -> & Hno & Hi)].
  - rewrite release_none.
    2:{ intros b Hb. apply list_elem_of_fmap in Hb as (j & -> & Hj).
        rewrite block_at_offset. now apply Hno. }
    eexists. split; [apply (free_none _ _ _ Hwl Hptr Hno)|].
    split; [|reflexivity].
    pose proof (well_linked_head a _ Hwl) as (Hhd & _ & _).
    apply (blocks_block_at _ _ (well_linked_cache a _ _ Hwl Hhd)).
  - pose proof (free_found ptr a pre post i Hwl Hptr Hno Hi) as Hf.
    destruct (release _ _) as [bs'|]; [|exact Hf].
    destruct Hf as (a' & live' & E & _ & Eb & _ & _ & Et & _). eauto.
Qed.

(** From P H P H: freeing the first block merges it with the Hole behind
    it; freeing the third one merges it with both Holes, the last block of
    the list among them, and faults. *)
Lemma free_releases_and_merges_witness :
  let a := state_after [Init 4096 32 FIRST_FIT; Alloc 8; Alloc 8; Alloc 8; Free 4104] in
  (exists a', mavalloc_free 4096 a = Done (tt, a') /\
              blocks a' = Done [mkBlock H 0 16; mkBlock P 16 8; mkBlock H 24 8] /\
              ledger_top a' <= ledger_top a) /\
  mavalloc_free 4112 a = OutOfBounds (-1).
Proof.
  intros a.
  assert (Hwl : well_linked a [1; 2; 3; 0])
    by (apply reachable_live_list; apply reachable_holes).
  assert (Eb : blocks a =
               Done [mkBlock P 0 8; mkBlock H 8 8; mkBlock P 16 8; mkBlock H 24 8])
    by apply reachable_holes.
  assert (Ep : pool a = 4096) by (vm_compute; reflexivity).
  split.
  - destruct (free_releases_and_merges 4096 a _ Hwl) as (bs & Eb' & Hm); [discriminate|].
    rewrite Eb in Eb'. injection Eb' as <-. rewrite Ep in Hm. exact Hm.
  - destruct (free_releases_and_merges 4112 a _ Hwl) as (bs & Eb' & Hm); [discriminate|].
    rewrite Eb in Eb'. injection Eb' as <-. rewrite Ep in Hm. exact Hm.
Defined.

(** ** [mavalloc_alloc] *)

Lemma alloc_blocks (size0 : Z) (a a' : allocator) (live : list Z) (r : Z) :
  well_formed a live -> alloc_algorithm a <> NEXT_FIT ->
  mavalloc_alloc size0 a = Done (r, a') ->
  (r = NULL /\ a' = with_traverse_back_ptr (head_or 0 live) a /\
   select_hole (ALIGN4 (to_size_t size0)) a = Done (-1, a')) \/
  exists pre idx post,
    live = pre ++ idx :: post /\
    select_hole (ALIGN4 (to_size_t size0)) a =
      Done (idx, with_traverse_back_ptr (head_or 0 live) a) /\
    type (node_at (ledger a) idx) = H /\
    r = arena (node_at (ledger a) idx) /\
    pool a' = pool a /\ pool_size a' = pool_size a /\
    ((size (node_at (ledger a) idx) = ALIGN4 (to_size_t size0) /\
      well_formed a' live /\ ledger_top a' = ledger_top a /\
      map (block_at a') live =
        map (block_at a) pre ++
        mkBlock P (r - pool a) (size (node_at (ledger a) idx)) :: map (block_at a) post) \/
     (ALIGN4 (to_size_t size0) < size (node_at (ledger a) idx) /\
      well_formed a' (pre ++ (ledger_top a + 1) :: idx :: post) /\
      ledger_top a' = ledger_top a + 1 /\
      map (block_at a') (pre ++ (ledger_top a + 1) :: idx :: post) =
        map (block_at a) pre ++
        mkBlock P (r - pool a) (ALIGN4 (to_size_t size0)) ::
        mkBlock H (r - pool a + ALIGN4 (to_size_t size0))
                  (size (node_at (ledger a) idx) - ALIGN4 (to_size_t size0)) ::
        map (block_at a) post)).
Proof.
  intros [Hwl Hsep] Halg E.
  pose proof E as E0. unfold mavalloc_alloc in E0.
  apply bind_Done in E0 as (idx & a1 & Esel & _).
  destruct (select_hole_well_linked _ _ _ _ _ Hwl Halg Esel) as [Ea1 Hidx].
  assert (Hwf1 : well_formed a1 live).
  { subst a1. split; [|exact Hsep]. apply well_linked_cache; [assumption|].
    apply (well_linked_head a live Hwl). }
  destruct Hidx as [->|Hin].
  { left. rewrite (alloc_none_run _ _ _ Esel) in E. injection E as <- <-.
    rewrite <- Ea1. auto. }
  right.
  pose proof Hwf1 as [Hwl1 _].
  pose proof (wl_table _ _ Hwl1) as Hl.
  pose proof (chain_valid _ _ _ _ (wl_chain _ _ Hwl1)) as Hv.
  assert (Hidx : idx <> -1) by (specialize (Hv idx Hin); unfold valid in Hv; lia).
  destruct (select_hole_qualifies _ _ _ _ Esel Hidx) as (h & Hh & Hty & Hsz).
  destruct (ledger_at_valid _ _ _ Hh) as [Hiv Hnode].
  assert (El1 : ledger a1 = ledger a) by (subst a1; reflexivity).
  assert (Et1 : ledger_top a1 = ledger_top a) by (subst a1; reflexivity).
  rewrite El1 in Hnode, Hl.
  apply list_elem_of_split in Hin as (pre & post & ->).
  exists pre, idx, post. rewrite Hnode. split; [reflexivity|].
  split; [rewrite <- Ea1; exact Esel|]. split; [exact Hty|].
  pose proof (wl_nodup _ _ Hwl) as Hnd.
  apply NoDup_app in Hnd as (_ & Hdisj & Hnd). apply NoDup_cons in Hnd as [Hi_post _].
  assert (Hi_pre : idx ∉ pre) by (intros Hin; apply (Hdisj idx Hin); left).
  destruct (tiles_before _ _ _ _ _ _ (wl_tiles _ _ Hwl)) as (Hlo & Hhi & Hs0 & _).
  destruct (wl_pool _ _ Hwl) as [Hp0 Hp1]. rewrite Hnode in Hlo, Hhi, Hs0.
  pose proof (ALIGN4_range (to_size_t size0)) as Hrange.
  destruct (decide (size h = ALIGN4 (to_size_t size0))) as [Hexact|Hsplit].
  - rewrite (alloc_exact_run _ _ _ _ _ Esel Hidx Hh Hexact) in E. injection E as <- <-.
    split; [reflexivity|]. split; [subst a1; reflexivity|]. split; [subst a1; reflexivity|].
    left. split; [exact Hexact|].
    split; [rewrite <- Hnode, <- El1; apply well_formed_retype_P; assumption|].
    split; [exact Et1|].
    rewrite map_app. cbn [map].
    assert (HF : forall j, node_at (<[Z.to_nat idx := set_type P h]> (ledger a1)) j =
              if decide (j = idx) then set_type P h else node_at (ledger a) j).
    { intros j. rewrite El1. now rewrite node_at_upd by assumption. }
    f_equal; [|f_equal].
    + apply map_block_at_ext; [subst a1; reflexivity|]. intros j Hj. fields.
      rewrite HF, decide_False; [auto|]. intros ->. contradiction.
    + unfold block_at, block_of. fields. rewrite HF, decide_True by reflexivity.
      subst a1. reflexivity.
    + apply map_block_at_ext; [subst a1; reflexivity|]. intros j Hj. fields.
      rewrite HF, decide_False; [auto|]. intros ->. contradiction.
  - destruct (decide (valid (ledger_top a1 + 1))) as [Htop|Hfull];
      [|rewrite (alloc_table_full _ _ _ _ _ Esel Hidx Hh Hsplit Hfull) in E; discriminate].
    pose proof (wl_chain _ _ Hwl) as Hc.
    apply chain_app in Hc as [_ (_ & Hph & _)]. rewrite Hnode in Hph.
    assert (Hbelow : forall j, j ∈ pre ++ idx :: post -> j <> ledger_top a1 + 1).
    { intros j Hj. pose proof (wl_below _ _ Hwl j Hj). lia. }
    assert (Hp : previous h = -1 \/ (valid (previous h) /\ previous h ∈ pre)).
    { rewrite Hph. destruct (last_or_pre_cases pre) as [[_ ->]|[_ Hp]]; [now left|right].
      split; [|assumption]. apply Hv, elem_of_app. now left. }
    rewrite <- El1 in Hl.
    destruct (alloc_split_run size0 a a1 idx h Esel Hidx Hh Hsplit Hl Htop)
      as (l' & E' & Hl' & HF).
    + apply Hbelow, elem_of_app. right. left.
    + destruct Hp as [->|[_ Hp]]; [unfold valid in Htop; lia|].
      apply Hbelow, elem_of_app. now left.
    + destruct Hp as [->|[_ Hp]]; [lia|]. intros Eq. rewrite Eq in Hp. contradiction.
    + destruct Hp as [?|[? _]]; auto.
    + rewrite E' in E. injection E as <- <-.
      split; [reflexivity|]. split; [subst a1; reflexivity|]. split; [subst a1; reflexivity|].
      right. split; [lia|]. rewrite <- Et1.
      assert (Hwf' : well_formed (with_ledger l' (with_ledger_top (ledger_top a1 + 1) a1))
                       (pre ++ (ledger_top a1 + 1) :: idx :: post)).
      { apply (well_formed_split a1 pre post idx (ALIGN4 (to_size_t size0)) l');
          try assumption; rewrite ?El1, ?Hnode; try assumption; [lia|].
        rewrite <- El1. exact HF. }
      split; [exact Hwf'|]. split; [reflexivity|].
      rewrite map_app. cbn [map].
      assert (Hsame : forall xs, (forall j, j ∈ xs -> j ∈ pre ++ idx :: post /\ j <> idx) ->
                map (block_at (with_ledger l' (with_ledger_top (ledger_top a1 + 1) a1))) xs =
                map (block_at a) xs).
      { intros xs Hxs. apply map_block_at_ext; [subst a1; reflexivity|].
        intros j Hj. destruct (Hxs j Hj) as [Hjl Hji]. fields.
        rewrite HF by (now apply Hv). rewrite decide_False by (now apply Hbelow).
        rewrite decide_False by assumption. rewrite El1.
        destruct (decide (j = previous h)); auto. }
      f_equal; [|f_equal; [|f_equal]].
      * apply Hsame. intros j Hj. split; [apply elem_of_app; now left|].
        intros ->. contradiction.
      * unfold block_at, block_of. fields. rewrite HF by assumption.
        rewrite decide_True by reflexivity. subst a1. reflexivity.
      * unfold block_at, block_of. fields. rewrite HF by assumption.
        rewrite decide_False by (apply Hbelow, elem_of_app; right; left).
        rewrite decide_True by reflexivity. fields.
        rewrite (to_size_t_small (arena h + _)), (to_size_t_small (size h - _)) by lia.
        rewrite Hty. subst a1. fields. f_equal. lia.
      * apply Hsame. intros j Hj. split; [apply elem_of_app; right; now right|].
        intros ->. contradiction.
Qed.

(** What the configured strategy selects, when it is first-fit or when no
    live block reaches [INT_MAX] bytes. *)
Lemma select_hole_selects (sz : Z) (a : allocator) (live : list Z) :
  well_linked a live ->
  alloc_algorithm a = FIRST_FIT \/
    (forall x, x ∈ live -> size (node_at (ledger a) x) < INT_MAX) ->
  alloc_algorithm a <> NEXT_FIT ->
  exists idx,
    select_hole sz a = Done (idx, with_traverse_back_ptr (head_or 0 live) a) /\
    ((idx = -1 /\ forall x, x ∈ live -> ~ qualifies (ledger a) sz x) \/
     selected (alloc_algorithm a) (ledger a) sz live idx).
Proof.
  intros Hwl Hsmall Halg.
  pose proof (wl_table _ _ Hwl) as Hl. pose proof (wl_chain _ _ Hwl) as Hc.
  pose proof (distinct_records_bound _ (wl_nodup _ _ Hwl) (chain_valid _ _ _ _ Hc)) as Hlen.
  assert (Hhd : head_or 0 live = head_or (-1) live).
  { pose proof (wl_live _ _ Hwl). destruct live; [contradiction|reflexivity]. }
  pose proof (tiles_nonneg _ _ _ _ (wl_tiles _ _ Hwl)) as Hpos.
  pose proof (traverse_back_well_linked a live Hwl) as Htb.
  unfold select_hole. rewrite bind_gets.
  destruct (alloc_algorithm a) eqn:Ealg; [|contradiction| |]; cbn [selected].
  - destruct (first_fit_loop_spec (ledger a) sz live Hl (-1) fuel Hc) as (r & Er & Hr);
      [unfold fuel; lia|].
    exists r. split; [|exact Hr].
    unfold first_fit, first_fit_with. fold traverse_back.
    rewrite (bind_run _ _ _ _ _ Htb). unfold lift. fields. rewrite Hhd, Er. reflexivity.
  - destruct Hsmall as [?|Hsmall]; [discriminate|].
    destruct (best_fit_loop_spec (ledger a) sz live Hl) with
      (prv := -1) (k := fuel) (seen := @nil Z) (idx0 := -1) (sz0 := INT_MAX)
      as (r & s & Er & Hb); try assumption.
    + intros x Hx. split; [now apply Hpos|now apply Hsmall].
    + unfold fuel. lia.
    + left. repeat split. intros x Hx. inversion Hx.
    + exists r. split.
      * unfold best_fit, best_fit_with. fold traverse_back.
        rewrite (bind_run _ _ _ _ _ Htb). unfold lift. fields. rewrite Hhd, Er. reflexivity.
      * cbn [app] in Hb.
        destruct Hb as [(-> & _ & Hnone)|(_ & Hfb)];
          [left; split; [reflexivity|exact Hnone]|right; exact Hfb].
  - destruct Hsmall as [?|Hsmall]; [discriminate|].
    destruct (worst_fit_loop_spec (ledger a) sz live Hl) with
      (prv := -1) (k := fuel) (seen := @nil Z) (idx0 := -1) (sz0 := -1)
      as (r & s & Er & Hb); try assumption.
    + intros x Hx. split; [now apply Hpos|].
      specialize (Hsmall x Hx). unfold INT_MAX in Hsmall. lia.
    + unfold fuel. lia.
    + left. repeat split. intros x Hx. inversion Hx.
    + exists r. split.
      * unfold worst_fit, worst_fit_with. fold traverse_back.
        rewrite (bind_run _ _ _ _ _ Htb). unfold lift. fields. rewrite Hhd, Er. reflexivity.
      * cbn [app] in Hb.
        destruct Hb as [(-> & _ & Hnone)|(_ & Hfb)];
          [left; split; [reflexivity|exact Hnone]|right; exact Hfb].
Qed.

Lemma selected_qualifies (alg : ALGORITHM) (l : list Node) (sz : Z) (xs : list Z) (r : Z) :
  selected alg l sz xs r -> r ∈ xs /\ qualifies l sz r.
Proof.
  destruct alg; cbn [selected]; [|contradiction| |].
  - intros (Hq & pre & post & -> & _). split; [|exact Hq]. apply elem_of_app. right. left.
  - intros (Hq & pre & post & -> & _). split; [|exact Hq]. apply elem_of_app. right. left.
  - intros (Hq & pre & post & -> & _). split; [|exact Hq]. apply elem_of_app. right. left.
Qed.

Lemma NoDup_split_unique (xs ys xs' ys' : list Z) (i : Z) :
  NoDup (xs ++ i :: ys) -> xs ++ i :: ys = xs' ++ i :: ys' -> xs = xs' /\ ys = ys'.
Proof.
  revert xs'. induction xs as [|x xs IH]; intros [|x' xs'] Hnd E; cbn [app] in *.
  - now injection E.
  - injection E as <- E. apply NoDup_cons in Hnd as [Hout _]. exfalso. apply Hout.
    rewrite E. apply elem_of_app. right. left.
  - injection E as -> E. apply NoDup_cons in Hnd as [Hout _]. exfalso. apply Hout.
    apply elem_of_app. right. left.
  - injection E as <- E. apply NoDup_cons in Hnd as [_ Hnd].
    destruct (IH xs' Hnd E) as [-> ->]. auto.
Qed.

Lemma fits_block_at (a : allocator) (sz j : Z) :
  fits sz (block_at a j) <-> qualifies (ledger a) sz j.
Proof. reflexivity. Qed.

(** X10.  Under first-, best- and worst-fit, a successful
    [mavalloc_alloc] turns one Hole of the block list into a Process block
    of the same extent (exact fit, no new record) or into a Process block
    of the aligned size followed by a Hole holding the rest (one new
    record); every other block is as before, and the handle is the start
    of that Hole.  A failed one leaves the blocks alone. *)
Theorem alloc_carves_a_hole (size0 : Z) (a a' : allocator) (r : Z) :
  reachable a -> mavalloc_alloc size0 a = Done (r, a') ->
  exists bs, blocks a = Done bs /\ pool a' = pool a /\
    ((r = NULL /\ blocks a' = Done bs /\ ledger_top a' = ledger_top a) \/
     exists bs1 e bs2,
       r <> NULL /\ bs = bs1 ++ mkBlock H (r - pool a) e :: bs2 /\
       ((e = ALIGN4 (to_size_t size0) /\
         blocks a' = Done (bs1 ++ mkBlock P (r - pool a) e :: bs2) /\
         ledger_top a' = ledger_top a) \/
        (ALIGN4 (to_size_t size0) < e /\
         blocks a' =
           Done (bs1 ++ mkBlock P (r - pool a) (ALIGN4 (to_size_t size0)) ::
                        mkBlock H (r - pool a + ALIGN4 (to_size_t size0))
                                  (e - ALIGN4 (to_size_t size0)) :: bs2) /\
         ledger_top a' = ledger_top a + 1))).
Proof.
  intros Hr E. destruct (reachable_well_formed a Hr) as (live & Hwf).
  pose proof Hwf as [Hwl _].
  exists (map (block_at a) live). split; [apply (blocks_block_at _ _ Hwl)|].
  destruct (alloc_blocks size0 a a' live r Hwf (reachable_algorithm a Hr) E)
    as [(-> & -> & _)|(pre & idx & post & -> & _ & Hty & Er & Ep & Es & Hcase)].
  - split; [reflexivity|]. left. split; [reflexivity|]. split; [|reflexivity].
    pose proof (well_linked_head a _ Hwl) as (Hhd & _ & _).
    apply (blocks_block_at _ _ (well_linked_cache a _ _ Hwl Hhd)).
  - split; [exact Ep|]. right.
    destruct (tiles_before _ _ _ _ _ _ (wl_tiles _ _ Hwl)) as (Hlo & _).
    destruct (wl_pool _ _ Hwl) as [Hp0 _].
    exists (map (block_at a) pre), (size (node_at (ledger a) idx)), (map (block_at a) post).
    split; [unfold NULL; lia|]. split.
    { rewrite map_app. cbn [map]. do 2 f_equal.
      unfold block_at, block_of. now rewrite Hty, Er. }
    destruct Hcase as [(Hex & [Hwl' _] & Et & Eb)|(Hlt & [Hwl' _] & Et & Eb)]; [left|right].
    + split; [exact Hex|]. split; [|exact Et].
      now rewrite (blocks_block_at _ _ Hwl'), Eb.
    + split; [exact Hlt|]. split; [|exact Et].
      now rewrite (blocks_block_at _ _ Hwl'), Eb.
Qed.

(** Four bytes out of the 8-byte Hole of P H P H. *)
Lemma alloc_carves_a_hole_witness :
  let a := state_after [Init 4096 32 FIRST_FIT; Alloc 8; Alloc 8; Alloc 8; Free 4104] in
  let a' := state_after [Init 4096 32 FIRST_FIT; Alloc 8; Alloc 8; Alloc 8; Free 4104; Alloc 4] in
  mavalloc_alloc 4 a = Done (4104, a') /\
  exists bs, blocks a = Done bs /\ pool a' = pool a /\
    ((4104 = NULL /\ blocks a' = Done bs /\ ledger_top a' = ledger_top a) \/
     exists bs1 e bs2,
       4104 <> NULL /\ bs = bs1 ++ mkBlock H (4104 - pool a) e :: bs2 /\
       ((e = ALIGN4 (to_size_t 4) /\
         blocks a' = Done (bs1 ++ mkBlock P (4104 - pool a) e :: bs2) /\
         ledger_top a' = ledger_top a) \/
        (ALIGN4 (to_size_t 4) < e /\
         blocks a' =
           Done (bs1 ++ mkBlock P (4104 - pool a) (ALIGN4 (to_size_t 4)) ::
                        mkBlock H (4104 - pool a + ALIGN4 (to_size_t 4))
                                  (e - ALIGN4 (to_size_t 4)) :: bs2) /\
         ledger_top a' = ledger_top a + 1))).
Proof.
  intros a a'.
  assert (E : mavalloc_alloc 4 a = Done (4104, a')) by (vm_compute; reflexivity).
  split; [exact E|].
  apply (alloc_carves_a_hole 4 a a' 4104); [apply reachable_holes|exact E].
Defined.

(** X13.  Under first-fit, and under best- and worst-fit when every live
    block is smaller than [INT_MAX] bytes, a [mavalloc_alloc] that returns
    gives [NULL] exactly when no live Hole can hold the aligned request. *)
Theorem alloc_fails_only_for_want_of_a_hole
    (size0 : Z) (a a' : allocator) (r : Z) (bs : list block) :
  reachable a -> blocks a = Done bs ->
  alloc_algorithm a = FIRST_FIT \/ Forall (fun b => extent b < INT_MAX) bs ->
  mavalloc_alloc size0 a = Done (r, a') ->
  (r = NULL <->
   forall b, b ∈ bs -> ~ (kind b = H /\ ALIGN4 (to_size_t size0) <= extent b)).
Proof.
  intros Hr Eb Hsmall E. destruct (reachable_well_formed a Hr) as (live & Hwf).
  pose proof Hwf as [Hwl _]. pose proof (reachable_algorithm a Hr) as Halg.
  rewrite (blocks_block_at _ _ Hwl) in Eb. injection Eb as <-.
  assert (Hsmall' : alloc_algorithm a = FIRST_FIT \/
            (forall x, x ∈ live -> size (node_at (ledger a) x) < INT_MAX)).
  { destruct Hsmall as [?|Hs]; [now left|right]. intros x Hx.
    rewrite Forall_forall in Hs. apply (Hs (block_at a x)).
    apply list_elem_of_fmap. eauto. }
  destruct (select_hole_selects (ALIGN4 (to_size_t size0)) a live Hwl Hsmall' Halg)
    as (idx & Esel & Hsel).
  destruct (wl_pool _ _ Hwl) as [Hp0 _].
  destruct (alloc_blocks size0 a a' live r Hwf Halg E)
    as [(-> & _ & Esel')|(pre & i & post & -> & _ & Hty & Er & _ & _ & Hcase)].
  - rewrite Esel in Esel'. injection Esel' as -> _.
    destruct Hsel as [[_ Hnone]|Hsel]; [|apply selected_qualifies in Hsel as [Hin _]].
    + split; [|reflexivity]. intros _ b Hb Hq.
      apply list_elem_of_fmap in Hb as (j & -> & Hj). now apply (Hnone j Hj).
    + pose proof (chain_valid _ _ _ _ (wl_chain _ _ Hwl) _ Hin) as Hv.
      unfold valid in Hv. lia.
  - destruct (tiles_before _ _ _ _ _ _ (wl_tiles _ _ Hwl)) as (Hlo & _).
    split; [unfold NULL; lia|]. intros Hnone. exfalso.
    apply (Hnone (block_at a i)).
    + apply list_elem_of_fmap. exists i. split; [reflexivity|].
      apply elem_of_app. right. left.
    + split; [exact Hty|]. unfold block_at, block_of. cbn [extent].
      destruct Hcase as [(-> & _)|(? & _)]; lia.
Qed.

(** Twelve bytes are asked from P H P H with Holes of 8 bytes. *)
Lemma alloc_fails_only_for_want_of_a_hole_witness :
  let a := state_after [Init 4096 32 FIRST_FIT; Alloc 8; Alloc 8; Alloc 8; Free 4104] in
  let bs := [mkBlock P 0 8; mkBlock H 8 8; mkBlock P 16 8; mkBlock H 24 8] in
  mavalloc_alloc 12 a = Done (NULL, with_traverse_back_ptr 1 a) /\
  (NULL = NULL <->
   forall b, b ∈ bs -> ~ (kind b = H /\ ALIGN4 (to_size_t 12) <= extent b)).
Proof.
  intros a bs.
  assert (E : mavalloc_alloc 12 a = Done (NULL, with_traverse_back_ptr 1 a))
    by (vm_compute; reflexivity).
  split; [exact E|].
  apply (alloc_fails_only_for_want_of_a_hole 12 a (with_traverse_back_ptr 1 a) NULL bs).
  - apply reachable_holes.
  - apply reachable_holes.
  - left. vm_compute. reflexivity.
  - exact E.
Defined.

(** X14.  Under first-, best- and worst-fit, the handle of a successful
    [mavalloc_alloc] and the aligned size requested lie inside the pool,
    and that extent is a Process block of the live list afterwards. *)
Theorem alloc_handle_lies_in_the_pool (size0 : Z) (a a' : allocator) (r : Z) :
  reachable a -> mavalloc_alloc size0 a = Done (r, a') -> r <> NULL ->
  pool a <= r /\ r + ALIGN4 (to_size_t size0) <= pool a + pool_size a /\
  exists bs', blocks a' = Done bs' /\
    mkBlock P (r - pool a) (ALIGN4 (to_size_t size0)) ∈ bs'.
Proof.
  intros Hr E Hnn. destruct (reachable_well_formed a Hr) as (live & Hwf).
  pose proof Hwf as [Hwl _].
  destruct (alloc_blocks size0 a a' live r Hwf (reachable_algorithm a Hr) E)
    as [(-> & _)|(pre & i & post & -> & _ & Hty & Er & _ & _ & Hcase)]; [contradiction|].
  destruct (tiles_before _ _ _ _ _ _ (wl_tiles _ _ Hwl)) as (Hlo & Hhi & _).
  rewrite <- Er in Hlo, Hhi.
  destruct Hcase as [(Hex & [Hwl' _] & _ & Eb)|(Hlt & [Hwl' _] & _ & Eb)].
  - split; [lia|]. split; [lia|].
    eexists. split; [rewrite (blocks_block_at _ _ Hwl'), Eb; reflexivity|].
    rewrite Hex. apply elem_of_app. right. left.
  - split; [lia|]. split; [lia|].
    eexists. split; [rewrite (blocks_block_at _ _ Hwl'), Eb; reflexivity|].
    apply elem_of_app. right. left.
Qed.

(** Four bytes out of the 8-byte Hole of P H P H. *)
Lemma alloc_handle_lies_in_the_pool_witness :
  let a := state_after [Init 4096 32 FIRST_FIT; Alloc 8; Alloc 8; Alloc 8; Free 4104] in
  let a' := state_after [Init 4096 32 FIRST_FIT; Alloc 8; Alloc 8; Alloc 8; Free 4104; Alloc 4] in
  pool a <= 4104 /\ 4104 + ALIGN4 (to_size_t 4) <= pool a + pool_size a /\
  exists bs', blocks a' = Done bs' /\
    mkBlock P (4104 - pool a) (ALIGN4 (to_size_t 4)) ∈ bs'.
Proof.
  intros a a'.
  apply (alloc_handle_lies_in_the_pool 4 a a' 4104).
  - apply reachable_holes.
  - vm_compute. reflexivity.
  - discriminate.
Defined.

(** X15.  Which Hole a successful [mavalloc_alloc] takes: under first-fit
    the first Hole, in address order, that can hold the aligned request;
    under best-fit, when every live block is smaller than [INT_MAX] bytes,
    the first among the smallest Holes that can; under worst-fit, likewise,
    the first among the largest. *)
Theorem alloc_takes_the_hole_of_the_strategy
    (size0 : Z) (a a' : allocator) (r : Z) (bs : list block) :
  reachable a -> blocks a = Done bs ->
  alloc_algorithm a = FIRST_FIT \/ Forall (fun b => extent b < INT_MAX) bs ->
  mavalloc_alloc size0 a = Done (r, a') -> r <> NULL ->
  exists bs1 e bs2,
    bs = bs1 ++ mkBlock H (r - pool a) e :: bs2 /\
    ALIGN4 (to_size_t size0) <= e /\
    match alloc_algorithm a with
    | FIRST_FIT => forall b, b ∈ bs1 -> ~ fits (ALIGN4 (to_size_t size0)) b
    | BEST_FIT =>
        (forall b, b ∈ bs1 -> fits (ALIGN4 (to_size_t size0)) b -> e < extent b) /\
        (forall b, b ∈ bs2 -> fits (ALIGN4 (to_size_t size0)) b -> e <= extent b)
    | WORST_FIT =>
        (forall b, b ∈ bs1 -> fits (ALIGN4 (to_size_t size0)) b -> extent b < e) /\
        (forall b, b ∈ bs2 -> fits (ALIGN4 (to_size_t size0)) b -> extent b <= e)
    | NEXT_FIT => False
    end.
Proof.
  intros Hr Eb Hsmall E Hnn. destruct (reachable_well_formed a Hr) as (live & Hwf).
  pose proof Hwf as [Hwl _]. pose proof (reachable_algorithm a Hr) as Halg.
  rewrite (blocks_block_at _ _ Hwl) in Eb. injection Eb as <-.
  assert (Hsmall' : alloc_algorithm a = FIRST_FIT \/
            (forall x, x ∈ live -> size (node_at (ledger a) x) < INT_MAX)).
  { destruct Hsmall as [?|Hs]; [now left|right]. intros x Hx.
    rewrite Forall_forall in Hs. apply (Hs (block_at a x)).
    apply list_elem_of_fmap. eauto. }
  destruct (select_hole_selects (ALIGN4 (to_size_t size0)) a live Hwl Hsmall' Halg)
    as (idx & Esel & Hsel).
  destruct (alloc_blocks size0 a a' live r Hwf Halg E)
    as [(-> & _)|(pre & i & post & -> & Esel' & Hty & Er & _ & _ & Hcase)]; [contradiction|].
  rewrite Esel in Esel'. injection Esel' as ->.
  pose proof (chain_valid _ _ _ _ (wl_chain _ _ Hwl) i) as Hv.
  destruct Hsel as [[-> _]|Hsel].
  { assert (valid (-1)) as Hbad by (apply Hv, elem_of_app; right; left).
    unfold valid in Hbad. lia. }
  exists (map (block_at a) pre), (size (node_at (ledger a) i)), (map (block_at a) post).
  split.
  { rewrite map_app. cbn [map]. do 2 f_equal.
    unfold block_at, block_of. now rewrite Hty, Er. }
  split; [destruct Hcase as [(-> & _)|(? & _)]; lia|].
  assert (Hmem : forall xs b, b ∈ map (block_at a) xs -> exists j, j ∈ xs /\ b = block_at a j).
  { intros xs b Hb. apply list_elem_of_fmap in Hb as (j & -> & Hj). eauto. }
  pose proof (wl_nodup _ _ Hwl) as Hnd.
  destruct (alloc_algorithm a); cbn [selected] in Hsel; [|contradiction| |].
  - destruct Hsel as (_ & pre' & post' & Esplit & Hpre).
    apply (NoDup_split_unique _ _ _ _ _ Hnd) in Esplit as [<- <-].
    intros b Hb. apply Hmem in Hb as (j & Hj & ->). rewrite fits_block_at. now apply Hpre.
  - destruct Hsel as (_ & pre' & post' & Esplit & Hpre & Hpost).
    apply (NoDup_split_unique _ _ _ _ _ Hnd) in Esplit as [<- <-].
    split; intros b Hb Hf; apply Hmem in Hb as (j & Hj & ->); apply fits_block_at in Hf.
    + apply (Hpre j Hj Hf).
    + specialize (Hpost j Hj Hf). cbn [extent block_at block_of]. unfold block_at, block_of.
      cbn [extent]. lia.
  - destruct Hsel as (_ & pre' & post' & Esplit & Hpre & Hpost).
    apply (NoDup_split_unique _ _ _ _ _ Hnd) in Esplit as [<- <-].
    split; intros b Hb Hf; apply Hmem in Hb as (j & Hj & ->); apply fits_block_at in Hf.
    + specialize (Hpre j Hj Hf). unfold block_at, block_of. cbn [extent]. lia.
    + specialize (Hpost j Hj Hf). unfold block_at, block_of. cbn [extent]. lia.
Qed.

(** First-fit takes the 8-byte Hole of P H P H, not the one behind it. *)
Lemma alloc_takes_the_hole_of_the_strategy_witness :
  let a := state_after [Init 4096 32 FIRST_FIT; Alloc 8; Alloc 8; Alloc 8; Free 4104] in
  let a' := state_after [Init 4096 32 FIRST_FIT; Alloc 8; Alloc 8; Alloc 8; Free 4104; Alloc 4] in
  let bs := [mkBlock P 0 8; mkBlock H 8 8; mkBlock P 16 8; mkBlock H 24 8] in
  exists bs1 e bs2,
    bs = bs1 ++ mkBlock H (4104 - pool a) e :: bs2 /\
    ALIGN4 (to_size_t 4) <= e /\
    match alloc_algorithm a with
    | FIRST_FIT => forall b, b ∈ bs1 -> ~ fits (ALIGN4 (to_size_t 4)) b
    | BEST_FIT =>
        (forall b, b ∈ bs1 -> fits (ALIGN4 (to_size_t 4)) b -> e < extent b) /\
        (forall b, b ∈ bs2 -> fits (ALIGN4 (to_size_t 4)) b -> e <= extent b)
    | WORST_FIT =>
        (forall b, b ∈ bs1 -> fits (ALIGN4 (to_size_t 4)) b -> extent b < e) /\
        (forall b, b ∈ bs2 -> fits (ALIGN4 (to_size_t 4)) b -> extent b <= e)
    | NEXT_FIT => False
    end.
Proof.
  intros a a' bs.
  apply (alloc_takes_the_hole_of_the_strategy 4 a a' 4104 bs).
  - apply reachable_holes.
  - apply reachable_holes.
  - left. vm_compute. reflexivity.
  - vm_compute. reflexivity.
  - discriminate.
Defined.

(** ** [mavalloc_alloc] returns *)

(** The scans of best-fit and worst-fit end. *)
Lemma best_fit_loop_total (l : list Node) (sz : Z) (xs : list Z) :
  table l ->
  forall (prv : Z) (k : nat) (idx0 sz0 : Z),
    chain l prv xs (-1) -> (length xs < k)%nat ->
    exists r, best_fit_loop k sz (head_or (-1) xs) idx0 sz0 l = Done r.
Proof.
  intros Hl. induction xs as [|x xs IH]; intros prv [|k] idx0 sz0 Hc Hk;
    cbn [length] in Hk; try lia.
  - exists idx0. reflexivity.
  - destruct Hc as (Hv & _ & Hn & Hc). cbn [best_fit_loop head_or].
    assert ((x =? -1) = false) as -> by (apply Z.eqb_neq; unfold valid in Hv; lia).
    rewrite (ledger_at_node_at l x Hl Hv). cbn [obind]. rewrite Hn.
    destruct (_ && _); apply (IH x k); (assumption || lia).
Qed.

Lemma worst_fit_loop_total (l : list Node) (sz : Z) (xs : list Z) :
  table l ->
  forall (prv : Z) (k : nat) (idx0 sz0 : Z),
    chain l prv xs (-1) -> (length xs < k)%nat ->
    exists r, worst_fit_loop k sz (head_or (-1) xs) idx0 sz0 l = Done r.
Proof.
  intros Hl. induction xs as [|x xs IH]; intros prv [|k] idx0 sz0 Hc Hk;
    cbn [length] in Hk; try lia.
  - exists idx0. reflexivity.
  - destruct Hc as (Hv & _ & Hn & Hc). cbn [worst_fit_loop head_or].
    assert ((x =? -1) = false) as -> by (apply Z.eqb_neq; unfold valid in Hv; lia).
    rewrite (ledger_at_node_at l x Hl Hv). cbn [obind]. rewrite Hn.
    destruct (_ && _); apply (IH x k); (assumption || lia).
Qed.

Lemma select_hole_total (sz : Z) (a : allocator) (live : list Z) :
  well_linked a live -> alloc_algorithm a <> NEXT_FIT ->
  exists idx, select_hole sz a = Done (idx, with_traverse_back_ptr (head_or 0 live) a).
Proof.
  intros Hwl Halg.
  pose proof (wl_table _ _ Hwl) as Hl. pose proof (wl_chain _ _ Hwl) as Hc.
  pose proof (distinct_records_bound _ (wl_nodup _ _ Hwl) (chain_valid _ _ _ _ Hc)) as Hlen.
  assert (Hhd : head_or 0 live = head_or (-1) live).
  { pose proof (wl_live _ _ Hwl). destruct live; [contradiction|reflexivity]. }
  pose proof (traverse_back_well_linked a live Hwl) as Htb.
  unfold select_hole. rewrite bind_gets.
  destruct (alloc_algorithm a); [|contradiction| |].
  - destruct (first_fit_loop_spec (ledger a) sz live Hl (-1) fuel Hc) as (r & Er & _);
      [unfold fuel; lia|].
    exists r. unfold first_fit, first_fit_with. fold traverse_back.
    rewrite (bind_run _ _ _ _ _ Htb). unfold lift. fields. rewrite Hhd, Er. reflexivity.
  - destruct (best_fit_loop_total (ledger a) sz live Hl (-1) fuel (-1) INT_MAX Hc)
      as (r & Er); [unfold fuel; lia|].
    exists r. unfold best_fit, best_fit_with. fold traverse_back.
    rewrite (bind_run _ _ _ _ _ Htb). unfold lift. fields. rewrite Hhd, Er. reflexivity.
  - destruct (worst_fit_loop_total (ledger a) sz live Hl (-1) fuel (-1) (-1) Hc)
      as (r & Er); [unfold fuel; lia|].
    exists r. unfold worst_fit, worst_fit_with. fold traverse_back.
    rewrite (bind_run _ _ _ _ _ Htb). unfold lift. fields. rewrite Hhd, Er. reflexivity.
Qed.

Lemma alloc_returns (size0 : Z) (a : allocator) (live : list Z) :
  well_linked a live -> alloc_algorithm a <> NEXT_FIT ->
  ledger_top a + 1 < MAX_ALLOCS ->
  exists r a', mavalloc_alloc size0 a = Done (r, a').
Proof.
  intros Hwl Halg Hroom.
  destruct (select_hole_total (ALIGN4 (to_size_t size0)) a live Hwl Halg) as (idx & Esel).
  destruct (select_hole_well_linked _ _ _ _ _ Hwl Halg Esel) as [_ [->|Hin]].
  { eexists _, _. apply (alloc_none_run _ _ _ Esel). }
  pose proof (well_linked_head a live Hwl) as (Hhd & _ & _).
  pose proof (well_linked_cache a live _ Hwl Hhd) as Hwl1.
  set (a1 := with_traverse_back_ptr (head_or 0 live) a) in *.
  pose proof (wl_table _ _ Hwl1) as Hl.
  pose proof (chain_valid _ _ _ _ (wl_chain _ _ Hwl1)) as Hv.
  assert (Hidx : idx <> -1) by (specialize (Hv idx Hin); unfold valid in Hv; lia).
  destruct (select_hole_qualifies _ _ _ _ Esel Hidx) as (h & Hh & Hty & Hsz).
  destruct (ledger_at_valid _ _ _ Hh) as [Hiv Hnode].
  destruct (decide (size h = ALIGN4 (to_size_t size0))) as [Hexact|Hsplit].
  { eexists _, _. apply (alloc_exact_run _ _ _ _ _ Esel Hidx Hh Hexact). }
  assert (Htop : valid (ledger_top a1 + 1)).
  { pose proof (wl_below _ _ Hwl1 idx Hin) as Hb. unfold valid in Hiv |- *.
    change (ledger_top a1) with (ledger_top a) in *. lia. }
  apply list_elem_of_split in Hin as (pre & post & ->).
  pose proof (wl_chain _ _ Hwl1) as Hc.
  apply chain_app in Hc as [_ (_ & Hph & _)]. rewrite Hnode in Hph.
  pose proof (wl_nodup _ _ Hwl1) as Hnd.
  apply NoDup_app in Hnd as (_ & Hdisj & _).
  assert (Hbelow : forall j, j ∈ pre ++ idx :: post -> j <> ledger_top a1 + 1).
  { intros j Hj. pose proof (wl_below _ _ Hwl1 j Hj). lia. }
  assert (Hp : previous h = -1 \/ (valid (previous h) /\ previous h ∈ pre)).
  { rewrite Hph. destruct (last_or_pre_cases pre) as [[_ ->]|[_ Hp]]; [now left|right].
    split; [|assumption]. apply Hv, elem_of_app. now left. }
  destruct (alloc_split_run size0 a a1 idx h Esel Hidx Hh Hsplit Hl Htop)
    as (l' & E' & _).
  - apply Hbelow, elem_of_app. right. left.
  - destruct Hp as [->|[_ Hp]]; [unfold valid in Htop; lia|].
    apply Hbelow, elem_of_app. now left.
  - destruct Hp as [->|[_ Hp]]; [lia|]. intros Eq. rewrite Eq in Hp.
    apply (Hdisj idx Hp). left.
  - destruct Hp as [?|[? _]]; auto.
  - eexists _, _. exact E'.
Qed.

(** X16.  Under first-, best- and worst-fit, while the table has a free
    record, [mavalloc_alloc] returns, with a handle or with [NULL]: it
    subscripts the ledger within bounds and its scan of the list ends. *)
Theorem alloc_returns_while_the_table_has_room (size0 : Z) (a : allocator) :
  reachable a -> ledger_top a + 1 < MAX_ALLOCS ->
  exists r a', mavalloc_alloc size0 a = Done (r, a') /\ reachable a'.
Proof.
  intros Hr Hroom.
  destruct (reachable_well_formed a Hr) as (live & [Hwl _]).
  destruct (alloc_returns size0 a live Hwl (reachable_algorithm a Hr) Hroom)
    as (r & a' & E).
  exists r, a'. split; [exact E|]. exact (reach_alloc a a' size0 r Hr E).
Qed.

(** A request larger than every Hole of P H P H. *)

Lemma alloc_returns_while_the_table_has_room_witness :
  let a := state_after [Init 4096 32 FIRST_FIT; Alloc 8; Alloc 8; Alloc 8; Free 4104] in
  exists r a', mavalloc_alloc 100 a = Done (r, a') /\ reachable a'.
Proof.
  intros a.
  apply (alloc_returns_while_the_table_has_room 100 a).
  - apply reachable_holes.
  - vm_compute. reflexivity.
Defined.

(** ** Successive calls of [mavalloc_alloc] *)

Lemma map_snoc_inv {A B : Type} (f : A -> B) (xs : list A) (ys : list B) (z : B) :
  map f xs = ys ++ [z] -> exists pre i, xs = pre ++ [i] /\ map f pre = ys /\ f i = z.
Proof.
  revert ys. induction xs as [|x xs IH]; intros ys E.
  - destruct ys; discriminate.
  - destruct ys as [|y ys]; cbn [map app] in E.
    + apply cons_inv in E as [E1 E2]. destruct xs; [|discriminate].
      exists [], x. auto.
    + apply cons_inv in E as [E1 E2]. destruct (IH ys E2) as (pre & i & -> & <- & <-).
      exists (x :: pre), i. rewrite <- E1. auto.
Qed.

(** One call, when the last block is a Hole larger than the request and no
    block before it can hold the request. *)
Lemma alloc_from_the_tail_hole (size0 : Z) (a : allocator) (bs : list block) (o e : Z) :
  reachable a -> blocks a = Done (bs ++ [mkBlock H o e]) ->
  (forall b, b ∈ bs -> ~ fits (ALIGN4 (to_size_t size0)) b) ->
  alloc_algorithm a = FIRST_FIT \/
    Forall (fun b => extent b < INT_MAX) (bs ++ [mkBlock H o e]) ->
  ALIGN4 (to_size_t size0) < e ->
  ledger_top a + 1 < MAX_ALLOCS ->
  exists a',
    mavalloc_alloc size0 a = Done (pool a + o, a') /\
    blocks a' =
      Done ((bs ++ [mkBlock P o (ALIGN4 (to_size_t size0))]) ++
            [mkBlock H (o + ALIGN4 (to_size_t size0)) (e - ALIGN4 (to_size_t size0))]) /\
    ledger_top a' = ledger_top a + 1.
Proof.
  intros Hr Eb Hnone Hsmall Hlt Hroom.
  destruct (reachable_well_formed a Hr) as (live & Hwf).
  pose proof Hwf as [Hwl _]. pose proof (reachable_algorithm a Hr) as Halg.
  rewrite (blocks_block_at _ _ Hwl) in Eb. injection Eb as Eb.
  assert (Hsmall' : alloc_algorithm a = FIRST_FIT \/
            (forall x, x ∈ live -> size (node_at (ledger a) x) < INT_MAX)).
  { destruct Hsmall as [?|Hs]; [now left|right]. intros x Hx.
    rewrite <- Eb, Forall_forall in Hs. apply (Hs (block_at a x)).
    apply list_elem_of_fmap. eauto. }
  apply map_snoc_inv in Eb as (pre & i & -> & <- & Ei).
  assert (Hq : qualifies (ledger a) (ALIGN4 (to_size_t size0)) i).
  { apply (proj1 (fits_block_at a _ i)). rewrite Ei.
    split; cbn [kind extent]; [reflexivity|lia]. }
  assert (Hi : i ∈ pre ++ [i]) by (apply elem_of_app; right; left).
  destruct (alloc_returns size0 a _ Hwl Halg Hroom) as (r & a' & E).
  pose proof (chain_valid _ _ _ _ (wl_chain _ _ Hwl)) as Hv.
  destruct (alloc_blocks size0 a a' _ r Hwf Halg E)
    as [(_ & _ & Esel)|(pre' & j & post' & Esplit & _ & Hty & Er & _ & _ & Hcase)].
  - exfalso.
    destruct (select_hole_selects (ALIGN4 (to_size_t size0)) a _ Hwl Hsmall' Halg)
      as (idx & Esel' & Hsel).
    rewrite Esel in Esel'. apply (f_equal (fun x => match x with Done (i, _) => i | _ => 0 end)) in Esel'.
    subst idx.
    destruct Hsel as [[_ Hno]|Hsel]; [exact (Hno i Hi Hq)|].
    apply selected_qualifies in Hsel as [Hin _]. specialize (Hv _ Hin).
    unfold valid in Hv. lia.
  - assert (Hj : j = i).
    { assert (Hjin : j ∈ pre ++ [i]) by (rewrite Esplit; apply elem_of_app; right; left).
      apply elem_of_app in Hjin as [Hjin|Hjin]; [exfalso|now apply list_elem_of_singleton in Hjin].
      apply (Hnone (block_at a j)); [apply list_elem_of_fmap; eauto|].
      apply fits_block_at. split; [exact Hty|].
      destruct Hcase as [(-> & _)|(? & _)]; lia. }
    subst j.
    destruct (NoDup_split_unique pre [] pre' post' i (wl_nodup _ _ Hwl) Esplit) as [<- <-].
    assert (Es : size (node_at (ledger a) i) = e)
      by (apply (f_equal extent) in Ei; exact Ei).
    assert (Eo : arena (node_at (ledger a) i) - pool a = o)
      by (apply (f_equal offset) in Ei; exact Ei).
    destruct Hcase as [(Hex & _)|(_ & [Hwl' _] & Et & Eb')]; [lia|].
    exists a'. replace (pool a + o) with r by lia. split; [exact E|]. split; [|exact Et].
    rewrite (blocks_block_at _ _ Hwl'), Eb'. cbn [map]. rewrite <- app_assoc.
    cbn [app]. rewrite Es. replace (r - pool a) with o by lia. reflexivity.
Qed.

(** X17.  Under first-fit, and under best- and worst-fit when every block
    is smaller than [INT_MAX] bytes: when the last block is a Hole and no
    block before it can hold the request, [n] successive calls of
    [mavalloc_alloc] for [size0] bytes that leave some of that Hole over
    return handles one aligned size apart, from the start of the Hole, and
    lay [n] Process blocks back to back in it, each on a new record. *)
Theorem successive_allocs_fill_the_tail_hole
    (size0 : Z) (n : nat) (a : allocator) (bs : list block) (o e : Z) :
  reachable a -> blocks a = Done (bs ++ [mkBlock H o e]) ->
  (forall b, b ∈ bs -> ~ fits (ALIGN4 (to_size_t size0)) b) ->
  alloc_algorithm a = FIRST_FIT \/
    Forall (fun b => extent b < INT_MAX) (bs ++ [mkBlock H o e]) ->
  Z.of_nat n * ALIGN4 (to_size_t size0) < e ->
  ledger_top a + Z.of_nat n < MAX_ALLOCS ->
  exists a',
    run (replicate n (Alloc size0)) a =
      Done (map (fun b => pool a + offset b) (packed o (ALIGN4 (to_size_t size0)) n), a') /\
    reachable a' /\
    blocks a' =
      Done (bs ++ packed o (ALIGN4 (to_size_t size0)) n ++
            [mkBlock H (o + Z.of_nat n * ALIGN4 (to_size_t size0))
                       (e - Z.of_nat n * ALIGN4 (to_size_t size0))]) /\
    ledger_top a' = ledger_top a + Z.of_nat n.
Proof.
  pose proof (ALIGN4_range (to_size_t size0)) as Hsz.
  revert a bs o e. induction n as [|n IH]; intros a bs o e Hr Eb Hnone Hsmall Hlt Hroom.
  - exists a. cbn [replicate run packed map app]. rewrite Eb.
    replace (o + Z.of_nat 0 * _) with o by lia. replace (e - Z.of_nat 0 * _) with e by lia.
    split; [reflexivity|]. split; [exact Hr|]. split; [reflexivity|]. lia.
  - rewrite Nat2Z.inj_succ, Z.mul_succ_l in Hlt |- *. rewrite Nat2Z.inj_succ in Hroom.
    assert (Hn : 0 <= Z.of_nat n * ALIGN4 (to_size_t size0))
      by (apply Z.mul_nonneg_nonneg; lia).
    destruct (alloc_from_the_tail_hole size0 a bs o e Hr Eb Hnone Hsmall)
      as (a1 & E1 & Eb1 & Et1); [lia|lia|].
    pose proof (reach_alloc a a1 size0 _ Hr E1) as Hr1.
    destruct (alloc_keeps_config _ _ _ _ E1) as (Ep & _ & Ealg).
    destruct (IH a1 (bs ++ [mkBlock P o (ALIGN4 (to_size_t size0))])
                (o + ALIGN4 (to_size_t size0)) (e - ALIGN4 (to_size_t size0)) Hr1 Eb1)
      as (a' & Erun & Hr' & Eb' & Et').
    + intros b Hb. apply elem_of_app in Hb as [Hb|Hb]; [now apply Hnone|].
      apply list_elem_of_singleton in Hb as ->. intros [Hk _]. discriminate.
    + rewrite Ealg. destruct Hsmall as [?|Hs]; [now left|right].
      apply Forall_app in Hs as [Hs1 Hs2]. rewrite Forall_singleton in Hs2. cbn [extent] in Hs2.
      repeat (apply Forall_app; split); [exact Hs1| |];
        apply Forall_singleton; cbn [extent]; lia.
    + lia.
    + lia.
    + exists a'. split; [|split; [exact Hr'|split]].
      * cbn [replicate run perform]. rewrite (bind_run _ _ _ _ _ E1).
        rewrite (bind_run _ _ _ _ _ Erun). unfold ret. cbn [packed map offset].
        rewrite Ep. reflexivity.
      * rewrite Eb'. cbn [packed]. rewrite <- !app_assoc. cbn [app].
        set (q := Z.of_nat n * ALIGN4 (to_size_t size0)).
        replace (o + ALIGN4 (to_size_t size0) + q) with (o + (q + ALIGN4 (to_size_t size0)))
          by lia.
        replace (e - ALIGN4 (to_size_t size0) - q) with (e - (q + ALIGN4 (to_size_t size0)))
          by lia.
        reflexivity.
      * lia.
Qed.

(** Three blocks of 12 bytes from a fresh pool of 300000 bytes. *)
Lemma successive_allocs_fill_the_tail_hole_witness :
  let a := state_after [Init 4096 300000 FIRST_FIT] in
  exists a',
    run (replicate 3 (Alloc 10)) a = Done ([4096; 4108; 4120], a') /\
    reachable a' /\
    blocks a' =
      Done [mkBlock P 0 12; mkBlock P 12 12; mkBlock P 24 12; mkBlock H 36 299964] /\
    ledger_top a' = 3.
Proof.
  intros a.
  assert (Hr : reachable a).
  { apply (reach_init boot a 4096 300000 FIRST_FIT boot_storage_ok);
      [lia|vm_compute; discriminate|discriminate|vm_compute; reflexivity]. }
  apply (successive_allocs_fill_the_tail_hole 10 3 a [] 0 300000 Hr).
  - vm_compute. reflexivity.
  - intros b Hb. inversion Hb.
  - left. vm_compute. reflexivity.
  - vm_compute. reflexivity.
  - vm_compute. reflexivity.
Defined.

(** ** [mavalloc_alloc] followed by [mavalloc_free] *)

(** X11.  Under first-, best- and worst-fit, when every live block has a
    positive extent, freeing the handle [mavalloc_alloc] has just returned
    restores the block list exactly, unless the Hole that was split was the
    last block, in which case [mavalloc_free] subscripts the ledger with
    [-1].  [ledger_top] is not given back: a split followed by the free
    uses up one record of the table. *)
Theorem alloc_then_free_gives_the_blocks_back
    (size0 : Z) (a a1 : allocator) (r : Z) (bs : list block) :
  reachable a -> blocks a = Done bs ->
  Forall (fun b => 0 < extent b) bs ->
  mavalloc_alloc size0 a = Done (r, a1) -> r <> NULL ->
  (exists a2, mavalloc_free r a1 = Done (tt, a2) /\ blocks a2 = Done bs /\
              ledger_top a2 = ledger_top a1) \/
  (mavalloc_free r a1 = OutOfBounds (-1) /\
   exists bs1 e, bs = bs1 ++ [mkBlock H (r - pool a) e] /\ ALIGN4 (to_size_t size0) < e).
Proof.
  intros Hr Eb Hpos E Hnn. destruct (reachable_well_formed a Hr) as (live & Hwf).
  pose proof Hwf as [Hwl Hsep].
  rewrite (blocks_block_at _ _ Hwl) in Eb. injection Eb as <-.
  destruct (alloc_blocks size0 a a1 live r Hwf (reachable_algorithm a Hr) E)
    as [(-> & _)|(pre & idx & post & -> & _ & Hty & Er & Ep & Es & Hcase)]; [contradiction|].
  destruct (separated_around a pre post idx Hsep Hty) as (Hlast & Hhead & Hcond).
  destruct (tiles_before _ _ _ _ _ _ (wl_tiles _ _ Hwl)) as (_ & _ & _ & Hord).
  rewrite <- Er in Hord.
  assert (Hno : forall x, x ∈ map (block_at a) pre -> offset x <> r - pool a).
  { intros b Hb. apply list_elem_of_fmap in Hb as (j & -> & Hj).
    rewrite block_at_offset. specialize (Hord j Hj).
    assert (Hext : 0 < extent (block_at a j)).
    { rewrite Forall_forall in Hpos. apply Hpos. apply list_elem_of_fmap.
      exists j. split; [reflexivity|]. apply elem_of_app. now left. }
    unfold block_at, block_of in Hext. cbn [extent] in Hext. lia. }
  assert (Eidx : block_at a idx = mkBlock H (r - pool a) (size (node_at (ledger a) idx))).
  { unfold block_at, block_of. now rewrite Hty, Er. }
  assert (Hpre1 : forall a', pool a' = pool a ->
            map (block_at a') pre = map (block_at a) pre ->
            (forall x, x ∈ pre -> arena (node_at (ledger a') x) <> r) /\
            (pre = [] \/ type (node_at (ledger a') (last_or (-1) pre)) = P)).
  { intros a' Ep' Em. split.
    - intros x Hx. rewrite <- (block_at_offset a'), Ep', (map_eq_elem _ _ _ _ Em Hx).
      apply Hno. apply list_elem_of_fmap. eauto.
    - destruct Hcond as [->|Hc]; [now left|right].
      destruct (last_or_pre_cases pre) as [[-> _]|[_ Hin]]; [exact Hc|].
      rewrite <- (block_at_kind a'), (map_eq_elem _ _ _ _ Em Hin). exact Hc. }
  rewrite map_app. cbn [map]. rewrite Eidx.
  destruct Hcase as [(Hex & [Hwl1 _] & Et & Em)|(Hlt & [Hwl1 _] & Et & Em)].
  - left. pose proof Em as Em'.
    apply map_app_inv in Em' as [Em1 Em2]. cbn [map] in Em2. apply cons_inv in Em2 as [Ei _].
    destruct (Hpre1 a1 Ep Em1) as [Hno1 Hcond1].
    assert (Hi1 : arena (node_at (ledger a1) idx) = r).
    { apply block_at_offset. rewrite Ei, Ep. reflexivity. }
    pose proof (free_found r a1 pre post idx Hwl1 Hnn Hno1 Hi1) as Hf.
    rewrite Em, Ep in Hf.
    rewrite release_whole in Hf by assumption.
    destruct Hf as (a2 & live2 & Ef & _ & Eb2 & _ & _ & _ & Etop).
    exists a2. split; [exact Ef|]. split; [exact Eb2|]. now apply Etop.
  - pose proof Em as Em'.
    apply map_app_inv in Em' as [Em1 Em2]. cbn [map] in Em2. apply cons_inv in Em2 as [Ei _].
    destruct (Hpre1 a1 Ep Em1) as [Hno1 Hcond1].
    assert (Hi1 : arena (node_at (ledger a1) (ledger_top a + 1)) = r).
    { apply block_at_offset. rewrite Ei, Ep. reflexivity. }
    pose proof (free_found r a1 pre (idx :: post) _ Hwl1 Hnn Hno1 Hi1) as Hf.
    rewrite Em, Ep in Hf.
    rewrite release_carved in Hf by assumption.
    destruct post as [|q post]; cbn [map] in Hf |- *.
    + right. split; [exact Hf|]. eauto.
    + left. destruct Hf as (a2 & live2 & Ef & _ & Eb2 & _ & _ & _ & Etop).
      exists a2. split; [exact Ef|]. split; [|now apply Etop].
      rewrite Eb2.
      replace (ALIGN4 (to_size_t size0) +
               (size (node_at (ledger a) idx) - ALIGN4 (to_size_t size0)))
        with (size (node_at (ledger a) idx)) by lia.
      reflexivity.
Qed.

(** Four bytes out of the 8-byte Hole of P H P H, and back. *)
Lemma alloc_then_free_gives_the_blocks_back_witness :
  let a := state_after [Init 4096 32 FIRST_FIT; Alloc 8; Alloc 8; Alloc 8; Free 4104] in
  let a1 := state_after [Init 4096 32 FIRST_FIT; Alloc 8; Alloc 8; Alloc 8; Free 4104; Alloc 4] in
  let bs := [mkBlock P 0 8; mkBlock H 8 8; mkBlock P 16 8; mkBlock H 24 8] in
  (exists a2, mavalloc_free 4104 a1 = Done (tt, a2) /\ blocks a2 = Done bs /\
              ledger_top a2 = ledger_top a1) \/
  (mavalloc_free 4104 a1 = OutOfBounds (-1) /\
   exists bs1 e, bs = bs1 ++ [mkBlock H (4104 - pool a) e] /\ ALIGN4 (to_size_t 4) < e).
Proof.
  intros a a1 bs.
  apply (alloc_then_free_gives_the_blocks_back 4 a a1 4104 bs).
  - apply reachable_holes.
  - apply reachable_holes.
  - repeat constructor.
  - vm_compute. reflexivity.
  - discriminate.
Defined.

(** ** A full table *)

(** X12.  [mavalloc_alloc] does not test [ledger_top] against the size of
    the table: when all [MAX_ALLOCS] records are in use and the selected
    Hole is larger than the request, it writes [ledger[MAX_ALLOCS]]. *)
Theorem alloc_overruns_a_full_table (size0 : Z) (a a1 : allocator) (idx : Z) (h : Node) :
  select_hole (ALIGN4 (to_size_t size0)) a = Done (idx, a1) ->
  idx <> -1 ->
  ledger_at idx (ledger a1) = Done h ->
  size h <> ALIGN4 (to_size_t size0) ->
  ledger_top a = MAX_ALLOCS - 1 ->
  mavalloc_alloc size0 a = OutOfBounds MAX_ALLOCS.
Proof.
  intros Esel Hidx Hh Hsplit Htop.
  destruct (select_hole_same _ _ _ _ Esel) as (_ & Et & _).
  rewrite (alloc_table_full _ _ _ _ _ Esel Hidx Hh Hsplit); rewrite Et, Htop.
  - reflexivity.
  - unfold valid. lia.
Qed.

(** A table whose last record is in use, with one Hole of 32 bytes. *)
Lemma alloc_overruns_a_full_table_witness :
  let a := with_ledger_top 9999 (state_after [Init 4096 32 FIRST_FIT]) in
  mavalloc_alloc 8 a = OutOfBounds 10000.
Proof.
  intros a.
  apply (alloc_overruns_a_full_table 8 a (with_traverse_back_ptr 0 a) 0
           (mkNode 32 H 4096 (-1) (-1))).
  - vm_compute. reflexivity.
  - discriminate.
  - vm_compute. reflexivity.
  - vm_compute. discriminate.
  - reflexivity.
Defined.
